(** * Slot allocation and travel-path engine of the ASRS warehouse simulator

    Shallow embedding of the grid / slot / path core of the repository:
    - [src/proto/asrs/core.py]: [Rack] with [_can_fit], the zone scan
      [find_nearest_empty_slot], [place_box], [remove_box], [get_occupied_cells];
    - [src/proto/intial/asrs_complete/asrs-complete.py]: the BFS variant of
      [find_nearest_empty_slot] and its [_can_fit], and [get_capacity];
    - [src/proto/intial/game.py]: the [Rack] class ([can_place_box],
      [find_closest_available_location], [place_box], [remove_box], the LIFO and
      FIFO picks, [get_occupied_cells], [to_dict] / [from_dict] and the JSON save
      file) and its [a_star_pathfinding];
    - [src/pathfinding.py]: [calculate_distance], [a_star_path];
    - [src/A_star.py]: the obstacle-aware [a_star_pathfinding].

    Python integers are [Z] and Python floats the kernel's binary64 floats
    ([PrimFloat]); a Python exception (IndexError, KeyError, OverflowError) is
    the [None] of the [option] monad; list indexing follows Python (negative
    indices count from the end). *)

From Stdlib Require Import ZArith Lia.
From stdpp Require Import base list gmap strings sorting.
From Stdlib Require DecimalString DecimalZ.
From Corelib Require PrimFloat FloatOps FloatAxioms SpecFloat PrimInt63.
From Stdlib Require Uint63.

Open Scope Z_scope.

(** Exception propagation: [let? x := e in k] runs [k] unless [e] raised. *)
Notation "'let?' x ':=' m 'in' k" :=
  (match m with Some x => k | None => None end) (at level 200, x name, right associativity).

(** ** Python runtime helpers *)

(** [range(a, b)] *)
Definition range (a b : Z) : list Z :=
  map (fun k => a + Z.of_nat k) (seq 0 (Z.to_nat (b - a))).

(** Python index normalisation: [Some] of the position, [None] = IndexError. *)
Definition py_index (n : nat) (i : Z) : option nat :=
  if (i <? - Z.of_nat n) || (Z.of_nat n <=? i) then None
  else Some (Z.to_nat (if i <? 0 then i + Z.of_nat n else i)).

(** [l[i]] *)
Definition py_get {A} (l : list A) (i : Z) : option A :=
  let? k := py_index (length l) i in l !! k.

(** [l[i] = x] *)
Definition py_set {A} (l : list A) (i : Z) (x : A) : option (list A) :=
  let? k := py_index (length l) i in Some (<[k := x]> l).

(** A [for] loop whose body may raise. *)
Fixpoint py_for {A B} (f : A -> B -> option A) (l : list B) (a : A) : option A :=
  match l with
  | [] => Some a
  | x :: l' => let? a' := f a x in py_for f l' a'
  end.

(** [for x in l: if not p(x): return False] ... [return True]. *)
Fixpoint py_all {B} (p : B -> option bool) (l : list B) : option bool :=
  match l with
  | [] => Some true
  | x :: l' => let? b := p x in if b then py_all p l' else Some false
  end.

(** [for x in l: r = f(x); if r is found: return r] ... [return None]. *)
Fixpoint py_search {B C} (f : B -> option (option C)) (l : list B) : option (option C) :=
  match l with
  | [] => Some None
  | x :: l' => let? o := f x in
               match o with Some y => Some (Some y) | None => py_search f l' end
  end.

(** [l.remove(x)]: drops the first element equal to [x]; [None] = ValueError. *)
Fixpoint py_remove {A} `{EqDecision A} (x : A) (l : list A) : option (list A) :=
  match l with
  | [] => None
  | y :: l' => if decide (y = x) then Some l' else let? l'' := py_remove x l' in Some (y :: l'')
  end.

(** A grid cell [(row, col)]. *)
Abbreviation cell := (Z * Z)%type.

(** [grid[r][c]] *)
Definition cell_at {A} (g : list (list A)) (r c : Z) : option A :=
  let? rowl := py_get g r in py_get rowl c.

(** [grid[r][c] = x]: the row list is mutated in place. *)
Definition set_cell {A} (g : list (list A)) (r c : Z) (x : A) : option (list (list A)) :=
  let? rowl := py_get g r in let? rowl' := py_set rowl c x in py_set g r rowl'.

(** A grid built as [[[None for _ in range(cols)] for _ in range(rows)]] and
    only mutated cell-wise keeps this shape. *)
Definition rectangular {A} (g : list (list A)) (rows cols : Z) : Prop :=
  Z.of_nat (length g) = rows /\ Forall (fun rowl => Z.of_nat (length rowl) = cols) g.

(** ** [src/proto/asrs/core.py] *)

(** Occupant tokens ([box_id]) are integers; [None] is an empty cell. *)
Record Rack := mkRack {
  rows : Z;
  cols : Z;
  grid : list (list (option Z));
  box_locations : gmap Z (Z * Z * Z)   (* box_id -> (row, col, size) *)
}.

Definition new_rack (r c : Z) : Rack :=
  mkRack r c (replicate (Z.to_nat r) (replicate (Z.to_nat c) None)) ∅.

Module Core.

(** [MODEL_ZONES] of [config.py], in dict order: size -> (first row, last row). *)
Definition MODEL_ZONES : list (Z * (Z * Z)) :=
  [(1, (0, 3)); (2, (4, 9)); (3, (10, 15)); (4, (16, 21)); (5, (22, 29))].

(** [size in MODEL_ZONES] / [MODEL_ZONES[size]['range']]; [None] = absent. *)
Fixpoint zone_lookup (size : Z) (zs : list (Z * (Z * Z))) : option (Z * Z) :=
  match zs with
  | [] => None
  | (k, rg) :: zs' => if Z.eqb k size then Some rg else zone_lookup size zs'
  end.

Definition in_range (rg : Z * Z) (r : Z) : bool := (rg.1 <=? r) && (r <=? rg.2).

(** The inner [for zone in MODEL_ZONES.values()] loop of [_can_fit]: [found_zone]
    for the row [r_check]; [MODEL_ZONES[size]] raises KeyError for an unknown size. *)
Fixpoint found_zone (size r_check : Z) (zs : list (Z * (Z * Z))) : option bool :=
  match zs with
  | [] => Some false
  | (_, rg) :: zs' =>
      if in_range rg r_check then
        let? own := zone_lookup size MODEL_ZONES in
        if in_range own r_check then Some true else found_zone size r_check zs'
      else found_zone size r_check zs'
  end.

Definition _can_fit (rk : Rack) (row col size : Z) : option bool :=
  if (rows rk <? row + size) || (cols rk <? col + size) then Some false
  else
    let? zok := py_all (fun r_check => found_zone size r_check MODEL_ZONES) (range row (row + size)) in
    if negb zok then Some false
    else py_all (fun r => py_all (fun c => let? v := cell_at (grid rk) r c in
                                           Some (bool_decide (v = None)))
                                 (range col (col + size)))
                (range row (row + size)).

Definition find_nearest_empty_slot (rk : Rack) (model_size origin_row origin_col : Z)
  : option (option cell) :=
  match zone_lookup model_size MODEL_ZONES with
  | None => Some None
  | Some (start_row, end_row) =>
      py_search (fun r =>
        py_search (fun c => let? b := _can_fit rk r c model_size in
                            Some (if b then Some (r, c) else None))
                  (range 0 (cols rk)))
        (range start_row (end_row + 1))
  end.

(** [place_box]: no check at all, every footprint cell is overwritten.
    [Rack.place_box] of asrs-complete.py is the same code. *)
Definition place_box (rk : Rack) (box_id row col size : Z) : option Rack :=
  let? g := py_for (fun g r =>
              py_for (fun g c => set_cell g r c (Some box_id)) (range col (col + size)) g)
            (range row (row + size)) (grid rk) in
  Some (mkRack (rows rk) (cols rk) g (<[box_id := (row, col, size)]> (box_locations rk))).

(** [remove_box]: the boolean is the Python return value. *)
Definition remove_box (rk : Rack) (box_id : Z) : option (bool * Rack) :=
  match box_locations rk !! box_id with
  | None => Some (false, rk)
  | Some (row, col, size) =>
      let? g := py_for (fun g r =>
                  py_for (fun g c => set_cell g r c None) (range col (col + size)) g)
                (range row (row + size)) (grid rk) in
      Some (true, mkRack (rows rk) (cols rk) g (delete box_id (box_locations rk)))
  end.

Definition get_occupied_cells (rk : Rack) : Z :=
  fold_left (fun count rowl =>
    fold_left (fun count (c : option Z) => match c with None => count | Some _ => count + 1 end) rowl count)
    (grid rk) 0.

End Core.

(** The four moves, in the source's order: up, down, left, right. *)
Definition directions : list (Z * Z) := [(-1, 0); (1, 0); (0, -1); (0, 1)].

Definition in_bounds (rows cols : Z) (p : cell) : bool :=
  (0 <=? p.1) && (p.1 <? rows) && (0 <=? p.2) && (p.2 <? cols).

(** Loop bound of the searches below: every iteration either consumes a queue
    entry or closes one of the [rows * cols] cells (or the start), and closing
    pushes at most four entries. *)
Definition search_fuel (rows cols : Z) : nat :=
  5 * (Z.to_nat rows * Z.to_nat cols + 1) + 2.

(** ** [src/proto/intial/asrs_complete/asrs-complete.py] *)
Module Complete.

Definition _can_fit (rk : Rack) (row col size : Z) : option bool :=
  if (rows rk <? row + size) || (cols rk <? col + size) then Some false
  else py_all (fun r => py_all (fun c => let? v := cell_at (grid rk) r c in
                                         Some (bool_decide (v = None)))
                               (range col (col + size)))
              (range row (row + size)).

(** The [while queue] loop of [find_nearest_empty_slot]; the queue holds
    [(row, col, dist)]. The outer [None] is a raised exception, or the fuel
    running out, which [search_fuel] excludes. *)
Fixpoint bfs_loop (rk : Rack) (model_size : Z) (fuel : nat)
    (queue : list (Z * Z * Z)) (visited : list cell) : option (option cell) :=
  match fuel with
  | O => None
  | S fuel' =>
      match queue with
      | [] => Some None
      | (row, col, dist) :: queue' =>
          if bool_decide ((row, col) ∈ visited) then bfs_loop rk model_size fuel' queue' visited
          else
            let visited' := (row, col) :: visited in
            let? fits := _can_fit rk row col model_size in
            if fits then Some (Some (row, col))
            else
              let pushed := flat_map (fun d =>
                  let nb := (row + d.1, col + d.2) in
                  if in_bounds (rows rk) (cols rk) nb then [(nb.1, nb.2, dist + 1)] else [])
                  directions in
              bfs_loop rk model_size fuel' (queue' ++ pushed) visited'
      end
  end.

Definition find_nearest_empty_slot (rk : Rack) (model_size origin_row origin_col : Z)
  : option (option cell) :=
  bfs_loop rk model_size (search_fuel (rows rk) (cols rk)) [(origin_row, origin_col, 0)] [].

(** [GRID_ROWS] and [GRID_COLS] of [asrs-complete.py]. *)
Definition GRID_ROWS : Z := 30.
Definition GRID_COLS : Z := 25.

(** [Realistic3DViewer.get_capacity]: [int((occupied * 100) / total)]. The
    rack's [get_occupied_cells] is the code of [Core.get_occupied_cells]. The
    float quotient of two integers is correctly rounded, and [int] truncates;
    below 2^40 occupied cells the rounding error stays under [1 / total], so the
    result is the truncated integer quotient [Z.quot]. *)
Definition get_capacity (rk : Rack) : Z :=
  let total := GRID_ROWS * GRID_COLS in
  let occupied := Core.get_occupied_cells rk in
  if 0 <? total then Z.quot (occupied * 100) total else 0.

End Complete.

(** ** [src/proto/intial/game.py] *)
Module Game.

Record Box := mkBox { box_length : Z; box_width : Z; box_id : option Z }.

Record Rack := mkRack {
  rows : Z;
  cols : Z;
  grid : list (list (option Z));
  boxes : gmap Z Box;
  box_positions : gmap Z (Z * Z);
  next_box_id : Z;
  box_order : list Z
}.

Definition can_place_box (rk : Rack) (box : Box) (start_row start_col : Z) : option bool :=
  let end_row := start_row + box_width box in
  let end_col := start_col + box_length box in
  if (rows rk <? end_row) || (cols rk <? end_col) then Some false
  else py_all (fun r => py_all (fun c => let? v := cell_at (grid rk) r c in
                                         Some (bool_decide (v = None)))
                               (range start_col end_col))
              (range start_row end_row).

(** Python floats are IEEE 754 binary64: the kernel's primitive [float]
    ([PrimFloat]), whose operations [SpecFloat] specifies with [prec = 53] and
    [emax = 1024]. *)

(** [float(n)] of an int [n] ([PyLong_AsDouble]): rounded to nearest, ties to
    even; OverflowError when the rounded value lies outside the double range. *)
Definition float_of_int (n : Z) : option PrimFloat.float :=
  match SpecFloat.binary_normalize FloatOps.prec FloatOps.emax n 0 false with
  | SpecFloat.S754_infinity _ => None
  | f => Some (FloatOps.SF2Prim f)
  end.

(** [math.sqrt(n)] of an int ([math_1] of [mathmodule.c]): the argument is
    converted with [float(n)], [sqrt] is the correctly rounded square root; a NaN
    result of a non-NaN argument raises ValueError, an infinite result of a
    finite argument OverflowError. *)
Definition math_sqrt (n : Z) : option PrimFloat.float :=
  let? x := float_of_int n in
  let r := PrimFloat.sqrt x in
  if PrimFloat.is_nan r && negb (PrimFloat.is_nan x) then None
  else if PrimFloat.is_infinity r && PrimFloat.is_finite x then None
  else Some r.

(** [min_distance = float('inf')]; [distance < min_distance] is the float
    comparison [PrimFloat.ltb]. *)
Definition find_closest_available_location (rk : Rack) (box : Box) (origin_row origin_col : Z)
  : option (option cell) :=
  let? st := py_for (fun st row =>
               py_for (fun (st : option cell * PrimFloat.float) col =>
                 let? ok := can_place_box rk box row col in
                 if ok then
                   let? distance := math_sqrt ((row - origin_row) ^ 2 + (col - origin_col) ^ 2) in
                   if PrimFloat.ltb distance st.2 then Some (Some (row, col), distance) else Some st
                 else Some st)
               (range 0 (cols rk - box_length box + 1)) st)
             (range 0 (rows rk - box_width box + 1)) (None, PrimFloat.infinity) in
  Some st.1.

(** The square of the Euclidean distance from [p] to the origin, the quantity
    whose square root the claims minimise. *)
Definition sq_dist (p : cell) (origin_row origin_col : Z) : Z :=
  (p.1 - origin_row) ^ 2 + (p.2 - origin_col) ^ 2.

(** The anchors the claims quantify over: the [box_width] x [box_length]
    footprint anchored at [(row, col)] lies inside the grid and every cell of
    it is empty. *)
Definition fits (rk : Rack) (box : Box) (row col : Z) : Prop :=
  0 <= row /\ 0 <= col /\ row + box_width box <= rows rk /\ col + box_length box <= cols rk /\
  forall r c, row <= r < row + box_width box -> col <= c < col + box_length box ->
    cell_at (grid rk) r c = Some None.

(** Row-major scan order: [p] is visited strictly before [q]. *)
Definition scan_before (p q : cell) : Prop :=
  p.1 < q.1 \/ (p.1 = q.1 /\ p.2 < q.2).

(** One iteration of the double loop of [find_closest_available_location]
    when neither [can_place_box] nor [math.sqrt] raises. *)
Definition closest_step (rk : Rack) (box : Box) (origin_row origin_col : Z)
    (st : option cell * PrimFloat.float) (p : cell) : option cell * PrimFloat.float :=
  match can_place_box rk box p.1 p.2 with
  | Some true =>
      match math_sqrt ((p.1 - origin_row) ^ 2 + (p.2 - origin_col) ^ 2) with
      | Some distance => if PrimFloat.ltb distance st.2 then (Some p, distance) else st
      | None => st
      end
  | _ => st
  end.

(** Loop invariant of the scan after the anchors [K]: [closest_location] is the
    first anchor of [K] of least Euclidean distance among those where the box
    fits, and [min_distance] the float square root of its squared distance; both
    stay at their initial values when the box fits nowhere in [K]. *)
Definition closest_inv (rk : Rack) (box : Box) (origin_row origin_col : Z)
    (K : list cell) (st : option cell * PrimFloat.float) : Prop :=
  match st.1 with
  | None => st.2 = PrimFloat.infinity /\
            forall q, q ∈ K -> can_place_box rk box q.1 q.2 <> Some true
  | Some p =>
      math_sqrt (sq_dist p origin_row origin_col) = Some st.2 /\ p ∈ K /\
      can_place_box rk box p.1 p.2 = Some true /\
      forall q, q ∈ K -> can_place_box rk box q.1 q.2 = Some true ->
        sq_dist p origin_row origin_col < sq_dist q origin_row origin_col \/
        (sq_dist p origin_row origin_col = sq_dist q origin_row origin_col /\
         (p = q \/ scan_before p q))
  end.

(** [Rack(rows, cols)] *)
Definition new_rack (r c : Z) : Rack :=
  mkRack r c (replicate (Z.to_nat r) (replicate (Z.to_nat c) None)) ∅ ∅ 1 [].

(** [place_box]: the boolean is the Python return value. [box.box_id] is set on
    the caller's object, which is the object stored in [boxes]. *)
Definition place_box (rk : Rack) (box : Box) (start_row start_col : Z) : option (bool * Rack) :=
  let? ok := can_place_box rk box start_row start_col in
  if negb ok then Some (false, rk)
  else
    let bid := next_box_id rk in
    let box' := mkBox (box_length box) (box_width box) (Some bid) in
    let end_row := start_row + box_width box in
    let end_col := start_col + box_length box in
    let? g := py_for (fun g r =>
                py_for (fun g c => set_cell g r c (Some bid)) (range start_col end_col) g)
              (range start_row end_row) (grid rk) in
    Some (true, mkRack (rows rk) (cols rk) g (<[bid := box']> (boxes rk))
                  (<[bid := (start_row, start_col)]> (box_positions rk)) (bid + 1)
                  (box_order rk ++ [bid])).

(** [remove_box]: the boolean is the Python return value. *)
Definition remove_box (rk : Rack) (bid : Z) : option (bool * Rack) :=
  match boxes rk !! bid with
  | None => Some (false, rk)
  | Some box =>
      let? p := box_positions rk !! bid in
      let end_row := p.1 + box_width box in
      let end_col := p.2 + box_length box in
      let? g := py_for (fun g r =>
                  py_for (fun g c => set_cell g r c None) (range p.2 end_col) g)
                (range p.1 end_row) (grid rk) in
      let? order := py_remove bid (box_order rk) in
      Some (true, mkRack (rows rk) (cols rk) g (delete bid (boxes rk))
                    (delete bid (box_positions rk)) (next_box_id rk) order)
  end.

(** [get_lifo_box] / [get_fifo_box]: [None] is Python's [None] for an empty
    [box_order] ([box_order[-1]] and [box_order[0]] cannot raise otherwise). *)
Definition get_lifo_box (rk : Rack) : option Z :=
  match box_order rk with [] => None | _ => py_get (box_order rk) (-1) end.

Definition get_fifo_box (rk : Rack) : option Z :=
  match box_order rk with [] => None | _ => py_get (box_order rk) 0 end.

(** [sum(1 for row in self.grid for cell in row if cell is not None)] *)
Definition get_occupied_cells (rk : Rack) : Z :=
  fold_left (fun count rowl =>
    fold_left (fun count (c : option Z) => match c with None => count | Some _ => count + 1 end) rowl count)
    (grid rk) 0.

(** Cell [(r, c)] lies under a box anchored at [p]. *)
Definition covers (box : Box) (p : cell) (r c : Z) : bool :=
  (p.1 <=? r) && (r <? p.1 + box_width box) && (p.2 <=? c) && (c <? p.2 + box_length box).

(** Consistency of a rack's bookkeeping: [boxes], [box_positions] and
    [box_order] hold the same ids, each once in [box_order]; ids are below
    [next_box_id] and stored in their box; every box lies in the grid; and an
    in-bounds cell holds [bid] exactly when box [bid] covers it (so boxes do not
    overlap). *)
Definition rack_ok (rk : Rack) : Prop :=
  rectangular (grid rk) (rows rk) (cols rk) /\
  (forall bid, is_Some (boxes rk !! bid) <-> is_Some (box_positions rk !! bid)) /\
  NoDup (box_order rk) /\
  (forall bid, bid ∈ box_order rk <-> is_Some (boxes rk !! bid)) /\
  (forall bid box, boxes rk !! bid = Some box -> bid < next_box_id rk /\ box_id box = Some bid) /\
  (forall bid box p, boxes rk !! bid = Some box -> box_positions rk !! bid = Some p ->
     0 <= p.1 /\ 0 <= p.2 /\ p.1 + box_width box <= rows rk /\ p.2 + box_length box <= cols rk) /\
  (forall r c bid, 0 <= r < rows rk -> 0 <= c < cols rk ->
     cell_at (grid rk) r c = Some (Some bid) <->
     exists box p, boxes rk !! bid = Some box /\ box_positions rk !! bid = Some p /\ covers box p r c = true).

End Game.

(** ** Square roots of small integers as binary64 floats

    [sqrt_table 0 n] evaluates, for every [k <= n], [float(k)] and its square
    root [fsq k], and checks that both are finite and that [fsq k < fsq (k + 1)]
    for [k < n]: the float square root is strictly increasing on the integers
    of [[0, sqrt_table_bound]]. *)
Module SqrtTable.

Definition one63 : PrimInt63.int := Eval vm_compute in Uint63Axioms.of_Z 1.

Definition fsq (k : PrimInt63.int) : PrimFloat.float := PrimFloat.sqrt (PrimFloat.of_uint63 k).

Definition table_entry (k : PrimInt63.int) : bool :=
  negb (PrimFloat.is_infinity (PrimFloat.of_uint63 k)) &&
  negb (PrimFloat.is_nan (fsq k)) && negb (PrimFloat.is_infinity (fsq k)).

Fixpoint sqrt_table (k : PrimInt63.int) (fuel : nat) : bool :=
  match fuel with
  | O => table_entry k && PrimFloat.ltb (fsq k) PrimFloat.infinity
  | S f => table_entry k && PrimFloat.ltb (fsq k) (fsq (PrimInt63.add k one63)) &&
           sqrt_table (PrimInt63.add k one63) f
  end.

Definition sqrt_table_bound : Z := 2 ^ 23.

End SqrtTable.

(** ** [game.py]: [Box.to_dict], [Rack.to_dict], their [from_dict] and the JSON save file *)
Module GameSave.

(** The Python values these functions build and read: [int], [None], [str],
    [list], [tuple] and [dict], the last as its [(key, value)] pairs in
    insertion order. *)
Inductive PyVal : Type :=
| PInt (z : Z)
| PNone
| PStr (s : string)
| PList (l : list PyVal)
| PTuple (l : list PyVal)
| PDict (kv : list (PyVal * PyVal)).

(** A traversal that stops at the first exception. *)
Definition py_mapM {A B} (f : A -> option B) : list A -> option (list B) :=
  fix go l := match l with
              | [] => Some []
              | x :: l' => let? y := f x in let? ys := go l' in Some (y :: ys)
              end.

(** [str(z)] of an int: its decimal digits, with a leading ["-"] when negative. *)
Definition py_str (z : Z) : string := DecimalString.NilZero.string_of_int (Z.to_int z).

(** [int(v)]: identity on ints; decimal parsing of a string ([ValueError] =
    [None]); [TypeError] on the other values. *)
Definition py_int (v : PyVal) : option Z :=
  match v with
  | PInt z => Some z
  | PStr s => option_map Z.of_int (DecimalString.NilZero.int_of_string s)
  | _ => None
  end.

(** Key comparison of a dict lookup ([1 == '1'] is false). *)
Definition key_eqb (a b : PyVal) : bool :=
  match a, b with
  | PInt x, PInt y => Z.eqb x y
  | PStr x, PStr y => String.eqb x y
  | PNone, PNone => true
  | _, _ => false
  end.

(** The value stored under [k]; the last pair wins, as when [json.loads]
    meets a repeated key. *)
Definition dict_get (kv : list (PyVal * PyVal)) (k : PyVal) : option PyVal :=
  fold_left (fun acc '(k', v) => if key_eqb k k' then Some v else acc) kv None.

(** [d[k]]: [KeyError] or [TypeError] = [None]. *)
Definition py_getitem (d : PyVal) (k : PyVal) : option PyVal :=
  match d with PDict kv => dict_get kv k | _ => None end.

(** [d.get(k, default)] *)
Definition py_dict_get (d : PyVal) (k dflt : PyVal) : option PyVal :=
  match d with PDict kv => Some (default dflt (dict_get kv k)) | _ => None end.

(** [d.items()] *)
Definition py_items (d : PyVal) : option (list (PyVal * PyVal)) :=
  match d with PDict kv => Some kv | _ => None end.

(** [json.loads(json.dumps(v))] on these values: ints, strings and [None]
    come back unchanged, a tuple comes back as a list, and a dict key is
    turned into a string ([str(k)] for an int, ["null"] for [None]). Any other
    key raises [TypeError]. *)
Definition json_key (k : PyVal) : option PyVal :=
  match k with
  | PStr s => Some (PStr s)
  | PInt z => Some (PStr (py_str z))
  | PNone => Some (PStr "null")
  | _ => None
  end.

Fixpoint json_roundtrip (v : PyVal) : option PyVal :=
  match v with
  | PInt z => Some (PInt z)
  | PNone => Some PNone
  | PStr s => Some (PStr s)
  | PList l => let? l' := py_mapM json_roundtrip l in Some (PList l')
  | PTuple l => let? l' := py_mapM json_roundtrip l in Some (PList l')
  | PDict kv =>
      let? kv' := py_mapM (fun '(k, x) => let? k' := json_key k in
                                          let? y := json_roundtrip x in Some (k', y)) kv in
      Some (PDict kv')
  end.

(** The typed rack of the model holds ints, [None] and lists of them; a value
    of another shape read back by [from_dict] has no counterpart there and
    gives [None]. *)
Definition py_of_opt (v : option Z) : PyVal :=
  match v with Some z => PInt z | None => PNone end.

Definition as_int (v : PyVal) : option Z :=
  match v with PInt z => Some z | _ => None end.

Definition as_opt_int (v : PyVal) : option (option Z) :=
  match v with PInt z => Some (Some z) | PNone => Some None | _ => None end.

(** The elements of an iterated list or tuple. *)
Definition as_list (v : PyVal) : option (list PyVal) :=
  match v with PList l => Some l | PTuple l => Some l | _ => None end.

(** [tuple(v)] read as a [(row, col)] position. *)
Definition as_cell (v : PyVal) : option (Z * Z) :=
  let? l := as_list v in
  match l with
  | [a; b] => let? x := as_int a in let? y := as_int b in Some (x, y)
  | _ => None
  end.

(** A dict comprehension [{k: v for ...}]: later keys overwrite earlier ones. *)
Definition dict_of_pairs {V} (l : list (Z * V)) : gmap Z V :=
  fold_left (fun m kv => <[kv.1 := kv.2]> m) l ∅.

Definition Box_to_dict (b : Game.Box) : PyVal :=
  PDict [(PStr "length", PInt (Game.box_length b)); (PStr "width", PInt (Game.box_width b));
         (PStr "box_id", py_of_opt (Game.box_id b))].

Definition Box_from_dict (data : PyVal) : option Game.Box :=
  let? l := py_getitem data (PStr "length") in
  let? w := py_getitem data (PStr "width") in
  let? i := py_getitem data (PStr "box_id") in
  let? l' := as_int l in let? w' := as_int w in let? i' := as_opt_int i in
  Some (Game.mkBox l' w' i').

(** [Rack.to_dict]; [self.boxes.items()] and [self.box_positions] are
    listed in the map's order, which only matters for the layout of the file. *)
Definition Rack_to_dict (rk : Game.Rack) : PyVal :=
  PDict [(PStr "rows", PInt (Game.rows rk));
         (PStr "cols", PInt (Game.cols rk));
         (PStr "grid", PList (map (fun rowl => PList (map py_of_opt rowl)) (Game.grid rk)));
         (PStr "boxes", PDict (map (fun '(bid, b) => (PInt bid, Box_to_dict b))
                                   (map_to_list (Game.boxes rk))));
         (PStr "box_positions", PDict (map (fun '(bid, (r, c)) => (PInt bid, PTuple [PInt r; PInt c]))
                                           (map_to_list (Game.box_positions rk))));
         (PStr "next_box_id", PInt (Game.next_box_id rk));
         (PStr "box_order", PList (map PInt (Game.box_order rk)))].

Definition Rack_from_dict (data : PyVal) : option Game.Rack :=
  let? rows_v := py_getitem data (PStr "rows") in
  let? cols_v := py_getitem data (PStr "cols") in
  let? r := as_int rows_v in
  let? c := as_int cols_v in
  let? grid_v := py_getitem data (PStr "grid") in
  let? rows_l := as_list grid_v in
  let? g := py_mapM (fun rowv => let? cells := as_list rowv in py_mapM as_opt_int cells) rows_l in
  let? boxes_v := py_getitem data (PStr "boxes") in
  let? box_items := py_items boxes_v in
  let? bl := py_mapM (fun '(k, v) => let? bid := py_int k in
                                     let? b := Box_from_dict v in Some (bid, b)) box_items in
  let? pos_v := py_getitem data (PStr "box_positions") in
  let? pos_items := py_items pos_v in
  let? pl := py_mapM (fun '(k, v) => let? bid := py_int k in
                                     let? p := as_cell v in Some (bid, p)) pos_items in
  let? next_v := py_getitem data (PStr "next_box_id") in
  let? n := as_int next_v in
  let? order_v := py_dict_get data (PStr "box_order") (PList []) in
  let? order_l := as_list order_v in
  let? order := py_mapM as_int order_l in
  Some (Game.mkRack r c g (dict_of_pairs bl) (dict_of_pairs pl) n order).

(** [load_game_state] after [save_game_state], without the file: the rack
    read back from the JSON text of [rack.to_dict()]. *)
Definition save_then_load (rk : Game.Rack) : option Game.Rack :=
  let? data := json_roundtrip (Rack_to_dict rk) in Rack_from_dict data.

End GameSave.

(** ** Priority queue entries of the A* searches *)

(** The heap tuple [(priority, cost, position, path)]. *)
Record entry := mkEntry { prio : Z; cost : Z; pos : cell; epath : list cell }.

#[global] Instance entry_eq_dec : EqDecision entry.
Proof. solve_decision. Defined.

(** Python's tuple / list ordering. *)
Definition lex (c : comparison) (k : comparison) : comparison :=
  match c with Eq => k | _ => c end.

Definition cell_compare (a b : cell) : comparison :=
  lex (Z.compare a.1 b.1) (Z.compare a.2 b.2).

Fixpoint path_compare (p q : list cell) : comparison :=
  match p, q with
  | [], [] => Eq
  | [], _ :: _ => Lt
  | _ :: _, [] => Gt
  | a :: p', b :: q' => lex (cell_compare a b) (path_compare p' q')
  end.

Definition entry_compare (x y : entry) : comparison :=
  lex (Z.compare (prio x) (prio y))
    (lex (Z.compare (cost x) (cost y))
      (lex (cell_compare (pos x) (pos y)) (path_compare (epath x) (epath y)))).

Fixpoint remove_one (x : entry) (l : list entry) : list entry :=
  match l with
  | [] => []
  | y :: l' => if decide (x = y) then l' else y :: remove_one x l'
  end.

(** [heapq.heappop]: the least entry in tuple order leaves the heap. The heap is
    kept as the multiset of its entries; equal entries are equal values, so
    which copy leaves is unobservable. *)
Definition heap_pop (h : list entry) : option (entry * list entry) :=
  match h with
  | [] => None
  | x :: t =>
      let m := fold_left (fun m y => match entry_compare y m with Lt => y | _ => m end) t x in
      Some (m, remove_one m h)
  end.

(** [heapq.heappush] *)
Definition heap_push (h : list entry) (e : entry) : list entry := h ++ [e].

(** ** [src/proto/intial/game.py]: the trolley planner [a_star_pathfinding] *)
Module GamePlanner.

Definition heuristic (a b : cell) : Z := Z.abs (a.1 - b.1) + Z.abs (a.2 - b.2).

(** Heap entries [(f_score, cell)] in Python's tuple order. *)
Definition fc_compare (x y : Z * cell) : comparison :=
  lex (Z.compare x.1 y.1) (cell_compare x.2 y.2).

Fixpoint remove_fc (x : Z * cell) (l : list (Z * cell)) : list (Z * cell) :=
  match l with
  | [] => []
  | y :: l' => if decide (x = y) then l' else y :: remove_fc x l'
  end.

(** [heapq.heappop] *)
Definition fc_pop (h : list (Z * cell)) : option ((Z * cell) * list (Z * cell)) :=
  match h with
  | [] => None
  | x :: t =>
      let m := fold_left (fun m y => match fc_compare y m with Lt => y | _ => m end) t x in
      Some (m, remove_fc m h)
  end.

(** The loop state: [open_list], [came_from], [g_score], [f_score]. *)
Record astate := mkAState {
  open_list : list (Z * cell);
  came_from : gmap cell cell;
  g_score : gmap cell Z;
  f_score : gmap cell Z
}.

(** The four [neighbors] of [current], in the source's order. *)
Definition neighbors (current : cell) : list cell :=
  [(current.1 - 1, current.2); (current.1 + 1, current.2);
   (current.1, current.2 - 1); (current.1, current.2 + 1)].

(** One iteration of [for neighbor in neighbors]; [g_score[current]] raises
    KeyError ([None]) if [current] has no score. *)
Definition relax (rows cols : Z) (goal current : cell) (st : astate) (neighbor : cell) : option astate :=
  if negb (in_bounds rows cols neighbor) then Some st
  else
    let? gc := g_score st !! current in
    let tentative_g := gc + 1 in
    let better := match g_score st !! neighbor with
                  | None => true
                  | Some gn => tentative_g <? gn
                  end in
    if better then
      let f := tentative_g + heuristic neighbor goal in
      Some (mkAState (open_list st ++ [(f, neighbor)])
                     (<[neighbor := current]> (came_from st))
                     (<[neighbor := tentative_g]> (g_score st))
                     (<[neighbor := f]> (f_score st)))
    else Some st.

(** [path = [current]; while current in came_from: current = came_from[current];
    path.append(current)]; [None] only if [fuel] runs out. *)
Fixpoint reconstruct (came : gmap cell cell) (fuel : nat) (current : cell) (path : list cell)
  : option (list cell) :=
  match fuel with
  | O => None
  | S fuel' =>
      match came !! current with
      | None => Some path
      | Some prev => reconstruct came fuel' prev (path ++ [prev])
      end
  end.

(** The [while open_list] loop; [None] is a raised exception or [fuel], a bound
    on the number of iterations of each loop, running out. *)
Fixpoint search (rows cols : Z) (goal : cell) (fuel : nat) (st : astate) : option (list cell) :=
  match fuel with
  | O => None
  | S fuel' =>
      match fc_pop (open_list st) with
      | None => Some []
      | Some ((_, current), open') =>
          if bool_decide (current = goal) then
            let? path := reconstruct (came_from st) fuel current [current] in
            Some (drop 1 (reverse path))
          else
            let? st' := py_for (relax rows cols goal current) (neighbors current)
                          (mkAState open' (came_from st) (g_score st) (f_score st)) in
            search rows cols goal fuel' st'
      end
  end.

(** [a_star_pathfinding(grid, start, goal)], run for at most [fuel] iterations
    of each loop. Only the dimensions of [grid] are read. *)
Definition a_star_pathfinding {A} (fuel : nat) (grid : list (list A)) (start goal : cell)
  : option (list cell) :=
  let rows := Z.of_nat (length grid) in
  let? row0 := py_get grid 0 in
  let cols := Z.of_nat (length row0) in
  search rows cols goal fuel
    (mkAState [(0, start)] ∅ {[start := 0]} {[start := heuristic start goal]}).

End GamePlanner.

(** ** [src/pathfinding.py] *)
Module Path.

Definition calculate_distance (start end_ : cell) : Z :=
  Z.abs (start.1 - end_.1) + Z.abs (start.2 - end_.2).

(** A returned cost: an integer or [float('inf')]. *)
Inductive cost_val := Fin (z : Z) | Inf.

(** Neighbour loop: every in-bounds neighbour is pushed, occupied or not. *)
Definition explore (rk : Rack) (end_ : cell) (e : entry) (open_set : list entry) : list entry :=
  fold_left (fun h d =>
    let neighbor := ((pos e).1 + d.1, (pos e).2 + d.2) in
    if in_bounds (rows rk) (cols rk) neighbor then
      let new_cost := cost e + 1 in
      heap_push h (mkEntry (new_cost + calculate_distance neighbor end_) new_cost neighbor
                           (epath e ++ [neighbor]))
    else h) directions open_set.

(** The [while open_set] loop; [None] only if the fuel runs out. *)
Fixpoint a_star_loop (rk : Rack) (end_ : cell) (fuel : nat)
    (open_set : list entry) (visited : list cell) : option (list cell * cost_val) :=
  match fuel with
  | O => None
  | S fuel' =>
      match heap_pop open_set with
      | None => Some ([], Inf)
      | Some (e, open_set') =>
          if bool_decide (pos e = end_) then Some (epath e, Fin (cost e))
          else if bool_decide (pos e ∈ visited) then a_star_loop rk end_ fuel' open_set' visited
          else a_star_loop rk end_ fuel' (explore rk end_ e open_set') (pos e :: visited)
      end
  end.

Definition a_star_path (start end_ : cell) (rk : Rack) : option (list cell * cost_val) :=
  a_star_loop rk end_ (search_fuel (rows rk) (cols rk))
    [mkEntry (0 + calculate_distance start end_) 0 start [start]] [].

End Path.

(** ** [src/A_star.py] *)
Module AStar.

Definition heuristic (p goal : cell) : Z := Z.abs (p.1 - goal.1) + Z.abs (p.2 - goal.2).

(** Neighbour loop: out-of-bounds, ['X'] and visited neighbours are skipped. *)
Definition expand (grid : list (list string)) (rows cols : Z) (goal : cell) (e : entry)
    (visited : list cell) (open_set : list entry) : option (list entry) :=
  py_for (fun h d =>
    let neighbor := ((pos e).1 + d.1, (pos e).2 + d.2) in
    if negb (in_bounds rows cols neighbor) then Some h
    else
      let? v := cell_at grid neighbor.1 neighbor.2 in
      if String.eqb v "X" then Some h
      else if bool_decide (neighbor ∈ visited) then Some h
      else
        let new_cost := cost e + 1 in
        Some (heap_push h (mkEntry (new_cost + heuristic neighbor goal) new_cost neighbor
                                   (epath e ++ [neighbor]))))
    directions open_set.

(** The [while open_set] loop; [Some None] is the Python [None] (no path), the
    outer [None] a raised IndexError or the fuel running out. *)
Fixpoint search (grid : list (list string)) (rows cols : Z) (goal : cell) (fuel : nat)
    (open_set : list entry) (visited : list cell) : option (option (list cell)) :=
  match fuel with
  | O => None
  | S fuel' =>
      match heap_pop open_set with
      | None => Some None
      | Some (e, open_set') =>
          if bool_decide (pos e ∈ visited) then search grid rows cols goal fuel' open_set' visited
          else
            let visited' := pos e :: visited in
            if bool_decide (pos e = goal) then Some (Some (epath e))
            else
              let? open_set'' := expand grid rows cols goal e visited' open_set' in
              search grid rows cols goal fuel' open_set'' visited'
      end
  end.

Definition a_star_pathfinding (grid : list (list string)) (start goal : cell)
  : option (option (list cell)) :=
  let rows := Z.of_nat (length grid) in
  let? row0 := py_get grid 0 in
  let cols := Z.of_nat (length row0) in
  search grid rows cols goal (search_fuel rows cols) [mkEntry 0 0 start [start]] [].

End AStar.

(** ** Footprints *)

(** Cell [(i, j)] lies in the [size x size] footprint anchored at [(row, col)]. *)
Definition in_rect (row col size i j : Z) : bool :=
  (row <=? i) && (i <? row + size) && (col <=? j) && (j <? col + size).

(** The grid with every cell selected by [P] set to [x]: the net effect of a
    nested [for r ...: for c ...: grid[r][c] = x] loop. *)
Definition upd_grid {A} (P : Z -> Z -> bool) (x : A) (g : list (list A)) : list (list A) :=
  imap (fun i rowl => imap (fun j v => if P (Z.of_nat i) (Z.of_nat j) then x else v) rowl) g.

(** The cells of the [h x w] rectangle anchored at [(r0, c0)]. *)
Definition rect (r0 c0 h w i j : Z) : bool :=
  (r0 <=? i) && (i <? r0 + h) && (c0 <=? j) && (j <? c0 + w).

(** Occupied cells of a row and of a grid, counted one by one as
    [get_occupied_cells] does. *)
Definition occupied (v : option Z) : Z := match v with Some _ => 1 | None => 0 end.

Fixpoint occ_row (l : list (option Z)) : Z :=
  match l with [] => 0 | v :: l' => occupied v + occ_row l' end.

Fixpoint occ_grid (g : list (list (option Z))) : Z :=
  match g with [] => 0 | rowl :: g' => occ_row rowl + occ_grid g' end.

(** ** Walks on the grid *)

(** [walk adj x l]: [l] lists the cells after [x] of a walk whose consecutive
    cells are related by [adj]; [walk_end x l] is its last cell. A walk of
    [length l] steps. *)
Fixpoint walk (adj : cell -> cell -> Prop) (x : cell) (l : list cell) : Prop :=
  match l with
  | [] => True
  | y :: l' => adj x y /\ walk adj y l'
  end.

Fixpoint walk_end (x : cell) (l : list cell) : cell :=
  match l with
  | [] => x
  | y :: l' => walk_end y l'
  end.

Definition manhattan (p q : cell) : Z := Z.abs (p.1 - q.1) + Z.abs (p.2 - q.2).

(** 4-directional moves inside a [rows x cols] grid. *)
Definition grid_adj (rows cols : Z) (u w : cell) : Prop :=
  in_bounds rows cols w = true /\ manhattan u w = 1.

(** 4-directional moves onto free (not ['X']) cells of an obstacle grid. *)
Definition free_adj (grid : list (list string)) (rows cols : Z) (u w : cell) : Prop :=
  grid_adj rows cols u w /\
  exists v, cell_at grid w.1 w.2 = Some v /\ String.eqb v "X" = false.

(** The cells of a [rows x cols] grid, row by row. *)
Definition all_cells (rows cols : Z) : list cell :=
  flat_map (fun r => map (fun c => (r, c)) (range 0 cols)) (range 0 rows).

(** ** The frontier invariant of a best-first search

    A search pops from a collection of entries with a position, a cost and a
    key ([priority] for A*, [dist] for BFS), and closes positions in
    [visited]. With a heuristic [h]: the start is closed or has an entry of key
    at most [h start]; every move out of a closed cell reached by a walk of
    [n] steps leads to a closed cell or to one with an entry of key at most
    [n + 1 + h]; each key is cost plus heuristic, except for cost-0 entries. *)
Section Frontier.
Context {E : Type}.
Variables (epos : E -> cell) (ecost ekey : E -> Z) (adj : cell -> cell -> Prop)
          (h : cell -> Z) (start : cell).

Definition frontier_inv (heap : list E) (visited : list cell) : Prop :=
  (start ∉ visited -> exists e, e ∈ heap /\ epos e = start /\ ekey e <= h start) /\
  (forall v l w, v ∈ visited -> walk adj start l -> walk_end start l = v -> adj v w ->
     w ∈ visited \/
     exists e, e ∈ heap /\ epos e = w /\ ekey e <= Z.of_nat (length l) + 1 + h w) /\
  (forall e, e ∈ heap -> ekey e = ecost e + h (epos e) \/ ecost e = 0).

End Frontier.

(** ** Breadth-first visiting order

    The order in which a breadth-first expansion from a queue of cells visits
    the cells of a [rows x cols] grid: a cell is visited when it leaves the
    queue for the first time, and then its in-bounds neighbours up, down, left,
    right join the back of the queue. *)
Fixpoint bfs_visit_order (rows cols : Z) (fuel : nat) (queue visited : list cell) : list cell :=
  match fuel with
  | O => []
  | S fuel' =>
      match queue with
      | [] => []
      | p :: queue' =>
          if bool_decide (p ∈ visited) then bfs_visit_order rows cols fuel' queue' visited
          else p :: bfs_visit_order rows cols fuel'
                      (queue' ++ filter (fun q => in_bounds rows cols q = true)
                                        (map (fun d => (p.1 + d.1, p.2 + d.2)) directions))
                      (p :: visited)
      end
  end.

(** The [size x size] footprint anchored at [(row, col)] lies inside the rack
    and all of its cells are empty. *)
Definition slot_fits (rk : Rack) (size row col : Z) : Prop :=
  0 <= row /\ 0 <= col /\ row + size <= rows rk /\ col + size <= cols rk /\
  forall r c, row <= r < row + size -> col <= c < col + size -> cell_at (grid rk) r c = Some None.

(** An anchor the zone allocator of [core.py] may return for a size whose zone
    spans the rows [zs..ze]: a row of the zone, a column of the grid, a free
    footprint inside the rack, and every footprint row inside the zone. *)
Definition zone_slot (rk : Rack) (size zs ze r c : Z) : Prop :=
  zs <= r <= ze /\ 0 <= c < cols rk /\ slot_fits rk size r c /\
  (forall i, r <= i < r + size -> zs <= i <= ze).

(** The cell and the distance of a [(row, col, dist)] queue entry of [bfs_loop]. *)
Definition qpos (e : Z * Z * Z) : cell := (e.1.1, e.1.2).
Definition qdist (e : Z * Z * Z) : Z := e.2.

(** The loop invariant of [GamePlanner.search] for a [rows x cols] grid: [g_score[start]]
    is 0 and all scores are non-negative; [came_from] links are in-bounds
    4-neighbour moves that strictly increase the score and never leave
    [start]; every scored cell other than [start] has a link; every heap entry
    [(f, c)] has [g_score[c] + h(c) <= f] (the first push [(0, start)] apart);
    a scored [goal] has a heap entry. *)
Definition planner_inv (rows cols : Z) (start goal : cell) (st : GamePlanner.astate) : Prop :=
  GamePlanner.g_score st !! start = Some 0 /\
  (forall c v, GamePlanner.g_score st !! c = Some v -> 0 <= v) /\
  GamePlanner.came_from st !! start = None /\
  (forall n p, GamePlanner.came_from st !! n = Some p -> grid_adj rows cols p n /\
     exists gp gn, GamePlanner.g_score st !! p = Some gp /\ GamePlanner.g_score st !! n = Some gn /\ gp + 1 <= gn) /\
  (forall c, is_Some (GamePlanner.g_score st !! c) -> c = start \/ is_Some (GamePlanner.came_from st !! c)) /\
  (forall f c, (f, c) ∈ GamePlanner.open_list st -> exists gc, GamePlanner.g_score st !! c = Some gc /\
     (gc + GamePlanner.heuristic c goal <= f \/ (c = start /\ f = 0))) /\
  (is_Some (GamePlanner.g_score st !! goal) -> exists f, (f, goal) ∈ GamePlanner.open_list st).

(** A scored cell [c] still has a heap entry no worse than its score, or all
    of its in-bounds neighbours are scored at most one more. *)
Definition planner_settled (rows cols : Z) (goal : cell) (st : GamePlanner.astate) (c : cell) : Prop :=
  forall gc, GamePlanner.g_score st !! c = Some gc ->
  (exists f, (f, c) ∈ GamePlanner.open_list st /\ f <= gc + GamePlanner.heuristic c goal) \/
  (forall n, grid_adj rows cols c n -> exists gn, GamePlanner.g_score st !! n = Some gn /\ gn <= gc + 1).

(** * Proofs *)

(** ** Python helpers *)
Lemma elem_of_range (x a b : Z) : x ∈ range a b <-> a <= x < b.
Proof.
  unfold range. rewrite list_elem_of_In, in_map_iff. split.
  - intros (k & <- & Hk). apply in_seq in Hk. lia.
  - intros Hx. exists (Z.to_nat (x - a)). rewrite in_seq. lia.
Qed.

Lemma existsb_range (x a b : Z) : existsb (Z.eqb x) (range a b) = (a <=? x) && (x <? b).
Proof.
  apply eq_true_iff_eq. rewrite existsb_exists, andb_true_iff, Z.leb_le, Z.ltb_lt.
  rewrite <- elem_of_range, list_elem_of_In. split.
  - intros (y & Hy & ->%Z.eqb_eq). exact Hy.
  - intros Hx. exists x. split; [exact Hx | apply Z.eqb_refl].
Qed.

Lemma py_get_nonneg {A} (l : list A) (i : Z) : 0 <= i -> py_get l i = l !! Z.to_nat i.
Proof.
  intros Hi. unfold py_get, py_index.
  destruct (Z.ltb_spec i (- Z.of_nat (length l))); [lia|].
  destruct (Z.leb_spec (Z.of_nat (length l)) i); simpl.
  - symmetry. apply lookup_ge_None_2. lia.
  - destruct (Z.ltb_spec i 0); [lia|]. reflexivity.
Qed.

Lemma py_set_in {A} (l : list A) (i : Z) (x : A) :
  0 <= i < Z.of_nat (length l) -> py_set l i x = Some (<[Z.to_nat i := x]> l).
Proof.
  intros Hi. unfold py_set, py_index.
  destruct (Z.ltb_spec i (- Z.of_nat (length l))); [lia|].
  destruct (Z.leb_spec (Z.of_nat (length l)) i); [lia|].
  destruct (Z.ltb_spec i 0); [lia|]. reflexivity.
Qed.

Lemma py_set_ge {A} (l : list A) (i : Z) (x : A) :
  Z.of_nat (length l) <= i -> py_set l i x = None.
Proof.
  intros Hi. unfold py_set, py_index.
  destruct (Z.leb_spec (Z.of_nat (length l)) i); [|lia].
  rewrite orb_true_r. reflexivity.
Qed.

Lemma cell_at_nonneg {A} (g : list (list A)) (r c : Z) :
  0 <= r -> 0 <= c -> cell_at g r c = g !! Z.to_nat r ≫= fun rowl => rowl !! Z.to_nat c.
Proof.
  intros Hr Hc. unfold cell_at. rewrite py_get_nonneg by exact Hr.
  destruct (g !! Z.to_nat r); simpl; [apply py_get_nonneg|]; auto.
Qed.

Lemma py_all_true {B} (p : B -> option bool) (l : list B) :
  py_all p l = Some true <-> forall x, x ∈ l -> p x = Some true.
Proof.
  induction l as [|x l IH]; simpl.
  - split; [intros _ y Hy; inversion Hy | reflexivity].
  - destruct (p x) as [[|]|] eqn:Hpx.
    + rewrite IH. split.
      * intros H y Hy. apply elem_of_cons in Hy as [->|Hy]; auto.
      * intros H y Hy. apply H. by apply elem_of_cons; right.
    + split; [discriminate|]. intros H. rewrite H in Hpx; [discriminate|left].
    + split; [discriminate|]. intros H. rewrite H in Hpx; [discriminate|left].
Qed.

(** A loop whose every step keeps [P] and fails at one element fails. *)
Lemma py_for_none {A B} (P : A -> Prop) (f : A -> B -> option A) (l : list B) (a : A) :
  (forall a x a', P a -> f a x = Some a' -> P a') ->
  (exists x, x ∈ l /\ forall a, P a -> f a x = None) ->
  P a -> py_for f l a = None.
Proof.
  intros Hstep Hbad. revert a. induction l as [|y l IH]; intros a Ha; simpl.
  - destruct Hbad as (x & Hx & _). inversion Hx.
  - destruct (f a y) as [a'|] eqn:Hf; [|reflexivity].
    destruct Hbad as (x & Hx & Hnone). apply elem_of_cons in Hx as [->|Hx].
    + rewrite Hnone in Hf by exact Ha. discriminate.
    + apply IH; [exists x; auto | eapply Hstep; eauto].
Qed.

Lemma py_search_some {B C} (f : B -> option (option C)) (l : list B) (y : C) :
  py_search f l = Some (Some y) -> exists x, x ∈ l /\ f x = Some (Some y).
Proof.
  induction l as [|x l IH]; simpl; [discriminate|].
  destruct (f x) as [[z|]|] eqn:Hf; try discriminate.
  - intros [= <-]. exists x. split; [left | exact Hf].
  - intros H. destruct (IH H) as (x' & Hx' & Hf'). exists x'. split; [right|]; auto.
Qed.


(** ** Cell-wise grid updates *)
Section GridFacts.
Context {A : Type}.
Implicit Types (g : list (list A)) (P Q : Z -> Z -> bool).

Lemma lookup_upd_grid P x g i j :
  (upd_grid P x g !! i) ≫= (fun rowl => rowl !! j) =
  (fun v => if P (Z.of_nat i) (Z.of_nat j) then x else v) <$> ((g !! i) ≫= fun rowl => rowl !! j).
Proof.
  unfold upd_grid. rewrite list_lookup_imap. destruct (g !! i) as [rowl|]; simpl; [|done].
  rewrite list_lookup_imap. done.
Qed.

Lemma upd_grid_eq g1 g2 :
  length g1 = length g2 ->
  (forall i, length <$> g1 !! i = length <$> g2 !! i) ->
  (forall i j, (g1 !! i) ≫= (fun rowl => rowl !! j) = (g2 !! i) ≫= (fun rowl => rowl !! j)) ->
  g1 = g2.
Proof.
  intros Hlen Hrow Hcell. apply list_eq. intros i. specialize (Hrow i).
  destruct (g1 !! i) as [r1|] eqn:E1, (g2 !! i) as [r2|] eqn:E2; simpl in Hrow; try done.
  f_equal. apply list_eq. intros j. specialize (Hcell i j). rewrite E1, E2 in Hcell. exact Hcell.
Qed.

Lemma length_upd_grid P x g : length (upd_grid P x g) = length g.
Proof. apply length_imap. Qed.

Lemma row_length_upd_grid P x g i :
  length <$> upd_grid P x g !! i = length <$> g !! i.
Proof.
  unfold upd_grid. rewrite list_lookup_imap. destruct (g !! i); simpl; [|done].
  by rewrite length_imap.
Qed.

Lemma upd_grid_ext P Q x g :
  (forall i j, P i j = Q i j) -> upd_grid P x g = upd_grid Q x g.
Proof.
  intros HPQ. apply upd_grid_eq.
  - by rewrite !length_upd_grid.
  - intros i. by rewrite !row_length_upd_grid.
  - intros i j. rewrite !lookup_upd_grid, HPQ. done.
Qed.

Lemma upd_grid_upd_grid P Q x y g :
  upd_grid Q y (upd_grid P x g) =
  imap (fun i rowl => imap (fun j v =>
    if Q (Z.of_nat i) (Z.of_nat j) then y
    else if P (Z.of_nat i) (Z.of_nat j) then x else v) rowl) g.
Proof.
  apply upd_grid_eq.
  - by rewrite !length_upd_grid, length_imap.
  - intros i. rewrite !row_length_upd_grid. rewrite list_lookup_imap.
    destruct (g !! i); simpl; [|done]. by rewrite length_imap.
  - intros i j. rewrite !lookup_upd_grid. rewrite list_lookup_imap.
    destruct (g !! i) as [rowl|]; simpl; [|done]. rewrite list_lookup_imap.
    destruct (rowl !! j); done.
Qed.

Lemma upd_grid_merge P Q x g :
  upd_grid Q x (upd_grid P x g) = upd_grid (fun i j => P i j || Q i j) x g.
Proof.
  apply upd_grid_eq.
  - by rewrite !length_upd_grid.
  - intros i. by rewrite !row_length_upd_grid.
  - intros i j. rewrite !lookup_upd_grid.
    destruct ((g !! i) ≫= _); simpl; [|done].
    destruct (P _ _), (Q _ _); done.
Qed.

Lemma upd_grid_twice P x y g : upd_grid P y (upd_grid P x g) = upd_grid P y g.
Proof.
  apply upd_grid_eq.
  - by rewrite !length_upd_grid.
  - intros i. by rewrite !row_length_upd_grid.
  - intros i j. rewrite !lookup_upd_grid.
    destruct ((g !! i) ≫= _); simpl; [|done]. destruct (P _ _); done.
Qed.

Lemma upd_grid_noop P x g :
  (forall i j v, P (Z.of_nat i) (Z.of_nat j) = true ->
     (g !! i) ≫= (fun rowl => rowl !! j) = Some v -> v = x) ->
  upd_grid P x g = g.
Proof.
  intros Hsame. apply upd_grid_eq.
  - by rewrite !length_upd_grid.
  - intros i. by rewrite !row_length_upd_grid.
  - intros i j. rewrite !lookup_upd_grid.
    destruct ((g !! i) ≫= _) as [v|] eqn:E; simpl; [|done].
    destruct (P _ _) eqn:HP; [|done]. rewrite (Hsame i j v HP E). done.
Qed.

Lemma upd_grid_false x g : upd_grid (fun _ _ => false) x g = g.
Proof. apply upd_grid_noop. discriminate. Qed.

Lemma rectangular_upd_grid P x g rows cols :
  rectangular g rows cols -> rectangular (upd_grid P x g) rows cols.
Proof.
  intros [Hl Hr]. split; [by rewrite length_upd_grid|].
  apply Forall_lookup. intros i rowl Hi.
  pose proof (row_length_upd_grid P x g i) as E. rewrite Hi in E.
  destruct (g !! i) as [rowl0|] eqn:Hg; simpl in E; [|done].
  injection E as E. rewrite E. eapply Forall_lookup_1 in Hr; [|exact Hg]. exact Hr.
Qed.

Lemma cell_at_upd_grid P x g r c :
  0 <= r -> 0 <= c ->
  cell_at (upd_grid P x g) r c = (fun v => if P r c then x else v) <$> cell_at g r c.
Proof.
  intros Hr Hc. rewrite !cell_at_nonneg by done. rewrite lookup_upd_grid.
  rewrite !Z2Nat.id by done. done.
Qed.

(** [grid[r][c] = x] on an in-bounds cell of a rectangular grid. *)
Lemma set_cell_in g rows cols r c x :
  rectangular g rows cols -> 0 <= r < rows -> 0 <= c < cols ->
  set_cell g r c x = Some (upd_grid (fun i j => (i =? r) && (j =? c)) x g).
Proof.
  intros [Hl Hf] Hr Hc. unfold set_cell.
  rewrite py_get_nonneg by lia.
  destruct (g !! Z.to_nat r) as [rowl|] eqn:Hrow.
  2:{ apply lookup_ge_None in Hrow. lia. }
  assert (Hrl : Z.of_nat (length rowl) = cols)
    by exact (Forall_lookup_1 (fun rowl => Z.of_nat (length rowl) = cols) g _ _ Hf Hrow).
  simpl. rewrite py_set_in by lia. simpl. rewrite py_set_in by lia. f_equal.
  apply upd_grid_eq.
  - by rewrite length_insert, length_upd_grid.
  - intros i. rewrite row_length_upd_grid.
    destruct (decide (i = Z.to_nat r)) as [->|Hi].
    + rewrite list_lookup_insert_eq by lia. rewrite Hrow. simpl. by rewrite length_insert.
    + by rewrite list_lookup_insert_ne by congruence.
  - intros i j. rewrite lookup_upd_grid.
    destruct (decide (i = Z.to_nat r)) as [->|Hi].
    + rewrite list_lookup_insert_eq by lia. rewrite Hrow. simpl.
      rewrite Z2Nat.id, Z.eqb_refl by lia. simpl.
      destruct (decide (j = Z.to_nat c)) as [->|Hj].
      * rewrite list_lookup_insert_eq by lia. rewrite Z2Nat.id, Z.eqb_refl by lia.
        destruct (rowl !! Z.to_nat c) eqn:E; [done|]. apply lookup_ge_None in E. lia.
      * rewrite list_lookup_insert_ne by congruence.
        destruct (Z.eqb_spec (Z.of_nat j) c); [lia|]. by destruct (rowl !! j).
    + rewrite list_lookup_insert_ne by congruence.
      destruct (Z.eqb_spec (Z.of_nat i) r); [lia|]. simpl.
      by destruct ((g !! i) ≫= _).
Qed.

End GridFacts.

(** ** The footprint loops of [place_box] / [remove_box] *)
Section Footprint.
Context {A : Type}.
Implicit Types (g : list (list A)).

Lemma fill_row g rows cols r (x : A) cs :
  rectangular g rows cols -> 0 <= r < rows -> (forall c, c ∈ cs -> 0 <= c < cols) ->
  py_for (fun g c => set_cell g r c x) cs g =
  Some (upd_grid (fun i j => (i =? r) && existsb (Z.eqb j) cs) x g).
Proof.
  revert g. induction cs as [|c cs IH]; intros g Hg Hr Hcs; simpl.
  - rewrite (upd_grid_ext _ (fun _ _ => false)), upd_grid_false; [done|].
    intros i j. apply andb_false_r.
  - rewrite (set_cell_in g rows cols) by (auto; apply Hcs; left). simpl.
    rewrite IH; [|by apply rectangular_upd_grid|done|by intros c' ?; apply Hcs; right].
    rewrite upd_grid_merge. f_equal. apply upd_grid_ext. intros i j.
    by destruct (i =? r), (j =? c), (existsb _ cs).
Qed.

Lemma fill_rows g rows cols (x : A) rs cs :
  rectangular g rows cols -> (forall r, r ∈ rs -> 0 <= r < rows) ->
  (forall c, c ∈ cs -> 0 <= c < cols) ->
  py_for (fun g r => py_for (fun g c => set_cell g r c x) cs g) rs g =
  Some (upd_grid (fun i j => existsb (Z.eqb i) rs && existsb (Z.eqb j) cs) x g).
Proof.
  revert g. induction rs as [|r rs IH]; intros g Hg Hrs Hcs; simpl.
  - by rewrite upd_grid_false.
  - rewrite (fill_row g rows cols) by (auto; apply Hrs; left). simpl.
    rewrite IH; [|by apply rectangular_upd_grid|by intros r' ?; apply Hrs; right|done].
    rewrite upd_grid_merge. f_equal. apply upd_grid_ext. intros i j.
    by destruct (i =? r), (existsb _ rs), (existsb _ cs).
Qed.

(** The nested footprint loop sets exactly the footprint, when it lies in the grid. *)
Lemma fill_footprint g rows cols row col size (x : A) :
  rectangular g rows cols -> 0 <= row -> row + size <= rows -> 0 <= col -> col + size <= cols ->
  py_for (fun g r => py_for (fun g c => set_cell g r c x) (range col (col + size)) g)
         (range row (row + size)) g =
  Some (upd_grid (in_rect row col size) x g).
Proof.
  intros Hg Hrow1 Hrow2 Hcol1 Hcol2.
  rewrite (fill_rows g rows cols).
  - f_equal. apply upd_grid_ext. intros i j. rewrite !existsb_range. unfold in_rect.
    by rewrite !andb_assoc.
  - exact Hg.
  - intros r Hr%elem_of_range. lia.
  - intros c Hc%elem_of_range. lia.
Qed.

Lemma set_cell_rect g g' rows cols r c (x : A) :
  rectangular g rows cols -> set_cell g r c x = Some g' -> rectangular g' rows cols.
Proof.
  intros [Hl Hf]. unfold set_cell, py_get, py_set.
  destruct (py_index (length g) r) as [k|]; simpl; [|discriminate].
  destruct (g !! k) as [rowl|] eqn:Hk; simpl; [|discriminate].
  destruct (py_index (length rowl) c) as [kc|]; simpl; [|discriminate].
  intros [= <-]. split; [by rewrite length_insert|].
  apply Forall_insert; [done|]. rewrite length_insert.
  exact (Forall_lookup_1 (fun rowl => Z.of_nat (length rowl) = cols) g _ _ Hf Hk).
Qed.

Lemma fill_row_rect g g' rows cols r (x : A) cs :
  rectangular g rows cols ->
  py_for (fun g c => set_cell g r c x) cs g = Some g' -> rectangular g' rows cols.
Proof.
  revert g. induction cs as [|c cs IH]; intros g Hg; simpl; [congruence|].
  destruct (set_cell g r c x) as [g1|] eqn:Hset; simpl; [|discriminate].
  apply IH. eapply set_cell_rect; eauto.
Qed.

(** A footprint running past the last row or column raises IndexError. *)
Lemma fill_footprint_oob g rows cols row col size (x : A) :
  rectangular g rows cols -> 0 <= row -> 0 <= col -> 0 < size ->
  (rows < row + size \/ cols < col + size) ->
  py_for (fun g r => py_for (fun g c => set_cell g r c x) (range col (col + size)) g)
         (range row (row + size)) g = None.
Proof.
  intros Hg Hrow Hcol Hsize Hout.
  apply (py_for_none (fun g => rectangular g rows cols)); [|clear Hg|exact Hg].
  { intros g0 r g1 Hg0 Hrun. eapply fill_row_rect; eauto. }
  destruct (Z.ltb_spec rows (row + size)) as [Hr|Hr].
  - exists (Z.max row rows). split; [apply elem_of_range; lia|].
    intros g0 Hg0. apply (py_for_none (fun g => rectangular g rows cols)); [|clear Hg0|exact Hg0].
    { intros g1 c g2 Hg1 Hset. eapply set_cell_rect; eauto. }
    exists col. split; [apply elem_of_range; lia|].
    intros g1 [Hl _]. unfold set_cell. rewrite py_get_nonneg by lia.
    rewrite lookup_ge_None_2 by lia. done.
  - exists row. split; [apply elem_of_range; lia|].
    intros g0 Hg0. apply (py_for_none (fun g => rectangular g rows cols)); [|clear Hg0|exact Hg0].
    { intros g1 c g2 Hg1 Hset. eapply set_cell_rect; eauto. }
    exists (Z.max col cols). split; [apply elem_of_range; lia|].
    intros g1 [Hl Hf]. unfold set_cell. rewrite py_get_nonneg by lia.
    destruct (g1 !! Z.to_nat row) as [rowl|] eqn:Hk; simpl; [|done].
    pose proof (Forall_lookup_1 (fun rowl => Z.of_nat (length rowl) = cols) g1 _ _ Hf Hk) as Hrl.
    simpl in Hrl. rewrite py_set_ge by lia. done.
Qed.

End Footprint.

Lemma cell_at_rect {A} (g : list (list A)) rows cols r c :
  rectangular g rows cols -> 0 <= r < rows -> 0 <= c < cols -> exists v, cell_at g r c = Some v.
Proof.
  intros [Hl Hf] Hr Hc. rewrite cell_at_nonneg by lia.
  destruct (g !! Z.to_nat r) as [rowl|] eqn:Hk.
  2:{ apply lookup_ge_None in Hk. lia. }
  pose proof (Forall_lookup_1 (fun rowl => Z.of_nat (length rowl) = cols) g _ _ Hf Hk) as Hrl.
  simpl in *. destruct (rowl !! Z.to_nat c) as [v|] eqn:Hv; [by exists v|].
  apply lookup_ge_None in Hv. lia.
Qed.

Lemma cell_at_upd_grid_in {A} (g : list (list A)) rows cols P x r c :
  rectangular g rows cols -> 0 <= r < rows -> 0 <= c < cols ->
  cell_at (upd_grid P x g) r c = if P r c then Some x else cell_at g r c.
Proof.
  intros Hg Hr Hc. destruct (cell_at_rect g rows cols r c Hg Hr Hc) as [v Hv].
  rewrite cell_at_upd_grid by lia. rewrite Hv. simpl. by destruct (P r c).
Qed.

(** ** [core.py]: placement and removal *)
Module CoreFacts.

Lemma place_box_in (rk : Rack) t row col size :
  rectangular (grid rk) (rows rk) (cols rk) ->
  0 <= row -> row + size <= rows rk -> 0 <= col -> col + size <= cols rk ->
  Core.place_box rk t row col size =
  Some (mkRack (rows rk) (cols rk) (upd_grid (in_rect row col size) (Some t) (grid rk))
               (<[t := (row, col, size)]> (box_locations rk))).
Proof.
  intros Hg ????. unfold Core.place_box.
  rewrite (fill_footprint (grid rk) (rows rk) (cols rk)) by done. reflexivity.
Qed.

Lemma remove_box_in (rk : Rack) t row col size :
  box_locations rk !! t = Some (row, col, size) ->
  rectangular (grid rk) (rows rk) (cols rk) ->
  0 <= row -> row + size <= rows rk -> 0 <= col -> col + size <= cols rk ->
  Core.remove_box rk t =
  Some (true, mkRack (rows rk) (cols rk) (upd_grid (in_rect row col size) None (grid rk))
                     (delete t (box_locations rk))).
Proof.
  intros Hloc Hg ????. unfold Core.remove_box. rewrite Hloc.
  rewrite (fill_footprint (grid rk) (rows rk) (cols rk)) by done. reflexivity.
Qed.

Lemma found_zone_true size r zs :
  Core.found_zone size r zs = Some true ->
  exists rg, Core.zone_lookup size Core.MODEL_ZONES = Some rg /\ Core.in_range rg r = true.
Proof.
  induction zs as [|[k rg] zs IH]; cbn [Core.found_zone]; [discriminate|].
  destruct (Core.in_range rg r); [|exact IH].
  destruct (Core.zone_lookup size Core.MODEL_ZONES) as [own|]; [|intros H; discriminate H].
  destruct (Core.in_range own r) eqn:Hown; [|exact IH].
  intros _. by exists own.
Qed.

Lemma can_fit_true (rk : Rack) row col size :
  Core._can_fit rk row col size = Some true ->
  row + size <= rows rk /\ col + size <= cols rk /\
  (forall i, row <= i < row + size ->
     exists rg, Core.zone_lookup size Core.MODEL_ZONES = Some rg /\ Core.in_range rg i = true) /\
  (forall i j, in_rect row col size i j = true -> cell_at (grid rk) i j = Some None).
Proof.
  unfold Core._can_fit.
  destruct (Z.ltb_spec (rows rk) (row + size)), (Z.ltb_spec (cols rk) (col + size));
    simpl; try discriminate.
  destruct (py_all _ (range row (row + size))) as [[|]|] eqn:Hz; simpl; try discriminate.
  intros Hfree. rewrite py_all_true in Hz, Hfree.
  split; [lia|]. split; [lia|]. split.
  - intros i Hi. apply (found_zone_true size i Core.MODEL_ZONES). apply (Hz i). apply elem_of_range. exact Hi.
  - intros i j Hij. unfold in_rect in Hij. rewrite !andb_true_iff, !Z.leb_le, !Z.ltb_lt in Hij.
    destruct Hij as [[[Hi1 Hi2] Hj1] Hj2].
    assert (Hrow : py_all (fun c => let? v := cell_at (grid rk) i c in Some (bool_decide (v = None)))
                     (range col (col + size)) = Some true).
    { apply Hfree. apply elem_of_range. lia. }
    rewrite py_all_true in Hrow. specialize (Hrow j (proj2 (elem_of_range j col (col + size)) ltac:(lia))).
    destruct (cell_at (grid rk) i j) as [v|]; simpl in Hrow; [|discriminate].
    injection Hrow as Hrow. apply bool_decide_eq_true in Hrow. by subst.
Qed.

End CoreFacts.

(** * Claims about the occupancy grid and the zone allocator ([core.py]) *)

(** C3 (counterexample): [place_box] does not refuse a footprint overlapping an
    occupied cell; a second overlapping placement succeeds and takes the cell. *)
Lemma place_box_overlap_succeeds :
  exists rk1 rk2,
    Core.place_box (new_rack 1 1) 1 0 0 1 = Some rk1 /\
    Core.place_box rk1 2 0 0 1 = Some rk2 /\
    cell_at (grid rk1) 0 0 = Some (Some 1) /\
    cell_at (grid rk2) 0 0 = Some (Some 2).
Proof. do 2 eexists. repeat split; reflexivity. Qed.

(** C3 (amended): [core.py]'s [place_box] checks nothing. For a footprint inside
    a rectangular grid it sets exactly the footprint cells to the token, whatever
    they held before, and records [box_locations[token] = (row, col, size)];
    a non-empty footprint with a non-negative anchor that runs past the last row
    or column fails with an IndexError (the [None] result). *)
Theorem place_box_unchecked (rk : Rack) (t row col size : Z) :
  rectangular (grid rk) (rows rk) (cols rk) -> 0 <= row -> 0 <= col ->
  (row + size <= rows rk -> col + size <= cols rk ->
     exists rk', Core.place_box rk t row col size = Some rk' /\
       rows rk' = rows rk /\ cols rk' = cols rk /\
       rectangular (grid rk') (rows rk) (cols rk) /\
       (forall r c, 0 <= r < rows rk -> 0 <= c < cols rk ->
          cell_at (grid rk') r c =
          if in_rect row col size r c then Some (Some t) else cell_at (grid rk) r c) /\
       box_locations rk' = <[t := (row, col, size)]> (box_locations rk)) /\
  (0 < size -> rows rk < row + size \/ cols rk < col + size ->
     Core.place_box rk t row col size = None).
Proof.
  intros Hg Hrow Hcol. split.
  - intros Hr Hc. rewrite CoreFacts.place_box_in by done.
    eexists. split; [reflexivity|]. simpl. split; [done|]. split; [done|]. split.
    + by apply rectangular_upd_grid.
    + split; [|done]. intros r c Hr' Hc'.
      by rewrite (cell_at_upd_grid_in (grid rk) (rows rk) (cols rk)).
  - intros Hsize Hout. unfold Core.place_box.
    by rewrite (fill_footprint_oob (grid rk) (rows rk) (cols rk)).
Qed.

Lemma place_box_unchecked_witness :
  exists rk', Core.place_box (new_rack 3 3) 5 1 1 2 = Some rk' /\
    rows rk' = 3 /\ cols rk' = 3 /\ rectangular (grid rk') 3 3 /\
    (forall r c, 0 <= r < 3 -> 0 <= c < 3 ->
       cell_at (grid rk') r c =
       if in_rect 1 1 2 r c then Some (Some 5) else cell_at (grid (new_rack 3 3)) r c) /\
    box_locations rk' = <[5 := (1, 1, 2)]> (box_locations (new_rack 3 3)).
Proof.
  apply (place_box_unchecked (new_rack 3 3) 5 1 1 2).
  - split; [reflexivity|]. repeat constructor.
  - lia.
  - lia.
  - simpl. lia.
  - simpl. lia.
Defined.

(** C4: the zone-constrained allocator returns [None] for a size without a
    configured zone; any anchor it returns lies in that size's zone row range,
    the whole footprint's rows stay inside the zone, the footprint is inside
    the grid and every footprint cell is empty. *)
Theorem zone_slot_contained (rk : Rack) (size origin_row origin_col r c : Z) :
  (Core.zone_lookup size Core.MODEL_ZONES = None ->
     Core.find_nearest_empty_slot rk size origin_row origin_col = Some None) /\
  (Core.find_nearest_empty_slot rk size origin_row origin_col = Some (Some (r, c)) ->
     exists zs ze, Core.zone_lookup size Core.MODEL_ZONES = Some (zs, ze) /\
       zs <= r <= ze /\
       (forall i, r <= i < r + size -> zs <= i <= ze) /\
       0 <= c /\ r + size <= rows rk /\ c + size <= cols rk /\
       (forall i j, in_rect r c size i j = true -> cell_at (grid rk) i j = Some None)).
Proof.
  unfold Core.find_nearest_empty_slot. split.
  - intros Hz. rewrite Hz. reflexivity.
  - destruct (Core.zone_lookup size Core.MODEL_ZONES) as [[zs ze]|] eqn:Hz; [|discriminate].
    intros H. apply py_search_some in H as (r0 & Hr0 & H).
    apply py_search_some in H as (c0 & Hc0 & H).
    destruct (Core._can_fit rk r0 c0 size) as [[|]|] eqn:Hfit; simpl in H; try discriminate.
    injection H as <- <-.
    apply CoreFacts.can_fit_true in Hfit as (Hr & Hc & Hzone & Hfree).
    apply elem_of_range in Hr0, Hc0.
    exists zs, ze. split; [done|]. split; [lia|]. split.
    + intros i Hi. destruct (Hzone i Hi) as (rg & Hrg & Hin).
      rewrite Hz in Hrg. injection Hrg as <-.
      unfold Core.in_range in Hin. simpl in Hin.
      rewrite andb_true_iff, !Z.leb_le in Hin. lia.
    + repeat split; try lia. exact Hfree.
Qed.

Lemma zone_slot_contained_witness :
  Core.find_nearest_empty_slot (new_rack 30 25) 2 29 0 = Some (Some (4, 0)) /\
  exists zs ze, Core.zone_lookup 2 Core.MODEL_ZONES = Some (zs, ze) /\
    zs <= 4 <= ze /\
    (forall i, 4 <= i < 4 + 2 -> zs <= i <= ze) /\
    0 <= 0 /\ 4 + 2 <= rows (new_rack 30 25) /\ 0 + 2 <= cols (new_rack 30 25) /\
    (forall i j, in_rect 4 0 2 i j = true -> cell_at (grid (new_rack 30 25)) i j = Some None).
Proof.
  split; [vm_compute; reflexivity|].
  apply (proj2 (zone_slot_contained (new_rack 30 25) 2 29 0 4 0)).
  vm_compute. reflexivity.
Defined.

(** C6 (counterexample): placing over an occupied cell and removing again
    clears the cell instead of restoring its previous occupant. *)
Lemma place_remove_clears_previous :
  exists rk0 rk1 rk2,
    Core.place_box (new_rack 1 1) 7 0 0 1 = Some rk0 /\
    Core.place_box rk0 8 0 0 1 = Some rk1 /\
    Core.remove_box rk1 8 = Some (true, rk2) /\
    cell_at (grid rk0) 0 0 = Some (Some 7) /\
    cell_at (grid rk2) 0 0 = Some None /\
    Core.get_occupied_cells rk0 = 1 /\ Core.get_occupied_cells rk2 = 0.
Proof. do 3 eexists. repeat split; reflexivity. Qed.

(** C6 (amended): when the footprint lies in the grid and all its cells are
    empty (what [_can_fit] checks before every placement), [place_box]
    followed by [remove_box] of the same token restores the grid exactly, hence
    also [get_occupied_cells], and leaves [box_locations] without the token. *)
Theorem place_remove_roundtrip (rk : Rack) (t row col size : Z) :
  rectangular (grid rk) (rows rk) (cols rk) ->
  0 <= row -> row + size <= rows rk -> 0 <= col -> col + size <= cols rk ->
  (forall r c, in_rect row col size r c = true -> cell_at (grid rk) r c = Some None) ->
  exists rk1 rk2,
    Core.place_box rk t row col size = Some rk1 /\
    Core.remove_box rk1 t = Some (true, rk2) /\
    grid rk2 = grid rk /\
    Core.get_occupied_cells rk2 = Core.get_occupied_cells rk /\
    box_locations rk2 = delete t (box_locations rk).
Proof.
  intros Hg Hr1 Hr2 Hc1 Hc2 Hempty.
  rewrite CoreFacts.place_box_in by done.
  eexists. rewrite (CoreFacts.remove_box_in _ t row col size); simpl.
  - eexists. split; [reflexivity|]. split; [reflexivity|].
    assert (Hgrid : upd_grid (in_rect row col size) None
                      (upd_grid (in_rect row col size) (Some t) (grid rk)) = grid rk).
    { rewrite upd_grid_twice. apply upd_grid_noop.
      intros i j v Hin Hv. specialize (Hempty _ _ Hin).
      rewrite cell_at_nonneg, !Nat2Z.id in Hempty by lia. congruence. }
    simpl. rewrite Hgrid. split; [done|]. split; [done|].
    apply delete_insert_eq.
  - apply lookup_insert_eq.
  - by apply rectangular_upd_grid.
  - done.
  - done.
  - done.
  - done.
Qed.

Lemma place_remove_roundtrip_witness :
  exists rk1 rk2,
    Core.place_box (new_rack 5 5) 9 0 0 2 = Some rk1 /\
    Core.remove_box rk1 9 = Some (true, rk2) /\
    grid rk2 = grid (new_rack 5 5) /\
    Core.get_occupied_cells rk2 = Core.get_occupied_cells (new_rack 5 5) /\
    box_locations rk2 = delete 9 (box_locations (new_rack 5 5)).
Proof.
  apply (place_remove_roundtrip (new_rack 5 5) 9 0 0 2).
  - split; [reflexivity|]. repeat constructor.
  - lia.
  - simpl. lia.
  - lia.
  - simpl. lia.
  - intros r c Hin. unfold in_rect in Hin.
    rewrite !andb_true_iff, !Z.leb_le, !Z.ltb_lt in Hin.
    assert (r = 0 \/ r = 1) as [-> | ->] by lia; assert (c = 0 \/ c = 1) as [-> | ->] by lia;
      reflexivity.
Defined.

(** C7: [remove_box] of a token absent from [box_locations] returns [False] and
    leaves the rack as it was; for a recorded token whose footprint lies in the
    grid it returns [True], empties exactly the recorded footprint cells and
    deletes the reverse-lookup entry. *)
Theorem remove_box_spec (rk : Rack) (t : Z) :
  (box_locations rk !! t = None -> Core.remove_box rk t = Some (false, rk)) /\
  (forall row col size,
     box_locations rk !! t = Some (row, col, size) ->
     rectangular (grid rk) (rows rk) (cols rk) ->
     0 <= row -> row + size <= rows rk -> 0 <= col -> col + size <= cols rk ->
     exists rk', Core.remove_box rk t = Some (true, rk') /\
       rows rk' = rows rk /\ cols rk' = cols rk /\
       rectangular (grid rk') (rows rk) (cols rk) /\
       (forall r c, 0 <= r < rows rk -> 0 <= c < cols rk ->
          cell_at (grid rk') r c =
          if in_rect row col size r c then Some None else cell_at (grid rk) r c) /\
       box_locations rk' = delete t (box_locations rk)).
Proof.
  split.
  - intros Hnone. unfold Core.remove_box. rewrite Hnone. reflexivity.
  - intros row col size Hloc Hg ????.
    rewrite (CoreFacts.remove_box_in rk t row col size) by done.
    eexists. split; [reflexivity|]. simpl. split; [done|]. split; [done|]. split.
    + by apply rectangular_upd_grid.
    + split; [|done]. intros r c Hr Hc.
      by rewrite (cell_at_upd_grid_in (grid rk) (rows rk) (cols rk)).
Qed.

Lemma remove_box_spec_witness :
  Core.remove_box (mkRack 2 2 [[Some 4; None]; [None; None]] {[4 := (0, 0, 1)]}) 3 =
    Some (false, mkRack 2 2 [[Some 4; None]; [None; None]] {[4 := (0, 0, 1)]}) /\
  exists rk', Core.remove_box (mkRack 2 2 [[Some 4; None]; [None; None]] {[4 := (0, 0, 1)]}) 4 =
      Some (true, rk') /\ rows rk' = 2 /\ cols rk' = 2 /\ rectangular (grid rk') 2 2 /\
    (forall r c, 0 <= r < 2 -> 0 <= c < 2 ->
       cell_at (grid rk') r c =
       if in_rect 0 0 1 r c then Some None
       else cell_at [[Some 4; None]; [None; None]] r c) /\
    box_locations rk' = delete 4 {[4 := (0, 0, 1)]}.
Proof.
  split.
  - apply (proj1 (remove_box_spec (mkRack 2 2 [[Some 4; None]; [None; None]] {[4 := (0, 0, 1)]}) 3)).
    reflexivity.
  - pose proof (proj2 (remove_box_spec
      (mkRack 2 2 [[Some 4; None]; [None; None]] {[4 := (0, 0, 1)]}) 4) 0 0 1) as H.
    cbn [rows cols grid box_locations] in H. apply H.
    + reflexivity.
    + split; [reflexivity|]. repeat constructor.
    + lia.
    + simpl. lia.
    + lia.
    + simpl. lia.
Defined.

(** ** [game.py]: the closest-location scan *)
(** ** Binary64 square roots of the integers of [[0, sqrt_table_bound]]

    [PrimFloat.ltb] is a strict order ([SpecFloat.SFltb] through
    [FloatAxioms.ltb_spec]), so the checked table [sqrt_table] makes [fsq]
    strictly increasing on the table's range, and there [math.sqrt] does not
    raise. *)
Module FloatFacts.
Import SqrtTable.

Lemma SFltb_trans x y z :
  SpecFloat.SFltb x y = true -> SpecFloat.SFltb y z = true -> SpecFloat.SFltb x z = true.
Proof.
  unfold SpecFloat.SFltb, SpecFloat.SFcompare.
  destruct x as [sx|sx| |sx mx ex], y as [sy|sy| |sy my ey], z as [sz|sz| |sz mz ez];
    try destruct sx; try destruct sy; try destruct sz; try discriminate; try reflexivity;
    change (Pos.compare_cont Eq) with Pos.compare;
    repeat match goal with
    | |- context [Z.compare ?a ?b] => destruct (Z.compare_spec a b)
    | |- context [Pos.compare ?a ?b] => destruct (Pos.compare_spec a b)
    end; simpl; try discriminate; try reflexivity; lia.
Qed.

Lemma SFltb_asym x y : SpecFloat.SFltb x y = true -> SpecFloat.SFltb y x = false.
Proof.
  unfold SpecFloat.SFltb, SpecFloat.SFcompare.
  destruct x as [sx|sx| |sx mx ex], y as [sy|sy| |sy my ey];
    try destruct sx; try destruct sy; try discriminate; try reflexivity;
    change (Pos.compare_cont Eq) with Pos.compare;
    repeat match goal with
    | |- context [Z.compare ?a ?b] => destruct (Z.compare_spec a b)
    | |- context [Pos.compare ?a ?b] => destruct (Pos.compare_spec a b)
    end; simpl; try discriminate; try reflexivity; lia.
Qed.


Lemma ltb_trans x y z :
  PrimFloat.ltb x y = true -> PrimFloat.ltb y z = true -> PrimFloat.ltb x z = true.
Proof. rewrite !FloatAxioms.ltb_spec. apply SFltb_trans. Qed.

Lemma ltb_asym x y : PrimFloat.ltb x y = true -> PrimFloat.ltb y x = false.
Proof. rewrite !FloatAxioms.ltb_spec. apply SFltb_asym. Qed.

Lemma to_Z_of_Z a : 0 <= a < Uint63Axioms.wB -> Uint63Axioms.to_Z (Uint63Axioms.of_Z a) = a.
Proof. intros Ha. rewrite Uint63.of_Z_spec. by apply Z.mod_small. Qed.

Lemma wB_eq : Uint63Axioms.wB = 2 ^ 63.
Proof. reflexivity. Qed.

Lemma add_one63 a : 0 <= a -> a + 1 < 2 ^ 63 ->
  PrimInt63.add (Uint63Axioms.of_Z a) one63 = Uint63Axioms.of_Z (a + 1).
Proof.
  intros Ha Ha'. apply Uint63.to_Z_inj.
  rewrite Uint63Axioms.add_spec, !to_Z_of_Z, wB_eq; try (rewrite wB_eq; lia).
  change (Uint63Axioms.to_Z one63) with 1. apply Z.mod_small. lia.
Qed.

Lemma sqrt_table_spec (n : nat) (a : Z) :
  0 <= a -> a + Z.of_nat n < 2 ^ 63 ->
  sqrt_table (Uint63Axioms.of_Z a) n = true ->
  (forall j, a <= j <= a + Z.of_nat n -> table_entry (Uint63Axioms.of_Z j) = true) /\
  (forall j, a <= j < a + Z.of_nat n ->
     PrimFloat.ltb (fsq (Uint63Axioms.of_Z j)) (fsq (Uint63Axioms.of_Z (j + 1))) = true) /\
  PrimFloat.ltb (fsq (Uint63Axioms.of_Z (a + Z.of_nat n))) PrimFloat.infinity = true.
Proof.
  revert a. induction n as [|n IH]; intros a Ha Hn; simpl sqrt_table.
  - rewrite Z.add_0_r. intros [He Hinf]%andb_prop.
    split; [|split; [intros; lia|done]].
    intros j Hj. by assert (j = a) as -> by lia.
  - rewrite add_one63 by lia. intros [[He Hlt]%andb_prop Hrest]%andb_prop.
    destruct (IH (a + 1)) as (IH1 & IH2 & IH3); [lia|lia|done|].
    split; [|split].
    + intros j Hj. destruct (Z.eq_dec j a) as [->|]; [done|]. apply IH1. lia.
    + intros j Hj. destruct (Z.eq_dec j a) as [->|]; [done|]. apply IH2. lia.
    + by replace (a + Z.of_nat (S n)) with (a + 1 + Z.of_nat n) by lia.
Qed.

Lemma sqrt_table_ok : sqrt_table (Uint63Axioms.of_Z 0) (Z.to_nat sqrt_table_bound) = true.
Proof. vm_compute. reflexivity. Qed.

Lemma table_facts :
  (forall j, 0 <= j <= sqrt_table_bound -> table_entry (Uint63Axioms.of_Z j) = true) /\
  (forall j, 0 <= j < sqrt_table_bound ->
     PrimFloat.ltb (fsq (Uint63Axioms.of_Z j)) (fsq (Uint63Axioms.of_Z (j + 1))) = true) /\
  PrimFloat.ltb (fsq (Uint63Axioms.of_Z sqrt_table_bound)) PrimFloat.infinity = true.
Proof.
  pose proof (sqrt_table_spec (Z.to_nat sqrt_table_bound) 0) as H.
  rewrite Z2Nat.id, Z.add_0_l in H by (unfold sqrt_table_bound; lia).
  apply H; [lia|unfold sqrt_table_bound; lia|exact sqrt_table_ok].
Qed.

Lemma fsq_mono a b : 0 <= a -> a < b -> b <= sqrt_table_bound ->
  PrimFloat.ltb (fsq (Uint63Axioms.of_Z a)) (fsq (Uint63Axioms.of_Z b)) = true.
Proof.
  intros Ha Hab Hb. destruct table_facts as (_ & Hstep & _).
  remember (Z.to_nat (b - a - 1)) as k eqn:Hk.
  revert b Hab Hb Hk. induction k as [|k IH]; intros b Hab Hb Hk.
  - assert (b = a + 1) as -> by lia. apply Hstep. lia.
  - apply ltb_trans with (fsq (Uint63Axioms.of_Z (b - 1))).
    + apply IH; lia.
    + replace b with (b - 1 + 1) at 2 by lia. apply Hstep. lia.
Qed.

(** On the table's range the float square roots compare as the integers do. *)
Lemma fsq_ltb a b : 0 <= a <= sqrt_table_bound -> 0 <= b <= sqrt_table_bound ->
  PrimFloat.ltb (fsq (Uint63Axioms.of_Z a)) (fsq (Uint63Axioms.of_Z b)) = (a <? b).
Proof.
  intros Ha Hb. destruct (Z.ltb_spec a b).
  - apply fsq_mono; lia.
  - destruct (Z.eq_dec a b) as [->|Hne].
    + destruct (PrimFloat.ltb _ _) eqn:E; [|done].
      pose proof (ltb_asym _ _ E) as E'. congruence.
    + apply ltb_asym, fsq_mono; lia.
Qed.

Lemma fsq_lt_inf a : 0 <= a <= sqrt_table_bound ->
  PrimFloat.ltb (fsq (Uint63Axioms.of_Z a)) PrimFloat.infinity = true.
Proof.
  intros Ha. destruct table_facts as (_ & _ & Hinf).
  destruct (Z.eq_dec a sqrt_table_bound) as [->|]; [done|].
  apply ltb_trans with (fsq (Uint63Axioms.of_Z sqrt_table_bound)); [apply fsq_mono; lia|done].
Qed.

Lemma float_of_int_small a : 0 <= a <= sqrt_table_bound ->
  Game.float_of_int a = Some (PrimFloat.of_uint63 (Uint63Axioms.of_Z a)).
Proof.
  intros Ha. destruct table_facts as (Hent & _ & _).
  specialize (Hent a Ha). unfold table_entry in Hent.
  apply andb_prop in Hent as [[Hfin _]%andb_prop _].
  pose proof (FloatAxioms.of_uint63_spec (Uint63Axioms.of_Z a)) as E.
  rewrite to_Z_of_Z in E by (rewrite wB_eq; unfold sqrt_table_bound in Ha; lia).
  unfold Game.float_of_int. rewrite <- E.
  pose proof (FloatAxioms.SF2Prim_Prim2SF (PrimFloat.of_uint63 (Uint63Axioms.of_Z a))) as E2.
  destruct (FloatOps.Prim2SF _) as [s|s| |s m e]; rewrite <- E2; try reflexivity.
  rewrite <- E2 in Hfin. destruct s; discriminate.
Qed.

Lemma math_sqrt_small a : 0 <= a <= sqrt_table_bound ->
  Game.math_sqrt a = Some (fsq (Uint63Axioms.of_Z a)).
Proof.
  intros Ha. unfold Game.math_sqrt. rewrite float_of_int_small by done.
  destruct table_facts as (Hent & _ & _).
  specialize (Hent a Ha). unfold table_entry in Hent.
  apply andb_prop in Hent as [[_ Hnan]%andb_prop Hinf].
  apply negb_true_iff in Hnan, Hinf. fold (fsq (Uint63Axioms.of_Z a)).
  by rewrite Hnan, Hinf.
Qed.

End FloatFacts.

Module GameFacts.

Lemma range_cons a b : a < b -> range a b = a :: range (a + 1) b.
Proof.
  intros H. unfold range.
  replace (Z.to_nat (b - a)) with (S (Z.to_nat (b - (a + 1)))) by lia.
  cbn [seq map]. rewrite <- seq_shift, map_map. f_equal; [lia|].
  apply map_ext. intros k. lia.
Qed.

Lemma range_sorted a b : StronglySorted Z.lt (range a b).
Proof.
  remember (Z.to_nat (b - a)) as n eqn:Hn. revert a Hn.
  induction n as [|n IH]; intros a Hn.
  - unfold range. rewrite <- Hn. constructor.
  - rewrite range_cons by lia. constructor; [apply IH; lia|].
    apply Forall_forall. intros x Hx%elem_of_range. lia.
Qed.

Lemma py_all_total {B} (p : B -> option bool) (l : list B) :
  (forall x, x ∈ l -> p x <> None) ->
  exists b, py_all p l = Some b /\ (b = true <-> forall x, x ∈ l -> p x = Some true).
Proof.
  induction l as [|x l IH]; intros H; simpl.
  - exists true. split; [done|]. split; [|done]. intros _ y Hy. inversion Hy.
  - destruct (p x) as [[|]|] eqn:Hp.
    + destruct IH as (b & Hb & Hiff); [intros y Hy; apply H; by right|].
      exists b. split; [done|]. rewrite Hiff. split.
      * intros Hall y Hy. apply elem_of_cons in Hy as [->|Hy]; auto.
      * intros Hall y Hy. apply Hall. by right.
    + exists false. split; [done|]. split; [discriminate|].
      intros Hall. rewrite Hall in Hp; [discriminate|left].
    + exfalso. eapply H; [left|exact Hp].
Qed.

Lemma cell_free_iff (m : option (option Z)) :
  (let? v := m in Some (bool_decide (v = None))) = Some true <-> m = Some None.
Proof.
  destruct m as [v|]; simpl; [|split; discriminate].
  split.
  - intros H. injection H as H. apply bool_decide_eq_true in H. by subst.
  - intros H. injection H as ->. reflexivity.
Qed.

Lemma can_place_box_spec (rk : Game.Rack) (box : Game.Box) row col :
  rectangular (Game.grid rk) (Game.rows rk) (Game.cols rk) -> 0 <= row -> 0 <= col ->
  exists b, Game.can_place_box rk box row col = Some b /\ (b = true <-> Game.fits rk box row col).
Proof.
  intros Hg Hrow Hcol. unfold Game.can_place_box, Game.fits.
  destruct ((Game.rows rk <? row + Game.box_width box) || (Game.cols rk <? col + Game.box_length box))
    eqn:Hb.
  - exists false. split; [done|]. split; [discriminate|].
    intros (_ & _ & H1 & H2 & _).
    apply orb_true_iff in Hb as [H|H]; apply Z.ltb_lt in H; lia.
  - apply orb_false_iff in Hb as [H1 H2]. apply Z.ltb_ge in H1, H2.
    destruct (py_all_total
      (fun r => py_all (fun c => let? v := cell_at (Game.grid rk) r c in
                                 Some (bool_decide (v = None)))
                       (range col (col + Game.box_length box)))
      (range row (row + Game.box_width box))) as (b & Hb & Hiff).
    { intros r Hr%elem_of_range.
      destruct (py_all_total (fun c => let? v := cell_at (Game.grid rk) r c in
                                        Some (bool_decide (v = None)))
                              (range col (col + Game.box_length box))) as (b' & Hb' & _).
      - intros c Hc%elem_of_range.
        destruct (cell_at_rect _ _ _ r c Hg) as [v Hv]; [lia|lia|].
        rewrite Hv. discriminate.
      - rewrite Hb'. discriminate. }
    exists b. split; [exact Hb|]. rewrite Hiff. split.
    + intros Hall. do 4 (split; [lia|]). intros r c Hr Hc.
      apply cell_free_iff. apply (proj1 (py_all_true _ _) (Hall r (proj2 (elem_of_range _ _ _) Hr))).
      by apply elem_of_range.
    + intros (_ & _ & _ & _ & Hcells) r Hr%elem_of_range. apply py_all_true.
      intros c Hc%elem_of_range. apply cell_free_iff. auto.
Qed.

Lemma py_for_total {A B} (f : A -> B -> option A) (g : A -> B -> A) (l : list B) (a : A) :
  (forall a x, x ∈ l -> f a x = Some (g a x)) -> py_for f l a = Some (fold_left g l a).
Proof.
  revert a. induction l as [|x l IH]; intros a H; simpl; [done|].
  rewrite H by left. apply IH. intros a' y Hy. apply H. by right.
Qed.

Lemma fold_left_flat_map {A B C} (g : A -> C -> A) (h : B -> list C) (l : list B) (a : A) :
  fold_left g (flat_map h l) a = fold_left (fun a x => fold_left g (h x) a) l a.
Proof.
  revert a. induction l as [|x l IH]; intros a; simpl; [done|].
  rewrite fold_left_app. apply IH.
Qed.

Lemma fold_left_map' {A B C} (g : A -> C -> A) (h : B -> C) (l : list B) (a : A) :
  fold_left g (map h l) a = fold_left (fun a x => g a (h x)) l a.
Proof. revert a. induction l as [|x l IH]; intros a; simpl; [done|]. apply IH. Qed.

(** The anchors of the double loop, in scan order. *)
Lemma elem_of_anchors (rs cs : list Z) r c :
  (r, c) ∈ flat_map (fun row => map (fun col => (row, col)) cs) rs <-> r ∈ rs /\ c ∈ cs.
Proof.
  rewrite !list_elem_of_In, in_flat_map. split.
  - intros (r' & Hr' & Hin). apply in_map_iff in Hin as (c' & [= <- <-] & Hc'). done.
  - intros [Hr Hc]. exists r. split; [done|]. apply in_map_iff. by exists c.
Qed.

Lemma anchors_sorted (rs cs : list Z) :
  StronglySorted Z.lt rs -> StronglySorted Z.lt cs ->
  StronglySorted Game.scan_before (flat_map (fun row => map (fun col => (row, col)) cs) rs).
Proof.
  intros Hrs Hcs. induction Hrs as [|r rs Hrs IH Hr]; simpl; [constructor|].
  apply StronglySorted_app_2; [|clear IH|exact IH].
  - intros x1 x2 Hx1 Hx2. rewrite list_elem_of_In in Hx1, Hx2.
    apply in_map_iff in Hx1 as (c1 & <- & _).
    apply in_flat_map in Hx2 as (r2 & Hr2 & Hx2). apply in_map_iff in Hx2 as (c2 & <- & _).
    left. simpl. rewrite Forall_forall in Hr. apply Hr. by apply list_elem_of_In.
  - induction Hcs as [|c cs Hcs IHc Hc]; simpl; constructor; [exact IHc|].
    rewrite Forall_forall in Hc. rewrite Forall_forall. intros x Hx.
    rewrite list_elem_of_In in Hx. apply in_map_iff in Hx as (c' & <- & Hc').
    right. simpl. split; [done|]. apply Hc. by apply list_elem_of_In.
Qed.

Lemma fold_left_ext {A B} (g g' : A -> B -> A) (l : list B) (a : A) :
  (forall a x, g a x = g' a x) -> fold_left g l a = fold_left g' l a.
Proof. intros H. revert a. induction l as [|x l IH]; intros a; simpl; [done|]. by rewrite H. Qed.

Section Scan.
Variables (rk : Game.Rack) (box : Game.Box) (origin_row origin_col : Z).

Local Abbreviation d q := (Game.sq_dist q origin_row origin_col).

(** The anchors the loops visit. *)
Local Abbreviation near q :=
  (0 <= q.1 <= Game.rows rk - Game.box_width box /\ 0 <= q.2 <= Game.cols rk - Game.box_length box).

(** Every visited anchor is close enough to the origin for the table. *)
Hypothesis Hnear : forall q : cell, near q -> d q <= SqrtTable.sqrt_table_bound.

Lemma sq_dist_nonneg q : 0 <= d q.
Proof. unfold Game.sq_dist. nia. Qed.

Lemma math_sqrt_near q : near q ->
  Game.math_sqrt (d q) = Some (SqrtTable.fsq (Uint63Axioms.of_Z (d q))).
Proof.
  intros Hq. apply FloatFacts.math_sqrt_small. split; [apply sq_dist_nonneg|auto].
Qed.

Lemma closest_inv_skip K st x :
  Game.can_place_box rk box x.1 x.2 <> Some true ->
  Game.closest_inv rk box origin_row origin_col K st ->
  Game.closest_inv rk box origin_row origin_col (K ++ [x]) st.
Proof.
  intros Hx. unfold Game.closest_inv. destruct st as [[p|] m]; simpl.
  - intros (Hm & Hp & Hpf & Hmin). split; [done|]. split; [apply elem_of_app; by left|].
    split; [done|]. intros q Hq Hqf. apply elem_of_app in Hq as [Hq|Hq]; [auto|].
    apply list_elem_of_singleton in Hq. subst q. contradiction.
  - intros (Hm & Hnone). split; [done|]. intros q Hq.
    apply elem_of_app in Hq as [Hq|Hq]; [auto|].
    apply list_elem_of_singleton in Hq. by subst q.
Qed.

Lemma closest_inv_step K st x :
  near x -> (forall q, q ∈ K -> near q) ->
  (forall q, q ∈ K -> Game.scan_before q x) ->
  Game.closest_inv rk box origin_row origin_col K st ->
  Game.closest_inv rk box origin_row origin_col (K ++ [x])
    (Game.closest_step rk box origin_row origin_col st x).
Proof.
  intros Hxn HKn Hbefore Hinv. unfold Game.closest_step.
  destruct (Game.can_place_box rk box x.1 x.2) as [[|]|] eqn:Hx;
    [|apply closest_inv_skip; [by rewrite Hx|done]..].
  change ((x.1 - origin_row) ^ 2 + (x.2 - origin_col) ^ 2) with (d x).
  pose proof (math_sqrt_near x Hxn) as Hdx. rewrite Hdx.
  assert (HxK : x ∈ K ++ [x]) by (apply elem_of_app; right; left).
  assert (Hxr : 0 <= d x <= SqrtTable.sqrt_table_bound) by (split; [apply sq_dist_nonneg|auto]).
  unfold Game.closest_inv in Hinv. destruct st as [[p|] m]; simpl in Hinv |- *.
  - destruct Hinv as (Hm & Hp & Hpf & Hmin).
    rewrite math_sqrt_near in Hm by auto. injection Hm as <-.
    assert (Hpr : 0 <= d p <= SqrtTable.sqrt_table_bound) by (split; [apply sq_dist_nonneg|auto]).
    pose proof (FloatFacts.fsq_ltb (d x) (d p) Hxr Hpr) as Hlt.
    rewrite Hlt.
    destruct (Z.ltb_spec (d x) (d p)).
    + simpl. split; [exact Hdx|]. split; [done|]. split; [done|].
      intros q Hq Hqf. apply elem_of_app in Hq as [Hq|Hq].
      * left. destruct (Hmin q Hq Hqf) as [?|[? _]]; lia.
      * apply list_elem_of_singleton in Hq. subst q. right. auto.
    + simpl. split; [by apply math_sqrt_near; auto|].
      split; [apply elem_of_app; by left|]. split; [done|].
      intros q Hq Hqf. apply elem_of_app in Hq as [Hq|Hq]; [auto|].
      apply list_elem_of_singleton in Hq. subst q.
      destruct (Z.lt_total (d p) (d x)) as [?|[?|?]]; [left; done| |lia].
      right. split; [done|]. right. auto.
  - destruct Hinv as (-> & Hnone).
    pose proof (FloatFacts.fsq_lt_inf (d x) Hxr) as Hlt. rewrite Hlt. simpl. split; [exact Hdx|]. split; [done|]. split; [done|].
    intros q Hq Hqf. apply elem_of_app in Hq as [Hq|Hq].
    + by apply Hnone in Hq.
    + apply list_elem_of_singleton in Hq. subst q. right. auto.
Qed.

Lemma closest_fold L K st :
  StronglySorted Game.scan_before L ->
  (forall x, x ∈ L -> near x) -> (forall q, q ∈ K -> near q) ->
  (forall q x, q ∈ K -> x ∈ L -> Game.scan_before q x) ->
  Game.closest_inv rk box origin_row origin_col K st ->
  Game.closest_inv rk box origin_row origin_col (K ++ L)
    (fold_left (Game.closest_step rk box origin_row origin_col) L st).
Proof.
  revert K st. induction L as [|x L IH]; intros K st HL HLn HKn Hbefore Hinv; simpl.
  - by rewrite app_nil_r.
  - apply StronglySorted_cons in HL as [Hx HL].
    replace (K ++ x :: L) with ((K ++ [x]) ++ L) by (rewrite <- app_assoc; reflexivity).
    apply IH; [exact HL| | | |].
    + intros y Hy. apply HLn. by right.
    + intros q Hq. apply elem_of_app in Hq as [Hq|Hq]; [auto|].
      apply list_elem_of_singleton in Hq. subst q. apply HLn. left.
    + intros q y Hq Hy. apply elem_of_app in Hq as [Hq|Hq].
      * apply Hbefore; [done|]. by right.
      * apply list_elem_of_singleton in Hq. subst q.
        rewrite Forall_forall in Hx. by apply Hx.
    + apply closest_inv_step; [apply HLn; left|done| |done].
      intros q Hq. apply Hbefore; [done|left].
Qed.

Lemma closest_flat :
  rectangular (Game.grid rk) (Game.rows rk) (Game.cols rk) ->
  Game.find_closest_available_location rk box origin_row origin_col =
  Some (fold_left (Game.closest_step rk box origin_row origin_col)
          (flat_map (fun row => map (fun col => (row, col))
                                    (range 0 (Game.cols rk - Game.box_length box + 1)))
                    (range 0 (Game.rows rk - Game.box_width box + 1)))
          (None, PrimFloat.infinity)).1.
Proof.
  intros Hg. unfold Game.find_closest_available_location.
  rewrite (py_for_total _ (fun st row => fold_left (fun st col =>
             Game.closest_step rk box origin_row origin_col st (row, col))
             (range 0 (Game.cols rk - Game.box_length box + 1)) st)).
  - rewrite fold_left_flat_map. f_equal. f_equal. apply fold_left_ext.
    intros st row. by rewrite fold_left_map'.
  - intros st row Hrow%elem_of_range. apply py_for_total.
    intros st' col Hcol%elem_of_range.
    destruct (can_place_box_spec rk box row col Hg) as (b & Hb & _); [lia|lia|].
    rewrite Hb. unfold Game.closest_step. cbn [fst snd]. rewrite Hb. destruct b; [|reflexivity].
    pose proof (math_sqrt_near (row, col)) as Hs. unfold Game.sq_dist in Hs. cbn [fst snd] in Hs.
    rewrite Hs by (simpl; lia). destruct PrimFloat.ltb; reflexivity.
Qed.

End Scan.

End GameFacts.

(** C10: on a rectangular grid of at most 2048 x 2048 cells, for a box of
    positive [length] and [width] and an origin cell of the grid,
    [find_closest_available_location] does not raise; it returns [None] iff the
    box's [width] x [length] footprint fits (inside the grid, all cells empty)
    at no anchor; otherwise it returns an anchor where the footprint fits whose
    Euclidean distance to the origin is least among all such anchors (compared
    through its square [sq_dist]), ties going to the anchor first in row-major
    order. The source compares float square roots: on such grids they order the
    anchors as the exact distances do ([FloatFacts.fsq_ltb]). *)
Theorem closest_location_spec (rk : Game.Rack) (box : Game.Box) (origin_row origin_col : Z) :
  rectangular (Game.grid rk) (Game.rows rk) (Game.cols rk) ->
  Game.rows rk <= 2048 -> Game.cols rk <= 2048 ->
  0 < Game.box_width box -> 0 < Game.box_length box ->
  0 <= origin_row < Game.rows rk -> 0 <= origin_col < Game.cols rk ->
  exists res, Game.find_closest_available_location rk box origin_row origin_col = Some res /\
    (res = None <-> forall row col, ~ Game.fits rk box row col) /\
    (forall row col, res = Some (row, col) ->
       Game.fits rk box row col /\
       forall r c, Game.fits rk box r c ->
         Game.sq_dist (row, col) origin_row origin_col < Game.sq_dist (r, c) origin_row origin_col \/
         (Game.sq_dist (row, col) origin_row origin_col = Game.sq_dist (r, c) origin_row origin_col /\
          (row < r \/ (row = r /\ col <= c)))).
Proof.
  intros Hg Hrows Hcols Hw Hl Hor Hoc.
  assert (Hnear : forall q : cell,
            0 <= q.1 <= Game.rows rk - Game.box_width box ->
            0 <= q.2 <= Game.cols rk - Game.box_length box ->
            Game.sq_dist q origin_row origin_col <= SqrtTable.sqrt_table_bound).
  { intros [qr qc] Hqr Hqc. simpl in Hqr, Hqc. unfold Game.sq_dist, SqrtTable.sqrt_table_bound. simpl.
    assert ((qr - origin_row) ^ 2 <= 2047 ^ 2) by nia.
    assert ((qc - origin_col) ^ 2 <= 2047 ^ 2) by nia.
    lia. }
  rewrite (GameFacts.closest_flat rk box origin_row origin_col (fun q H1 => Hnear q (proj1 H1) (proj2 H1)) Hg).
  set (rs := range 0 (Game.rows rk - Game.box_width box + 1)).
  set (cs := range 0 (Game.cols rk - Game.box_length box + 1)).
  pose proof (GameFacts.closest_fold rk box origin_row origin_col
                (fun q H1 => Hnear q (proj1 H1) (proj2 H1))
                (flat_map (fun row => map (fun col => (row, col)) cs) rs) [] (None, PrimFloat.infinity)
                (GameFacts.anchors_sorted rs cs (GameFacts.range_sorted _ _)
                                                (GameFacts.range_sorted _ _))) as Hinv.
  assert (HLn : forall x, x ∈ flat_map (fun row => map (fun col => (row, col)) cs) rs ->
            0 <= x.1 <= Game.rows rk - Game.box_width box /\
            0 <= x.2 <= Game.cols rk - Game.box_length box).
  { intros [xr xc] Hx. apply GameFacts.elem_of_anchors in Hx as [Hx1 Hx2].
    apply elem_of_range in Hx1, Hx2. simpl. lia. }
  specialize (Hinv HLn (fun q Hq => match not_elem_of_nil q Hq with end)).
  simpl in Hinv. specialize (Hinv (fun q x Hq _ => match not_elem_of_nil q Hq with end)).
  specialize (Hinv (conj eq_refl (fun q Hq => match not_elem_of_nil q Hq with end))).
  (* a fitting anchor is scanned and accepted by [can_place_box] *)
  assert (Hscan : forall r c, Game.fits rk box r c ->
            (r, c) ∈ flat_map (fun row => map (fun col => (row, col)) cs) rs /\
            Game.can_place_box rk box r c = Some true).
  { intros r c Hf. pose proof Hf as (Hr & Hc & Hr' & Hc' & _). split.
    - apply GameFacts.elem_of_anchors. split; apply elem_of_range; lia.
    - destruct (GameFacts.can_place_box_spec rk box r c Hg Hr Hc) as (b & Hb & Hiff).
      rewrite Hb. f_equal. by apply Hiff. }
  (* an accepted anchor fits *)
  assert (Hok : forall r c, (r, c) ∈ flat_map (fun row => map (fun col => (row, col)) cs) rs ->
            Game.can_place_box rk box r c = Some true -> Game.fits rk box r c).
  { intros r c Hin Hcp. apply GameFacts.elem_of_anchors in Hin as [Hr Hc].
    apply elem_of_range in Hr, Hc.
    destruct (GameFacts.can_place_box_spec rk box r c Hg) as (b & Hb & Hiff); [lia|lia|].
    apply Hiff. congruence. }
  eexists. split; [reflexivity|].
  unfold Game.closest_inv in Hinv.
  destruct (fold_left _ _ _) as [[[prow pcol]|] m]; cbn [fst snd] in Hinv |- *.
  - destruct Hinv as (_ & Hp & Hpf & Hmin). split.
    + split; [discriminate|]. intros Hnone. exfalso. apply (Hnone prow pcol). by apply Hok.
    + intros row col [= <- <-]. split; [by apply Hok|].
      intros r c Hf. destruct (Hscan r c Hf) as [Hin Hcp].
      destruct (Hmin (r, c) Hin Hcp) as [?|[? [[= <- <-]|Hb]]].
      * by left.
      * right. split; [done|]. right. lia.
      * right. split; [done|]. unfold Game.scan_before in Hb. simpl in Hb. lia.
  - destruct Hinv as (_ & Hnone). split.
    + split; [|done]. intros _ r c Hf. destruct (Hscan r c Hf) as [Hin Hcp].
      by apply (Hnone (r, c) Hin).
    + intros row col [=].
Qed.

Lemma closest_location_spec_witness :
  let rk := Game.mkRack 3 3 [[Some 1; None; None]; [None; None; None]; [None; None; None]]
                        ∅ ∅ 2 [1] in
  exists res, Game.find_closest_available_location rk (Game.mkBox 1 1 None) 2 0 = Some res /\
    (res = None <-> forall row col, ~ Game.fits rk (Game.mkBox 1 1 None) row col) /\
    (forall row col, res = Some (row, col) ->
       Game.fits rk (Game.mkBox 1 1 None) row col /\
       forall r c, Game.fits rk (Game.mkBox 1 1 None) r c ->
         Game.sq_dist (row, col) 2 0 < Game.sq_dist (r, c) 2 0 \/
         (Game.sq_dist (row, col) 2 0 = Game.sq_dist (r, c) 2 0 /\
          (row < r \/ (row = r /\ col <= c)))).
Proof.
  apply (closest_location_spec
           (Game.mkRack 3 3 [[Some 1; None; None]; [None; None; None]; [None; None; None]]
                        ∅ ∅ 2 [1]) (Game.mkBox 1 1 None) 2 0);
    [split; [reflexivity|]; repeat constructor|simpl; lia..].
Defined.

(** Far from the grid the float distances of [find_closest_available_location]
    tie or overflow, which is why [closest_location_spec] takes an origin cell of
    a grid of at most 2048 x 2048 cells: on an empty 1 x 6 rack, from
    [(2^27, 5)] the float square roots of the anchors [(0, 3)], [(0, 4)] and
    [(0, 5)] are equal and the scan keeps [(0, 3)], farther than [(0, 5)]; from
    [(10^200, 0)] [float()] of the squared distance raises OverflowError. *)
Lemma closest_location_far_origin :
  Game.find_closest_available_location (Game.new_rack 1 6) (Game.mkBox 1 1 None) (2 ^ 27) 5 =
    Some (Some (0, 3)) /\
  Game.sq_dist (0, 5) (2 ^ 27) 5 < Game.sq_dist (0, 3) (2 ^ 27) 5 /\
  Game.find_closest_available_location (Game.new_rack 1 6) (Game.mkBox 1 1 None) (10 ^ 200) 0 = None.
Proof. split; [|split]; vm_compute; reflexivity. Qed.


Module SearchFacts.

Lemma walk_app adj x l1 l2 :
  walk adj x (l1 ++ l2) <-> walk adj x l1 /\ walk adj (walk_end x l1) l2.
Proof.
  revert x. induction l1 as [|y l1 IH]; intros x; simpl; [tauto|].
  rewrite IH. tauto.
Qed.

Lemma walk_end_app x l1 l2 : walk_end x (l1 ++ l2) = walk_end (walk_end x l1) l2.
Proof. revert x. induction l1 as [|y l1 IH]; intros x; simpl; auto. Qed.

Lemma walk_snoc adj x l y :
  walk adj x (l ++ [y]) <-> walk adj x l /\ adj (walk_end x l) y.
Proof. rewrite walk_app. simpl. tauto. Qed.

Lemma walk_end_snoc x l y : walk_end x (l ++ [y]) = y.
Proof. by rewrite walk_end_app. Qed.

Lemma walk_mono (adj adj' : cell -> cell -> Prop) x l :
  (forall u w, adj u w -> adj' u w) -> walk adj x l -> walk adj' x l.
Proof.
  intros H. revert x. induction l as [|y l IH]; intros x; simpl; [done|].
  intros [Hxy Hl]. split; auto.
Qed.

Lemma walk_elem adj x l y :
  walk adj x l -> y ∈ l -> exists u, adj u y.
Proof.
  revert x. induction l as [|z l IH]; intros x; simpl; [intros _ Hy; inversion Hy|].
  intros [Hxz Hl] Hy. apply elem_of_cons in Hy as [->|Hy]; eauto.
Qed.

Lemma manhattan_walk rows cols x l :
  walk (grid_adj rows cols) x l -> manhattan x (walk_end x l) <= Z.of_nat (length l).
Proof.
  revert x. induction l as [|y l IH]; intros x; simpl.
  - intros _. unfold manhattan. lia.
  - intros [[_ Hxy] Hl]. specialize (IH y Hl). unfold manhattan in *. lia.
Qed.

Lemma manhattan_sym p q : manhattan p q = manhattan q p.
Proof. unfold manhattan. lia. Qed.

(** A monotone staircase walk between two cells of the grid. *)
Lemma staircase rows cols u w :
  in_bounds rows cols u = true -> in_bounds rows cols w = true ->
  exists l, walk (grid_adj rows cols) u l /\ walk_end u l = w /\
            Z.of_nat (length l) = manhattan u w.
Proof.
  remember (Z.to_nat (manhattan u w)) as n eqn:Hn. revert u Hn.
  induction n as [|n IH]; intros u Hn Hu Hw.
  - exists []. simpl. unfold manhattan in *.
    destruct u as [u1 u2], w as [w1 w2]; simpl in *.
    assert (u1 = w1 /\ u2 = w2) as [-> ->] by lia. split; [done|]. split; [done|]. lia.
  - unfold in_bounds in Hu, Hw. rewrite !andb_true_iff, !Z.leb_le, !Z.ltb_lt in Hu, Hw.
    destruct u as [u1 u2], w as [w1 w2]; simpl in *.
    (* one step towards [w] *)
    assert (exists u', in_bounds rows cols u' = true /\ manhattan (u1, u2) u' = 1 /\
                       Z.to_nat (manhattan u' (w1, w2)) = n) as (u' & Hu' & Hstep & Hn').
    { unfold manhattan in *; simpl in *.
      destruct (Z.lt_total u1 w1) as [?|[?|?]].
      - exists (u1 + 1, u2). unfold in_bounds; simpl.
        rewrite !andb_true_iff, !Z.leb_le, !Z.ltb_lt. repeat split; lia.
      - destruct (Z.lt_total u2 w2) as [?|[?|?]].
        + exists (u1, u2 + 1). unfold in_bounds; simpl.
          rewrite !andb_true_iff, !Z.leb_le, !Z.ltb_lt. repeat split; lia.
        + lia.
        + exists (u1, u2 - 1). unfold in_bounds; simpl.
          rewrite !andb_true_iff, !Z.leb_le, !Z.ltb_lt. repeat split; lia.
      - exists (u1 - 1, u2). unfold in_bounds; simpl.
        rewrite !andb_true_iff, !Z.leb_le, !Z.ltb_lt. repeat split; lia. }
    destruct (IH u' (eq_sym Hn') Hu') as (l & Hl & Hend & Hlen).
    { unfold in_bounds; simpl. rewrite !andb_true_iff, !Z.leb_le, !Z.ltb_lt. lia. }
    exists (u' :: l). simpl. split; [split; [split|]|]; auto.
    split; [done|]. unfold manhattan in *; simpl in *. lia.
Qed.

(** [heapq.heappop] returns an entry of least priority. *)
Lemma remove_one_perm x l : x ∈ l -> l ≡ₚ x :: remove_one x l.
Proof.
  induction l as [|y l IH]; intros Hx; [inversion Hx|]. simpl.
  destruct (decide (x = y)) as [->|Hne]; [done|].
  apply elem_of_cons in Hx as [->|Hx]; [done|].
  rewrite (IH Hx) at 1. apply Permutation_swap.
Qed.

Lemma entry_compare_lt x y : entry_compare x y = Lt -> prio x <= prio y.
Proof. unfold entry_compare, lex. destruct (Z.compare_spec (prio x) (prio y)); lia || done. Qed.

Lemma entry_compare_not_lt x y : entry_compare x y <> Lt -> prio y <= prio x.
Proof. unfold entry_compare, lex. destruct (Z.compare_spec (prio x) (prio y)); lia || done. Qed.

Lemma heap_min_fold (t : list entry) (m : entry) :
  let m' := fold_left (fun m y => match entry_compare y m with Lt => y | _ => m end) t m in
  (m' = m \/ m' ∈ t) /\ prio m' <= prio m /\ forall y, y ∈ t -> prio m' <= prio y.
Proof.
  revert m. induction t as [|y t IH]; intros m; simpl.
  - split; [by left|]. split; [lia|]. intros y Hy. inversion Hy.
  - destruct (entry_compare y m) eqn:Hc.
    + destruct (IH m) as (Hin & Hle & Hmin). assert (prio m <= prio y) by (apply entry_compare_not_lt; by rewrite Hc).
      split; [destruct Hin as [->|Hin]; [by left|right; by right]|]. split; [done|].
      intros z Hz. apply elem_of_cons in Hz as [->|Hz]; [lia|auto].
    + destruct (IH y) as (Hin & Hle & Hmin). apply entry_compare_lt in Hc.
      split; [destruct Hin as [->|Hin]; right; [left|by right]|]. split; [lia|].
      intros z Hz. apply elem_of_cons in Hz as [->|Hz]; [lia|auto].
    + destruct (IH m) as (Hin & Hle & Hmin). assert (prio m <= prio y) by (apply entry_compare_not_lt; by rewrite Hc).
      split; [destruct Hin as [->|Hin]; [by left|right; by right]|]. split; [done|].
      intros z Hz. apply elem_of_cons in Hz as [->|Hz]; [lia|auto].
Qed.

Lemma heap_pop_spec h e h' :
  heap_pop h = Some (e, h') ->
  h ≡ₚ e :: h' /\ forall y, y ∈ h -> prio e <= prio y.
Proof.
  destruct h as [|x t]; simpl; [discriminate|]. intros [= <- <-].
  destruct (heap_min_fold t x) as (Hin & Hle & Hmin). split.
  - apply remove_one_perm. destruct Hin as [->|Hin]; [left|by right].
  - intros y Hy. apply elem_of_cons in Hy as [->|Hy]; auto.
Qed.

Lemma heap_pop_none h : heap_pop h = None -> h = [].
Proof. by destruct h. Qed.

Lemma perm_elem {A} (x e : A) (H H' : list A) : H ≡ₚ e :: H' -> x ∈ H -> x = e \/ x ∈ H'.
Proof. intros Hp Hx. rewrite Hp in Hx. by apply elem_of_cons in Hx. Qed.

Lemma perm_elem_2 {A} (x e : A) (H H' : list A) : H ≡ₚ e :: H' -> x ∈ H' -> x ∈ H.
Proof. intros Hp Hx. rewrite Hp. by right. Qed.

Section FrontierFacts.
Context {E : Type}.
Variables (epos : E -> cell) (ecost ekey : E -> Z) (adj : cell -> cell -> Prop)
          (h : cell -> Z) (start : cell).
Hypothesis h_consistent : forall x y, adj x y -> h x <= 1 + h y.

Local Abbreviation inv := (frontier_inv epos ecost ekey adj h start).

(** Every walk from the start ends in a closed cell or is "covered" by an
    entry whose key is at most its length plus the heuristic. *)
Lemma frontier_reach H V l :
  inv H V -> walk adj start l ->
  walk_end start l ∈ V \/
  exists e, e ∈ H /\ ekey e <= Z.of_nat (length l) + h (walk_end start l).
Proof.
  intros (Hstart & Hclosed & _). induction l as [|x l IH] using rev_ind; simpl.
  - intros _. destruct (decide (start ∈ V)) as [Hin|Hin]; [by left|right].
    destruct (Hstart Hin) as (e & He & _ & Hk). exists e. split; [done|]. lia.
  - intros Hw. apply walk_snoc in Hw as [Hl Hadj]. rewrite walk_end_snoc, length_app. simpl.
    destruct (IH Hl) as [Hv|(e & He & Hk)].
    + destruct (Hclosed _ l x Hv Hl eq_refl Hadj) as [Hx|(e & He & _ & Hk)]; [by left|].
      right. exists e. split; [done|]. lia.
    + right. exists e. split; [done|]. specialize (h_consistent _ _ Hadj). lia.
Qed.

(** A popped entry of least key on an open position has the least cost of any
    walk to it. *)
Lemma frontier_pop_opt H V e0 l :
  inv H V -> e0 ∈ H -> (forall e, e ∈ H -> ekey e0 <= ekey e) -> epos e0 ∉ V ->
  walk adj start l -> walk_end start l = epos e0 -> ecost e0 <= Z.of_nat (length l).
Proof.
  intros Hinv He0 Hmin Hnv Hl Hend.
  pose proof Hinv as (_ & _ & Hkey).
  destruct (frontier_reach H V l Hinv Hl) as [Hv|(e & He & Hk)]; [rewrite Hend in Hv; done|].
  rewrite Hend in Hk. specialize (Hmin e He).
  destruct (Hkey e0 He0); lia.
Qed.

Lemma frontier_skip H H' V e0 :
  inv H V -> H ≡ₚ e0 :: H' -> epos e0 ∈ V -> inv H' V.
Proof.
  intros (Hstart & Hclosed & Hkey) Hp Hv. split; [|split].
  - intros Hs. destruct (Hstart Hs) as (e & He & Hpos & Hk).
    destruct (perm_elem e e0 H H' Hp He) as [->|He']; [by rewrite Hpos in Hv|].
    eauto.
  - intros v l w Hvv Hl Hend Hadj.
    destruct (Hclosed v l w Hvv Hl Hend Hadj) as [?|(e & He & Hpos & Hk)]; [by left|].
    destruct (perm_elem e e0 H H' Hp He) as [->|He']; [left; by rewrite <- Hpos|].
    right. eauto.
  - intros e He. apply Hkey. by eapply perm_elem_2.
Qed.

Lemma frontier_expand H H' V e0 P :
  inv H V -> H ≡ₚ e0 :: H' -> epos e0 ∉ V ->
  (forall l, walk adj start l -> walk_end start l = epos e0 -> ecost e0 <= Z.of_nat (length l)) ->
  (forall w, adj (epos e0) w ->
     w ∈ epos e0 :: V \/ exists e, e ∈ P /\ epos e = w /\ ekey e <= ecost e0 + 1 + h w) ->
  (forall e, e ∈ P -> ekey e = ecost e + h (epos e) \/ ecost e = 0) ->
  inv (H' ++ P) (epos e0 :: V).
Proof.
  intros (Hstart & Hclosed & Hkey) Hp Hnv Hopt Hpush HkeyP. split; [|split].
  - intros Hs. assert (start ∉ V) as Hs' by (intros ?; apply Hs; by right).
    destruct (Hstart Hs') as (e & He & Hpos & Hk).
    destruct (perm_elem e e0 H H' Hp He) as [->|He'].
    + exfalso. apply Hs. rewrite Hpos. left.
    + exists e. split; [apply elem_of_app; by left|]. done.
  - intros v l w Hvv Hl Hend Hadj. apply elem_of_cons in Hvv as [->|Hvv].
    + destruct (Hpush w Hadj) as [?|(e & He & Hpos & Hk)]; [by left|].
      right. exists e. split; [apply elem_of_app; by right|]. split; [done|].
      specialize (Hopt l Hl Hend). lia.
    + destruct (Hclosed v l w Hvv Hl Hend Hadj) as [?|(e & He & Hpos & Hk)]; [left; by right|].
      destruct (perm_elem e e0 H H' Hp He) as [->|He']; [left; rewrite <- Hpos; left|].
      right. exists e. split; [apply elem_of_app; by left|]. done.
  - intros e He. apply elem_of_app in He as [He|He]; [|auto].
    apply Hkey. by eapply perm_elem_2.
Qed.

Lemma frontier_init e0 :
  epos e0 = start -> ekey e0 <= h start ->
  (ekey e0 = ecost e0 + h (epos e0) \/ ecost e0 = 0) ->
  inv [e0] [].
Proof.
  intros Hpos Hk Hkey. split; [|split].
  - intros _. exists e0. split; [left|]. done.
  - intros v l w Hv. inversion Hv.
  - intros e He. apply list_elem_of_singleton in He. by subst.
Qed.

Lemma frontier_empty V l :
  inv [] V -> walk adj start l -> walk_end start l ∈ V.
Proof.
  intros Hinv Hl. destruct (frontier_reach [] V l Hinv Hl) as [?|(e & He & _)]; [done|].
  inversion He.
Qed.

End FrontierFacts.

End SearchFacts.

(** ** Grid geometry shared by the searches *)
Module GridSearch.

Lemma fold_left_push {A X} (f : X -> list A) (l : list X) (H : list A) :
  fold_left (fun h x => h ++ f x) l H = H ++ flat_map f l.
Proof.
  revert H. induction l as [|x l IH]; intros H; simpl; [by rewrite app_nil_r|].
  rewrite IH. by rewrite app_assoc.
Qed.

Lemma length_flat_map_le {A B} (f : A -> list B) (l : list A) :
  (forall x, (length (f x) <= 1)%nat) -> (length (flat_map f l) <= length l)%nat.
Proof.
  intros Hf. induction l as [|x l IH]; simpl; [lia|].
  rewrite length_app. specialize (Hf x). lia.
Qed.

(** The four moves of [directions] are exactly the cells at Manhattan distance 1. *)
Lemma manhattan_dirs (u w : cell) :
  manhattan u w = 1 <-> exists d, d ∈ directions /\ w = (u.1 + d.1, u.2 + d.2).
Proof.
  destruct u as [u1 u2], w as [w1 w2]. unfold manhattan, directions; simpl. split.
  - intros H.
    assert ((w1 = u1 - 1 /\ w2 = u2) \/ (w1 = u1 + 1 /\ w2 = u2) \/
            (w1 = u1 /\ w2 = u2 - 1) \/ (w1 = u1 /\ w2 = u2 + 1))
      as [[-> ->]|[[-> ->]|[[-> ->]|[-> ->]]]] by lia.
    + exists (-1, 0). split; [left|]. f_equal; simpl; lia.
    + exists (1, 0). split; [right; left|]. f_equal; simpl; lia.
    + exists (0, -1). split; [right; right; left|]. f_equal; simpl; lia.
    + exists (0, 1). split; [right; right; right; left|]. f_equal; simpl; lia.
  - intros (d & Hd & [= -> ->]).
    repeat (apply elem_of_cons in Hd as [->|Hd]; [simpl; lia|]). inversion Hd.
Qed.

Lemma length_range a b : length (range a b) = Z.to_nat (b - a).
Proof. unfold range. by rewrite length_map, length_seq. Qed.

Lemma elem_of_all_cells rows cols p :
  p ∈ all_cells rows cols <-> in_bounds rows cols p = true.
Proof.
  destruct p as [r c]. unfold all_cells. rewrite GameFacts.elem_of_anchors, !elem_of_range.
  unfold in_bounds; simpl. rewrite !andb_true_iff, !Z.leb_le, !Z.ltb_lt. lia.
Qed.

Lemma length_all_cells rows cols :
  length (all_cells rows cols) = (Z.to_nat rows * Z.to_nat cols)%nat.
Proof.
  unfold all_cells.
  assert (forall rs : list Z, length (flat_map (fun r => map (fun c : Z => (r, c) : cell) (range 0 cols)) rs) =
                     (length rs * Z.to_nat cols)%nat) as Hlen.
  { induction rs as [|r rs IH]; simpl; [done|].
    rewrite length_app, length_map, IH, length_range, Z.sub_0_r. lia. }
  rewrite Hlen, length_range, Z.sub_0_r. done.
Qed.

(** A duplicate-free list of candidate positions is no longer than the candidates. *)
Lemma nodup_le {A} (V C : list A) :
  NoDup V -> (forall v, v ∈ V -> v ∈ C) -> (length V <= length C)%nat.
Proof.
  intros Hnd Hsub. apply NoDup_incl_length.
  - by apply NoDup_ListNoDup.
  - intros v Hv. apply list_elem_of_In, Hsub, list_elem_of_In, Hv.
Qed.

Lemma walk_end_in rows cols (adj : cell -> cell -> Prop) start l :
  (forall u w, adj u w -> in_bounds rows cols w = true) ->
  walk adj start l -> walk_end start l = start \/ in_bounds rows cols (walk_end start l) = true.
Proof.
  intros Hadj. revert start. induction l as [|x l IH] using rev_ind; intros start; simpl.
  - by left.
  - intros Hw. apply SearchFacts.walk_snoc in Hw as [_ Hx]. rewrite SearchFacts.walk_end_snoc.
    right. eauto.
Qed.

End GridSearch.

(** ** [pathfinding.py]: [a_star_path] *)
Module PathFacts.
Import SearchFacts GridSearch.

Section PathLoop.
Variables (rk : Rack) (end_ start : cell).

Local Abbreviation adj := (grid_adj (rows rk) (cols rk)).
Local Abbreviation hd := (fun x => Path.calculate_distance x end_).
Local Abbreviation cands := (start :: all_cells (rows rk) (cols rk)).

Lemma path_hd_consistent x y : adj x y -> hd x <= 1 + hd y.
Proof. unfold grid_adj, manhattan, Path.calculate_distance. lia. Qed.

Lemma explore_spec e H :
  exists P, Path.explore rk end_ e H = H ++ P /\ (length P <= 4)%nat /\
    (forall x, x ∈ P -> adj (pos e) (pos x) /\ cost x = cost e + 1 /\
                        prio x = cost x + hd (pos x) /\ epath x = epath e ++ [pos x]) /\
    (forall w, adj (pos e) w -> exists x, x ∈ P /\ pos x = w).
Proof.
  set (f := fun d : Z * Z =>
    let nb := ((pos e).1 + d.1, (pos e).2 + d.2) in
    if in_bounds (rows rk) (cols rk) nb
    then [mkEntry (cost e + 1 + Path.calculate_distance nb end_) (cost e + 1) nb (epath e ++ [nb])]
    else []).
  exists (flat_map f directions). split; [|split; [|split]].
  - unfold Path.explore. rewrite <- fold_left_push.
    apply GameFacts.fold_left_ext. intros h d. unfold f, heap_push.
    destruct in_bounds; [done|]. by rewrite app_nil_r.
  - change 4%nat with (length directions). apply length_flat_map_le.
    intros d. unfold f. destruct in_bounds; simpl; lia.
  - intros x Hx. apply list_elem_of_In, in_flat_map in Hx as (d & Hd & Hx).
    unfold f in Hx. destruct in_bounds eqn:Hin; [|inversion Hx].
    destruct Hx as [<-|[]]; simpl. split; [|split; [done|split; [lia|done]]].
    split; [done|]. apply manhattan_dirs. exists d. split; [by apply list_elem_of_In|done].
  - intros w [Hin Hm]. apply manhattan_dirs in Hm as (d & Hd & ->).
    set (nb := ((pos e).1 + d.1, (pos e).2 + d.2)).
    exists (mkEntry (cost e + 1 + Path.calculate_distance nb end_) (cost e + 1) nb (epath e ++ [nb])).
    split; [|reflexivity]. apply list_elem_of_In, in_flat_map.
    exists d. split; [by apply list_elem_of_In|]. unfold f. simpl in Hin |- *. rewrite Hin. by left.
Qed.

Local Abbreviation LInv H V :=
  (frontier_inv pos cost prio adj hd start H V /\
   (forall e, e ∈ H -> exists l, epath e = start :: l /\ walk adj start l /\
                                 walk_end start l = pos e /\ Z.of_nat (length l) = cost e) /\
   NoDup V /\ (forall v, v ∈ V -> v ∈ cands) /\ end_ ∉ V).

Local Abbreviation Res r :=
  ((r = ([], Path.Inf) /\ forall l, walk adj start l -> walk_end start l <> end_) \/
   (exists l, r = (start :: l, Path.Fin (Z.of_nat (length l))) /\ walk adj start l /\
      walk_end start l = end_ /\
      forall l', walk adj start l' -> walk_end start l' = end_ -> (length l <= length l')%nat)).

Lemma path_loop_spec fuel H V :
  LInv H V -> (5 * (length cands - length V) + length H < fuel)%nat ->
  exists r, Path.a_star_loop rk end_ fuel H V = Some r /\ Res r.
Proof.
  revert H V. induction fuel as [|fuel IH]; intros H V Hinv Hfuel; [lia|]. simpl.
  destruct Hinv as (Hfr & Hpaths & Hnd & Hsub & Hend).
  destruct (heap_pop H) as [[e H']|] eqn:Hpop.
  2:{ apply heap_pop_none in Hpop. subst H. eexists. split; [reflexivity|].
      left. split; [done|]. intros l Hl Hl'. apply Hend. rewrite <- Hl'.
      exact (frontier_empty pos cost prio adj hd start path_hd_consistent V l Hfr Hl). }
  apply heap_pop_spec in Hpop as [Hperm Hmin].
  assert (He : e ∈ H) by (rewrite Hperm; left).
  destruct (Hpaths e He) as (l & Hp & Hl & Hle & Hlen).
  assert (Hopt : pos e ∉ V -> forall l', walk adj start l' -> walk_end start l' = pos e ->
                 cost e <= Z.of_nat (length l')).
  { intros Hnv l' Hl' Hle'.
    exact (frontier_pop_opt pos cost prio adj hd start path_hd_consistent H V e l' Hfr He Hmin Hnv Hl' Hle'). }
  pose proof (Permutation_length Hperm) as HlenH. simpl in HlenH.
  case_bool_decide as Heq.
  - eexists. split; [reflexivity|]. right. exists l. rewrite Hp, <- Hlen.
    split; [done|]. split; [done|]. split; [congruence|].
    intros l' Hl' Hle'. rewrite <- Heq in Hle'.
    specialize (Hopt ltac:(by rewrite Heq) l' Hl' Hle'). lia.
  - case_bool_decide as Hvis.
    + apply IH; [|lia]. split; [|split; [|done]].
      * exact (frontier_skip pos cost prio adj hd start H H' V e Hfr Hperm Hvis).
      * intros x Hx. apply Hpaths. by eapply perm_elem_2.
    + destruct (explore_spec e H') as (P & -> & HlenP & HP & Hcomp).
      assert (Hcand : pos e ∈ cands).
      { destruct (walk_end_in (rows rk) (cols rk) adj start l (fun u w Huw => proj1 Huw) Hl)
          as [Hs|Hs]; rewrite Hle in Hs; [rewrite Hs; left|right; by apply elem_of_all_cells]. }
      assert (HlenV : (S (length V) <= length cands)%nat).
      { apply (nodup_le (pos e :: V)); [by constructor|].
        intros v Hv. apply elem_of_cons in Hv as [->|Hv]; auto. }
      apply IH.
      2:{ rewrite length_app. change (length (pos e :: V)) with (S (length V)). lia. }
      split; [|split; [|split; [|split]]].
      * apply (frontier_expand pos cost prio adj hd start H H' V e P Hfr Hperm Hvis (Hopt Hvis)).
        -- intros w Hw. right. destruct (Hcomp w Hw) as (x & Hx & <-).
           exists x. split; [done|]. split; [done|].
           destruct (HP x Hx) as (_ & Hc & Hpr & _). lia.
        -- intros x Hx. left. apply (HP x Hx).
      * intros x Hx. apply elem_of_app in Hx as [Hx|Hx].
        -- apply Hpaths. by eapply perm_elem_2.
        -- destruct (HP x Hx) as (Hadj & Hc & _ & Hpx). exists (l ++ [pos x]).
           rewrite Hpx, Hp. split; [done|]. split.
           ++ apply walk_snoc. split; [done|]. by rewrite Hle.
           ++ split; [apply walk_end_snoc|]. rewrite length_app. simpl. lia.
      * by constructor.
      * intros v Hv. apply elem_of_cons in Hv as [->|Hv]; auto.
      * intros Hv. apply elem_of_cons in Hv as [Hv|Hv]; [|done]. by apply Heq.
Qed.

Lemma a_star_path_result :
  exists r, Path.a_star_path start end_ rk = Some r /\ Res r.
Proof.
  unfold Path.a_star_path. apply path_loop_spec.
  - split; [|split; [|split; [|split]]].
    + apply frontier_init; simpl; [done|lia|left; lia].
    + intros x Hx. apply list_elem_of_singleton in Hx. subst x. exists []. simpl.
      repeat split; lia.
    + constructor.
    + intros v Hv. inversion Hv.
    + intros Hv. inversion Hv.
  - unfold search_fuel. simpl length. rewrite length_all_cells. simpl. lia.
Qed.

End PathLoop.

End PathFacts.

(** * Claims about the travel planner [a_star_path] ([pathfinding.py]) *)

(** C9: for in-bounds [start] and [end], whatever the cells hold, [a_star_path]
    returns a non-empty path, a walk of in-bounds 4-neighbour moves from [start]
    to [end], with cost exactly the Manhattan distance [calculate_distance]. *)
Theorem a_star_path_manhattan (rk : Rack) (start end_ : cell) :
  in_bounds (rows rk) (cols rk) start = true -> in_bounds (rows rk) (cols rk) end_ = true ->
  exists l, Path.a_star_path start end_ rk =
              Some (start :: l, Path.Fin (Path.calculate_distance start end_)) /\
            walk (grid_adj (rows rk) (cols rk)) start l /\ walk_end start l = end_.
Proof.
  intros Hs He.
  destruct (SearchFacts.staircase (rows rk) (cols rk) start end_ Hs He) as (l0 & Hl0 & Hend0 & Hlen0).
  destruct (PathFacts.a_star_path_result rk end_ start)
    as (r & Hr & [[-> Hno]|(l & -> & Hl & Hend & Hmin)]).
  - exfalso. exact (Hno l0 Hl0 Hend0).
  - exists l. split; [|done]. rewrite Hr. do 3 f_equal.
    specialize (Hmin l0 Hl0 Hend0).
    pose proof (SearchFacts.manhattan_walk (rows rk) (cols rk) start l Hl) as Hm.
    rewrite Hend in Hm. unfold Path.calculate_distance. unfold manhattan in Hm, Hlen0. lia.
Qed.

Lemma a_star_path_manhattan_witness :
  exists l, Path.a_star_path (4, 0) (0, 3) (new_rack 5 5) =
              Some ((4, 0) :: l, Path.Fin (Path.calculate_distance (4, 0) (0, 3))) /\
            walk (grid_adj (rows (new_rack 5 5)) (cols (new_rack 5 5))) (4, 0) l /\
            walk_end (4, 0) l = (0, 3).
Proof. apply (a_star_path_manhattan (new_rack 5 5) (4, 0) (0, 3)); reflexivity. Defined.

(** C8 (counterexample): with [start == end] the planner returns the one-cell
    path [[start]] with cost 0, not an empty sequence. *)
Lemma a_star_path_same_cell :
  Path.a_star_path (0, 0) (0, 0) (new_rack 5 5) = Some ([(0, 0)], Path.Fin 0).
Proof. vm_compute. reflexivity. Qed.

(** C8 (amended): [a_star_path] returns [([start], 0)] when [start == end]; for
    an in-bounds [start] different from [end] it returns the empty path, with
    cost [float('inf')], exactly when [end] lies outside the grid (and a
    non-empty path with a finite cost otherwise). *)
Theorem a_star_path_empty_iff (rk : Rack) (start end_ : cell) :
  (start = end_ -> Path.a_star_path start end_ rk = Some ([start], Path.Fin 0)) /\
  (in_bounds (rows rk) (cols rk) start = true -> start <> end_ ->
   exists p c, Path.a_star_path start end_ rk = Some (p, c) /\
     (p = [] <-> in_bounds (rows rk) (cols rk) end_ = false) /\ (c = Path.Inf <-> p = [])).
Proof.
  split.
  - intros <-. unfold Path.a_star_path, search_fuel.
    rewrite Nat.add_comm. cbn [Nat.add Path.a_star_loop heap_pop fold_left].
    rewrite bool_decide_eq_true_2 by reflexivity. reflexivity.
  - intros Hs Hne.
    destruct (PathFacts.a_star_path_result rk end_ start)
      as (r & Hr & [[-> Hno]|(l & -> & Hl & Hend & Hmin)]).
    + exists [], Path.Inf. split; [done|]. split; [|done]. split; [|done]. intros _.
      destruct (in_bounds (rows rk) (cols rk) end_) eqn:He; [|done]. exfalso.
      destruct (SearchFacts.staircase (rows rk) (cols rk) start end_ Hs He) as (l0 & Hl0 & Hend0 & _).
      exact (Hno l0 Hl0 Hend0).
    + eexists _, _. split; [exact Hr|]. split; [|split; discriminate].
      split; [discriminate|]. intros Hout.
      destruct (GridSearch.walk_end_in (rows rk) (cols rk) _ start l (fun u w Huw => proj1 Huw) Hl)
        as [Hx|Hx]; rewrite Hend in Hx; congruence.
Qed.

Lemma a_star_path_empty_iff_witness :
  Path.a_star_path (0, 0) (0, 0) (new_rack 3 3) = Some ([(0, 0)], Path.Fin 0) /\
  exists p c, Path.a_star_path (0, 0) (5, 5) (new_rack 3 3) = Some (p, c) /\
    (p = [] <-> in_bounds (rows (new_rack 3 3)) (cols (new_rack 3 3)) (5, 5) = false) /\
    (c = Path.Inf <-> p = []).
Proof.
  split.
  - apply (proj1 (a_star_path_empty_iff (new_rack 3 3) (0, 0) (0, 0))). reflexivity.
  - apply (proj2 (a_star_path_empty_iff (new_rack 3 3) (0, 0) (5, 5))); [reflexivity|discriminate].
Defined.

(** ** [A_star.py]: [a_star_pathfinding] *)
Module AStarFacts.
Import SearchFacts GridSearch.

Lemma py_for_inv {A B} (Q : A -> Prop) (f : A -> B -> option A) (l : list B) (a a' : A) :
  (forall a x a', x ∈ l -> f a x = Some a' -> Q a -> Q a') ->
  Q a -> py_for f l a = Some a' -> Q a'.
Proof.
  intros Hstep. revert a. induction l as [|x l IH]; intros a Ha; simpl.
  - by intros [= <-].
  - destruct (f a x) as [a1|] eqn:Hf; [|discriminate].
    apply IH; [|eapply Hstep; eauto; left].
    intros b y b' Hy. apply Hstep. by right.
Qed.

(** Without any assumption on the grid: every entry pushed by [expand] extends
    the path of the expanded entry by a free in-bounds neighbour. *)
Lemma expand_paths grid rows cols goal start e V H H'' :
  (exists l, epath e = start :: l /\ walk (free_adj grid rows cols) start l /\
             walk_end start l = pos e) ->
  (forall x, x ∈ H -> exists l, epath x = start :: l /\ walk (free_adj grid rows cols) start l /\
                                walk_end start l = pos x) ->
  AStar.expand grid rows cols goal e V H = Some H'' ->
  forall x, x ∈ H'' -> exists l, epath x = start :: l /\ walk (free_adj grid rows cols) start l /\
                                 walk_end start l = pos x.
Proof.
  intros (l & Hp & Hl & Hle) HH Hexp.
  refine (py_for_inv (fun a => forall x, x ∈ a -> exists l, epath x = start :: l /\
                        walk (free_adj grid rows cols) start l /\ walk_end start l = pos x)
                     _ _ _ _ _ HH Hexp).
  intros h d h' Hd Hbody Hh. cbv zeta in Hbody.
  destruct (in_bounds rows cols ((pos e).1 + d.1, (pos e).2 + d.2)) eqn:Hin; simpl in Hbody;
    [|injection Hbody as <-; exact Hh].
  destruct (cell_at grid ((pos e).1 + d.1) ((pos e).2 + d.2)) as [v|] eqn:Hv; [|discriminate].
  destruct (String.eqb v "X") eqn:HX; [injection Hbody as <-; exact Hh|].
  case_bool_decide; [injection Hbody as <-; exact Hh|].
  injection Hbody as <-. unfold heap_push. intros x Hx.
  apply elem_of_app in Hx as [Hx|Hx]; [auto|].
  apply list_elem_of_singleton in Hx. subst x. simpl.
  exists (l ++ [((pos e).1 + d.1, (pos e).2 + d.2)]). rewrite Hp. split; [done|]. split.
  - apply walk_snoc. split; [done|]. rewrite Hle. split; [split; [done|]|].
    + apply manhattan_dirs. exists d. by split.
    + exists v. split; [exact Hv|exact HX].
  - apply walk_end_snoc.
Qed.

Lemma search_paths grid rows cols goal start fuel H V p :
  (forall x, x ∈ H -> exists l, epath x = start :: l /\ walk (free_adj grid rows cols) start l /\
                                walk_end start l = pos x) ->
  AStar.search grid rows cols goal fuel H V = Some (Some p) ->
  exists l, p = start :: l /\ walk (free_adj grid rows cols) start l /\ walk_end start l = goal.
Proof.
  revert H V. induction fuel as [|fuel IH]; intros H V HH; simpl; [discriminate|].
  destruct (heap_pop H) as [[e H']|] eqn:Hpop; [|discriminate].
  apply heap_pop_spec in Hpop as [Hperm _].
  assert (HH' : forall x, x ∈ H' -> exists l, epath x = start :: l /\
                  walk (free_adj grid rows cols) start l /\ walk_end start l = pos x).
  { intros x Hx. apply HH. by eapply perm_elem_2. }
  assert (He : e ∈ H) by (rewrite Hperm; left).
  case_bool_decide; [by apply IH|].
  case_bool_decide as Hgoal.
  - intros [= <-]. destruct (HH e He) as (l & Hp & Hl & Hle). exists l. by rewrite Hle.
  - destruct (AStar.expand _ _ _ _ _ _ _) as [H''|] eqn:Hexp; [|discriminate].
    apply IH. eapply expand_paths; eauto.
Qed.

Section AStarLoop.
Variables (grid : list (list string)) (rows cols : Z) (goal start : cell).
Hypothesis Hrect : rectangular grid rows cols.

Local Abbreviation adj := (free_adj grid rows cols).
Local Abbreviation hd := (fun x => AStar.heuristic x goal).
Local Abbreviation cands := (start :: all_cells rows cols).

Lemma search_hd_consistent x y : adj x y -> hd x <= 1 + hd y.
Proof. unfold free_adj, grid_adj, manhattan, AStar.heuristic. lia. Qed.

Lemma expand_spec e V H :
  exists P, AStar.expand grid rows cols goal e V H = Some (H ++ P) /\ (length P <= 4)%nat /\
    (forall x, x ∈ P -> adj (pos e) (pos x) /\ cost x = cost e + 1 /\
                        prio x = cost x + hd (pos x) /\ epath x = epath e ++ [pos x]) /\
    (forall w, adj (pos e) w -> w ∈ V \/ exists x, x ∈ P /\ pos x = w).
Proof.
  set (f := fun d : Z * Z =>
    let nb := ((pos e).1 + d.1, (pos e).2 + d.2) in
    if in_bounds rows cols nb then
      match cell_at grid nb.1 nb.2 with
      | Some v => if String.eqb v "X" then [] else if bool_decide (nb ∈ V) then []
                  else [mkEntry (cost e + 1 + AStar.heuristic nb goal) (cost e + 1) nb (epath e ++ [nb])]
      | None => []
      end
    else []).
  exists (flat_map f directions). split; [|split; [|split]].
  - unfold AStar.expand. rewrite <- fold_left_push.
    apply GameFacts.py_for_total. intros h d _. unfold f.
    destruct (in_bounds rows cols _) eqn:Hin; simpl; [|by rewrite app_nil_r].
    unfold in_bounds in Hin. simpl in Hin. rewrite !andb_true_iff, !Z.leb_le, !Z.ltb_lt in Hin.
    destruct (cell_at_rect grid rows cols ((pos e).1 + d.1) ((pos e).2 + d.2) Hrect)
      as [v Hv]; [lia|lia|].
    rewrite Hv. destruct (String.eqb v "X"); [by rewrite app_nil_r|].
    case_bool_decide; [by rewrite app_nil_r|]. reflexivity.
  - change 4%nat with (length directions). apply length_flat_map_le.
    intros d. unfold f. destruct in_bounds; [|simpl; lia].
    destruct cell_at as [v|]; [|simpl; lia].
    destruct String.eqb; [simpl; lia|]. case_bool_decide; simpl; lia.
  - intros x Hx. apply list_elem_of_In, in_flat_map in Hx as (d & Hd & Hx).
    unfold f in Hx. destruct in_bounds eqn:Hin; [|inversion Hx].
    destruct cell_at as [v|] eqn:Hv; [|inversion Hx].
    destruct String.eqb eqn:HX; [inversion Hx|].
    case_bool_decide; [inversion Hx|].
    destruct Hx as [<-|[]]; simpl. split; [|split; [done|split; [lia|done]]].
    split; [split; [done|]|].
    + apply manhattan_dirs. exists d. split; [by apply list_elem_of_In|done].
    + exists v. by split.
  - intros w [[Hin Hm] (v & Hv & HX)]. apply manhattan_dirs in Hm as (d & Hd & ->).
    destruct (decide (((pos e).1 + d.1, (pos e).2 + d.2) ∈ V)) as [?|Hnv]; [by left|right].
    set (nb := ((pos e).1 + d.1, (pos e).2 + d.2)) in *.
    exists (mkEntry (cost e + 1 + AStar.heuristic nb goal) (cost e + 1) nb (epath e ++ [nb])).
    split; [|reflexivity]. apply list_elem_of_In, in_flat_map.
    exists d. split; [by apply list_elem_of_In|]. unfold f. fold nb. rewrite Hin, Hv, HX.
    rewrite bool_decide_eq_false_2 by exact Hnv. by left.
Qed.

Local Abbreviation LInv H V :=
  (frontier_inv pos cost prio adj hd start H V /\
   (forall e, e ∈ H -> exists l, epath e = start :: l /\ walk adj start l /\
                                 walk_end start l = pos e /\ Z.of_nat (length l) = cost e) /\
   NoDup V /\ (forall v, v ∈ V -> v ∈ cands) /\ goal ∉ V).

Local Abbreviation Res r :=
  ((r = None /\ forall l, walk adj start l -> walk_end start l <> goal) \/
   (exists l, r = Some (start :: l) /\ walk adj start l /\ walk_end start l = goal /\
      forall l', walk adj start l' -> walk_end start l' = goal -> (length l <= length l')%nat)).

Lemma search_loop_spec fuel H V :
  LInv H V -> (5 * (length cands - length V) + length H < fuel)%nat ->
  exists r, AStar.search grid rows cols goal fuel H V = Some r /\ Res r.
Proof.
  revert H V. induction fuel as [|fuel IH]; intros H V Hinv Hfuel; [lia|]. simpl.
  destruct Hinv as (Hfr & Hpaths & Hnd & Hsub & Hgoal).
  destruct (heap_pop H) as [[e H']|] eqn:Hpop.
  2:{ apply heap_pop_none in Hpop. subst H. eexists. split; [reflexivity|].
      left. split; [done|]. intros l Hl Hl'. apply Hgoal. rewrite <- Hl'.
      exact (frontier_empty pos cost prio adj hd start search_hd_consistent V l Hfr Hl). }
  apply heap_pop_spec in Hpop as [Hperm Hmin].
  assert (He : e ∈ H) by (rewrite Hperm; left).
  destruct (Hpaths e He) as (l & Hp & Hl & Hle & Hlen).
  pose proof (Permutation_length Hperm) as HlenH. simpl in HlenH.
  case_bool_decide as Hvis.
  { apply IH; [|lia]. split; [|split; [|done]].
    - exact (frontier_skip pos cost prio adj hd start H H' V e Hfr Hperm Hvis).
    - intros x Hx. apply Hpaths. by eapply perm_elem_2. }
  assert (Hopt : forall l', walk adj start l' -> walk_end start l' = pos e ->
                 cost e <= Z.of_nat (length l')).
  { intros l' Hl' Hle'.
    exact (frontier_pop_opt pos cost prio adj hd start search_hd_consistent H V e l' Hfr He Hmin Hvis Hl' Hle'). }
  case_bool_decide as Heq.
  - eexists. split; [reflexivity|]. right. exists l. rewrite Hp.
    split; [done|]. split; [done|]. split; [congruence|].
    intros l' Hl' Hle'. rewrite <- Heq in Hle'. specialize (Hopt l' Hl' Hle'). lia.
  - destruct (expand_spec e (pos e :: V) H') as (P & -> & HlenP & HP & Hcomp).
    assert (Hcand : pos e ∈ cands).
    { destruct (walk_end_in rows cols adj start l (fun u w Huw => proj1 (proj1 Huw)) Hl)
        as [Hs|Hs]; rewrite Hle in Hs; [rewrite Hs; left|right; by apply elem_of_all_cells]. }
    assert (HlenV : (S (length V) <= length cands)%nat).
    { apply (nodup_le (pos e :: V)); [by constructor|].
      intros v Hv. apply elem_of_cons in Hv as [->|Hv]; auto. }
    apply IH.
    2:{ rewrite length_app. change (length (pos e :: V)) with (S (length V)). lia. }
    split; [|split; [|split; [|split]]].
    + apply (frontier_expand pos cost prio adj hd start H H' V e P Hfr Hperm Hvis Hopt).
      * intros w Hw. destruct (Hcomp w Hw) as [?|(x & Hx & <-)]; [by left|right].
        exists x. split; [done|]. split; [done|].
        destruct (HP x Hx) as (_ & Hc & Hpr & _). lia.
      * intros x Hx. left. apply (HP x Hx).
    + intros x Hx. apply elem_of_app in Hx as [Hx|Hx].
      * apply Hpaths. by eapply perm_elem_2.
      * destruct (HP x Hx) as (Hadj & Hc & _ & Hpx). exists (l ++ [pos x]).
        rewrite Hpx, Hp. split; [done|]. split.
        -- apply walk_snoc. split; [done|]. by rewrite Hle.
        -- split; [apply walk_end_snoc|]. rewrite length_app. simpl. lia.
    + by constructor.
    + intros v Hv. apply elem_of_cons in Hv as [->|Hv]; auto.
    + intros Hv. apply elem_of_cons in Hv as [Hv|Hv]; [|done]. by apply Heq.
Qed.

Lemma a_star_pathfinding_result :
  0 < rows ->
  exists r, AStar.a_star_pathfinding grid start goal = Some r /\ Res r.
Proof.
  intros Hrows. pose proof Hrect as [Hlen Hrowlen].
  assert (exists row0 g', grid = row0 :: g') as (row0 & g' & Hg).
  { destruct grid as [|row0 g']; [simpl in Hlen; lia|]. by exists row0, g'. }
  unfold AStar.a_star_pathfinding. rewrite py_get_nonneg by lia.
  rewrite Hlen, Hg. simpl.
  rewrite Hg in Hrowlen. pose proof (Forall_inv Hrowlen) as Hrow0. simpl in Hrow0. rewrite Hrow0.
  rewrite <- Hg. apply search_loop_spec.
  - split; [|split; [|split; [|split]]].
    + apply frontier_init; simpl; [done| |right; done].
      unfold AStar.heuristic. lia.
    + intros x Hx. apply list_elem_of_singleton in Hx. subst x. exists []. simpl.
      repeat split; lia.
    + constructor.
    + intros v Hv. inversion Hv.
    + intros Hv. inversion Hv.
  - unfold search_fuel. simpl length. rewrite length_all_cells. simpl. lia.
Qed.

End AStarLoop.

End AStarFacts.

(** * Claims about the obstacle-aware planner [a_star_pathfinding] ([A_star.py])
      and the travel planner [a_star_path] on occupied racks *)

(** C1 (counterexample): the app's planner [a_star_path] does not check
    occupancy: on a 1 x 3 rack whose middle cell holds a box it plans straight
    through that cell. *)
Lemma a_star_path_through_occupied :
  exists rk, Core.place_box (new_rack 1 3) 7 0 1 1 = Some rk /\
    cell_at (grid rk) 0 1 = Some (Some 7) /\
    Path.a_star_path (0, 0) (0, 2) rk = Some ([(0, 0); (0, 1); (0, 2)], Path.Fin 2).
Proof. eexists. split; [reflexivity|]. split; vm_compute; reflexivity. Qed.

(** C1 (amended): the obstacle-aware planner of [A_star.py] only expands
    in-bounds neighbours that are not ['X']: any path it returns is [start]
    followed by a walk of 4-neighbour moves, from [start] to [goal], every cell
    of which lies in the grid ([rows = len(grid)], [cols = len(grid[0])]) and
    is not ['X']; only the start cell is exempt. *)
Theorem a_star_pathfinding_free_path (grid : list (list string)) (start goal : cell)
    (p : list cell) :
  AStar.a_star_pathfinding grid start goal = Some (Some p) ->
  exists l, p = start :: l /\
    walk (free_adj grid (Z.of_nat (length grid)) (Z.of_nat (length (List.hd [] grid)))) start l /\
    walk_end start l = goal.
Proof.
  unfold AStar.a_star_pathfinding.
  destruct (py_get grid 0) as [row0|] eqn:Hrow0; [|discriminate].
  assert (row0 = List.hd [] grid) as ->.
  { rewrite py_get_nonneg in Hrow0 by lia. destruct grid; [discriminate|]. cbn in Hrow0. injection Hrow0 as ->. reflexivity. }
  apply AStarFacts.search_paths.
  intros x Hx. apply list_elem_of_singleton in Hx. subst x. by exists [].
Qed.

Lemma a_star_pathfinding_free_path_witness :
  exists l, [(0, 0); (0, 1); (1, 1)] = (0, 0) :: l /\
    walk (free_adj [["."; "."]; ["."; "."]]
                   (Z.of_nat (length [["."; "."]; ["."; "."]]))
                   (Z.of_nat (length (List.hd [] [["."; "."]; ["."; "."]])))) (0, 0) l /\
    walk_end (0, 0) l = (1, 1).
Proof.
  apply (a_star_pathfinding_free_path [["."; "."]; ["."; "."]] (0, 0) (1, 1)).
  vm_compute. reflexivity.
Defined.

(** C2 (counterexample): the app's planner [a_star_path] ignores occupied
    cells, so around a wall of boxes it returns a 2-step path while every walk
    over free cells from [(0, 0)] to [(0, 2)] needs more than 2 steps (one of
    6 steps exists). *)
Lemma a_star_path_shorter_than_free_walks :
  Path.a_star_path (0, 0) (0, 2)
    (mkRack 3 3 [[None; Some 7; None]; [None; Some 7; None]; [None; None; None]] ∅) =
    Some ([(0, 0); (0, 1); (0, 2)], Path.Fin 2) /\
  (exists l, walk (fun u w => grid_adj 3 3 u w /\
                 cell_at [[None; Some 7; None]; [None; Some 7; None]; [None; None; None]] w.1 w.2
                   = Some None) (0, 0) l /\
             walk_end (0, 0) l = (0, 2) /\ length l = 6%nat) /\
  (forall l, walk (fun u w => grid_adj 3 3 u w /\
                 cell_at [[None; Some 7; None]; [None; Some 7; None]; [None; None; None]] w.1 w.2
                   = Some None) (0, 0) l ->
             walk_end (0, 0) l = (0, 2) -> (2 < length l)%nat).
Proof.
  split; [vm_compute; reflexivity|]. split.
  - exists [(1, 0); (2, 0); (2, 1); (2, 2); (1, 2); (0, 2)].
    split; [|split; reflexivity]. simpl. repeat split; reflexivity.
  - intros l Hl Hend.
    pose proof (SearchFacts.manhattan_walk 3 3 (0, 0) l
                  (SearchFacts.walk_mono _ _ _ _ (fun u w H => proj1 H) Hl)) as Hm.
    rewrite Hend in Hm. unfold manhattan in Hm. simpl in Hm.
    destruct l as [|a [|b [|c l']]]; simpl in Hm |- *; try lia.
    simpl in Hl, Hend. subst b.
    destruct Hl as [[[_ Ha] Hfree] [[[_ Hb] _] _]].
    destruct a as [a1 a2]. unfold manhattan in Ha, Hb. simpl in Ha, Hb.
    assert (a1 = 0 /\ a2 = 1) as [-> ->] by lia. discriminate Hfree.
Qed.

(** C2 (amended): for [A_star.py] on a rectangular grid with at least one row,
    whenever some walk over free in-bounds cells leads from [start] to [goal],
    [a_star_pathfinding] returns [start] followed by such a walk, and that walk
    has the fewest steps of all of them (the path lists [steps + 1] cells). *)
Theorem a_star_pathfinding_shortest (grid : list (list string)) (rows cols : Z)
    (start goal : cell) (l0 : list cell) :
  rectangular grid rows cols -> 0 < rows ->
  walk (free_adj grid rows cols) start l0 -> walk_end start l0 = goal ->
  exists l, AStar.a_star_pathfinding grid start goal = Some (Some (start :: l)) /\
    walk (free_adj grid rows cols) start l /\ walk_end start l = goal /\
    forall l', walk (free_adj grid rows cols) start l' -> walk_end start l' = goal ->
      (length l <= length l')%nat.
Proof.
  intros Hrect Hrows Hl0 Hend0.
  destruct (AStarFacts.a_star_pathfinding_result grid rows cols goal start Hrect Hrows)
    as (r & Hr & [[-> Hno]|(l & -> & Hl & Hend & Hmin)]).
  - exfalso. exact (Hno l0 Hl0 Hend0).
  - exists l. auto.
Qed.

Lemma a_star_pathfinding_shortest_witness :
  exists l, AStar.a_star_pathfinding [["."; "X"; "."]; ["."; "X"; "."]; ["."; "."; "."]]
              (0, 0) (0, 2) = Some (Some ((0, 0) :: l)) /\
    walk (free_adj [["."; "X"; "."]; ["."; "X"; "."]; ["."; "."; "."]] 3 3) (0, 0) l /\
    walk_end (0, 0) l = (0, 2) /\
    forall l', walk (free_adj [["."; "X"; "."]; ["."; "X"; "."]; ["."; "."; "."]] 3 3) (0, 0) l' ->
      walk_end (0, 0) l' = (0, 2) -> (length l <= length l')%nat.
Proof.
  apply (a_star_pathfinding_shortest [["."; "X"; "."]; ["."; "X"; "."]; ["."; "."; "."]] 3 3
           (0, 0) (0, 2) [(1, 0); (2, 0); (2, 1); (2, 2); (1, 2); (0, 2)]).
  - split; [reflexivity|]. repeat constructor.
  - lia.
  - simpl. repeat split; try reflexivity; eexists; split; reflexivity.
  - reflexivity.
Defined.

(** ** [asrs-complete.py]: the breadth-first slot search *)
Module BfsFacts.
Import SearchFacts GridSearch.

Lemma can_fit_spec (rk : Rack) row col size :
  rectangular (grid rk) (rows rk) (cols rk) -> 0 <= row -> 0 <= col ->
  exists b, Complete._can_fit rk row col size = Some b /\ (b = true <-> slot_fits rk size row col).
Proof.
  intros Hg Hrow Hcol. unfold Complete._can_fit, slot_fits.
  destruct ((rows rk <? row + size) || (cols rk <? col + size)) eqn:Hb.
  - exists false. split; [done|]. split; [discriminate|].
    intros (_ & _ & H1 & H2 & _).
    apply orb_true_iff in Hb as [H|H]; apply Z.ltb_lt in H; lia.
  - apply orb_false_iff in Hb as [H1 H2]. apply Z.ltb_ge in H1, H2.
    destruct (GameFacts.py_all_total
      (fun r => py_all (fun c => let? v := cell_at (grid rk) r c in Some (bool_decide (v = None)))
                       (range col (col + size)))
      (range row (row + size))) as (b & Hb & Hiff).
    { intros r Hr%elem_of_range.
      destruct (GameFacts.py_all_total (fun c => let? v := cell_at (grid rk) r c in
                                                   Some (bool_decide (v = None)))
                                        (range col (col + size))) as (b' & Hb' & _).
      - intros c Hc%elem_of_range.
        destruct (cell_at_rect _ _ _ r c Hg) as [v Hv]; [lia|lia|].
        rewrite Hv. discriminate.
      - rewrite Hb'. discriminate. }
    exists b. split; [exact Hb|]. rewrite Hiff. split.
    + intros Hall. do 4 (split; [lia|]). intros r c Hr Hc.
      apply GameFacts.cell_free_iff.
      apply (proj1 (py_all_true _ _) (Hall r (proj2 (elem_of_range _ _ _) Hr))).
      by apply elem_of_range.
    + intros (_ & _ & _ & _ & Hcells) r Hr%elem_of_range. apply py_all_true.
      intros c Hc%elem_of_range. apply GameFacts.cell_free_iff. auto.
Qed.

Lemma push_positions rows cols row col dist (ds : list (Z * Z)) :
  map qpos (flat_map (fun d =>
      let nb := (row + d.1, col + d.2) in
      if in_bounds rows cols nb then [(nb.1, nb.2, dist + 1)] else []) ds) =
  filter (fun q => in_bounds rows cols q = true) (map (fun d => (row + d.1, col + d.2)) ds).
Proof.
  cbv zeta. induction ds as [|d ds IH]; [done|].
  cbn [flat_map]. rewrite map_app, IH. cbn [map]. rewrite filter_cons.
  destruct (in_bounds rows cols (row + d.1, col + d.2)) eqn:Hb.
  - rewrite decide_True by done. reflexivity.
  - rewrite decide_False by congruence. reflexivity.
Qed.

Lemma push_spec rows cols row col dist :
  let P := flat_map (fun d =>
      let nb := (row + d.1, col + d.2) in
      if in_bounds rows cols nb then [(nb.1, nb.2, dist + 1)] else []) directions in
  (length P <= 4)%nat /\
  (forall x, x ∈ P -> grid_adj rows cols (row, col) (qpos x) /\ qdist x = dist + 1) /\
  (forall w, grid_adj rows cols (row, col) w -> exists x, x ∈ P /\ qpos x = w).
Proof.
  intros P. split; [|split].
  - change 4%nat with (length directions). apply length_flat_map_le.
    intros d. cbv zeta. destruct in_bounds; simpl; lia.
  - intros x Hx. apply list_elem_of_In, in_flat_map in Hx as (d & Hd & Hx).
    cbv zeta in Hx. destruct in_bounds eqn:Hin; [|inversion Hx].
    destruct Hx as [<-|[]]. unfold qpos, qdist; simpl. split; [|done].
    split; [done|]. apply manhattan_dirs. exists d. split; [by apply list_elem_of_In|done].
  - intros w [Hin Hm]. apply manhattan_dirs in Hm as (d & Hd & ->).
    exists (row + d.1, col + d.2, dist + 1). split; [|reflexivity].
    apply list_elem_of_In, in_flat_map.
    exists d. split; [by apply list_elem_of_In|]. cbv zeta. simpl in Hin |- *. rewrite Hin. by left.
Qed.

Local Abbreviation fifo Q :=
  (exists d Q1 Q2, Q = Q1 ++ Q2 /\ Forall (fun e => qdist e = d) Q1 /\
                   Forall (fun e => qdist e = d + 1) Q2).

(** The queue holds distances [d] then [d + 1]: its head has the least one. *)
Lemma fifo_pop e0 Q' :
  fifo (e0 :: Q') ->
  (forall e, e ∈ e0 :: Q' -> qdist e0 <= qdist e) /\ fifo Q' /\
  (forall P, Forall (fun e => qdist e = qdist e0 + 1) P -> fifo (Q' ++ P)).
Proof.
  intros (d & Q1 & Q2 & HQ & H1 & H2). destruct Q1 as [|x Q1'].
  - simpl in HQ. subst Q2. apply Forall_cons in H2 as [He0 H2].
    split; [|split].
    + intros e He. apply elem_of_cons in He as [->|He]; [lia|].
      rewrite Forall_forall in H2. specialize (H2 e He). lia.
    + exists (d + 1), Q', []. rewrite app_nil_r. split; [done|]. split; [done|constructor].
    + intros P HP. exists (d + 1), Q', P. split; [done|]. split; [done|].
      rewrite Forall_forall in HP |- *. intros e He. specialize (HP e He). lia.
  - injection HQ as <- HQ. subst Q'. apply Forall_cons in H1 as [He0 H1].
    split; [|split].
    + intros e He. apply elem_of_cons in He as [->|He]; [lia|].
      apply elem_of_app in He as [He|He].
      * rewrite Forall_forall in H1. specialize (H1 e He). lia.
      * rewrite Forall_forall in H2. specialize (H2 e He). lia.
    + exists d, Q1', Q2. done.
    + intros P HP. exists d, Q1', (Q2 ++ P). rewrite app_assoc. split; [done|]. split; [done|].
      apply Forall_app. split; [done|].
      rewrite Forall_forall in HP |- *. intros e He. specialize (HP e He). lia.
Qed.

Section BfsLoop.
Variables (rk : Rack) (size : Z) (origin : cell).
Hypothesis Hrect : rectangular (grid rk) (rows rk) (cols rk).
Hypothesis Horigin : in_bounds (rows rk) (cols rk) origin = true.

Local Abbreviation adj := (grid_adj (rows rk) (cols rk)).
Local Abbreviation h0 := (fun _ : cell => 0).
Local Abbreviation fits p := (slot_fits rk size p.1 p.2).
Local Abbreviation cells := (all_cells (rows rk) (cols rk)).

Lemma h0_consistent x y : adj x y -> h0 x <= 1 + h0 y.
Proof. intros _. cbv beta. lia. Qed.

Local Abbreviation BInv Q V :=
  (frontier_inv qpos qdist qdist adj h0 origin Q V /\
   (forall e, e ∈ Q -> in_bounds (rows rk) (cols rk) (qpos e) = true /\
                       manhattan origin (qpos e) <= qdist e) /\
   fifo Q /\ NoDup V /\ (forall v, v ∈ V -> in_bounds (rows rk) (cols rk) v = true)).

Local Abbreviation FirstFit L r :=
  ((r = None /\ forall q, q ∈ L -> ~ fits q) \/
   (exists pre p post, L = pre ++ p :: post /\ r = Some p /\ fits p /\ forall q, q ∈ pre -> ~ fits q)).

Lemma bfs_loop_spec fuel Q V :
  BInv Q V -> (5 * (length cells - length V) + length Q < fuel)%nat ->
  NoDup (bfs_visit_order (rows rk) (cols rk) fuel (map qpos Q) V) /\
  (forall x, x ∈ bfs_visit_order (rows rk) (cols rk) fuel (map qpos Q) V ->
             x ∉ V /\ in_bounds (rows rk) (cols rk) x = true) /\
  (forall q, in_bounds (rows rk) (cols rk) q = true ->
             q ∈ V \/ q ∈ bfs_visit_order (rows rk) (cols rk) fuel (map qpos Q) V) /\
  ((forall v, v ∈ V -> ~ fits v) ->
   exists r, Complete.bfs_loop rk size fuel Q V = Some r /\
     FirstFit (bfs_visit_order (rows rk) (cols rk) fuel (map qpos Q) V) r /\
     forall p, r = Some p -> in_bounds (rows rk) (cols rk) p = true /\
       forall q, in_bounds (rows rk) (cols rk) q = true -> fits q ->
         manhattan origin p <= manhattan origin q).
Proof.
  revert Q V. induction fuel as [|fuel IH]; intros Q V Hinv Hfuel; [lia|].
  destruct Hinv as (Hfr & HQ & Hfifo & Hnd & HV).
  destruct Q as [|e0 Q'].
  - cbn [map bfs_visit_order Complete.bfs_loop]. split; [constructor|]. split; [intros x Hx; inversion Hx|].
    split.
    + intros q Hq. left.
      destruct (staircase (rows rk) (cols rk) origin q Horigin Hq) as (l & Hl & Hend & _).
      rewrite <- Hend. exact (frontier_empty qpos qdist qdist adj h0 origin h0_consistent V l Hfr Hl).
    + intros _. exists None. split; [done|]. split; [left; split; [done|]; intros q Hq; inversion Hq|].
      discriminate.
  - destruct (fifo_pop e0 Q' Hfifo) as (Hmin & Hfifo' & Hpush).
    destruct e0 as [[row col] dist].
    cbn [map bfs_visit_order Complete.bfs_loop].
    change (qpos (row, col, dist)) with (row, col).
    case_bool_decide as Hvis.
    + assert (Hinv' : BInv Q' V).
      { split; [|split; [|split; [|split]]]; try done.
        - exact (frontier_skip qpos qdist qdist adj h0 origin _ Q' V (row, col, dist) Hfr (reflexivity _) Hvis).
        - intros e He. apply HQ. by right. }
      simpl length in Hfuel. apply (IH Q' V Hinv'). lia.
    + destruct (HQ (row, col, dist) ltac:(left)) as [Hin Hman].
      change (qpos (row, col, dist)) with (row, col) in Hin, Hman.
      assert (Hin' := Hin). unfold in_bounds in Hin'; simpl in Hin'.
      rewrite !andb_true_iff, !Z.leb_le, !Z.ltb_lt in Hin'.
      destruct (can_fit_spec rk row col size Hrect ltac:(lia) ltac:(lia)) as (b & Hb & Hiff).
      destruct (push_spec (rows rk) (cols rk) row col dist) as (HlenP & HP & Hcomp).
      set (P := flat_map _ directions) in HlenP, HP, Hcomp.
      assert (HmapP : map qpos P = filter (fun q => in_bounds (rows rk) (cols rk) q = true)
                                          (map (fun d => (row + d.1, col + d.2)) directions))
        by apply push_positions.
      assert (Hopt : forall l, walk adj origin l -> walk_end origin l = qpos (row, col, dist) ->
                     qdist (row, col, dist) <= Z.of_nat (length l)).
      { intros l Hl Hend.
        exact (frontier_pop_opt qpos qdist qdist adj h0 origin h0_consistent _ V (row, col, dist) l
                 Hfr ltac:(left) Hmin Hvis Hl Hend). }
      assert (Hinv' : BInv (Q' ++ P) ((row, col) :: V)).
      { split; [|split; [|split; [|split]]].
        - apply (frontier_expand qpos qdist qdist adj h0 origin _ Q' V (row, col, dist) P Hfr
                   (reflexivity _) Hvis Hopt).
          + intros w Hw. right. destruct (Hcomp w Hw) as (x & Hx & <-).
            exists x. split; [done|]. split; [done|]. destruct (HP x Hx) as [_ Hd].
            unfold qdist at 2. simpl. lia.
          + intros x Hx. left. lia.
        - intros e He. apply elem_of_app in He as [He|He]; [apply HQ; by right|].
          destruct (HP e He) as [[Hb' Hm] Hd]. split; [done|].
          revert Hman Hm Hd. unfold manhattan, qdist. simpl. lia.
        - apply Hpush. apply Forall_forall. intros x Hx. destruct (HP x Hx) as [_ Hd]. exact Hd.
        - by constructor.
        - intros v Hv. apply elem_of_cons in Hv as [->|Hv]; auto. }
      assert (HlenV : (S (length V) <= length cells)%nat).
      { apply (nodup_le ((row, col) :: V)); [by constructor|].
        intros v Hv. apply elem_of_all_cells. apply elem_of_cons in Hv as [->|Hv]; auto. }
      destruct (IH (Q' ++ P) ((row, col) :: V) Hinv') as (HndL & HL & Hcov & Hres).
      { rewrite length_app. change (length ((row, col) :: V)) with (S (length V)).
        simpl length in Hfuel. lia. }
      rewrite map_app, HmapP in HndL, HL, Hcov, Hres.
      split; [|split; [|split]].
      * constructor; [|done]. intros Hx. destruct (HL _ Hx) as [Hx' _]. apply Hx'. left.
      * intros x Hx. apply elem_of_cons in Hx as [->|Hx]; [done|].
        destruct (HL x Hx) as [Hx' Hb']. split; [|done]. intros Hv. apply Hx'. by right.
      * intros q Hq. destruct (Hcov q Hq) as [Hv|Hv].
        -- apply elem_of_cons in Hv as [->|Hv]; [right; left|by left].
        -- right. by right.
      * intros HnoV. rewrite Hb. destruct b.
        -- exists (Some (row, col)). split; [done|]. split.
           { right. exists [], (row, col), (bfs_visit_order (rows rk) (cols rk) fuel
                (map qpos Q' ++ filter (fun q => in_bounds (rows rk) (cols rk) q = true)
                   (map (fun d => (row + d.1, col + d.2)) directions)) ((row, col) :: V)).
             split; [done|]. split; [done|]. split; [by apply Hiff|]. intros q Hq. inversion Hq. }
           intros p [= <-]. split; [done|]. intros q Hq Hfq.
           destruct (staircase (rows rk) (cols rk) origin q Horigin Hq) as (l & Hl & Hend & Hlen).
           destruct (frontier_reach qpos qdist qdist adj h0 origin h0_consistent _ V l Hfr Hl)
             as [Hv|(e & He & Hk)].
           { rewrite Hend in Hv. by destruct (HnoV q Hv). }
           specialize (Hmin e He). cbv beta in Hk. unfold qdist in Hk, Hmin, Hman. simpl in Hmin, Hman. lia.
        -- destruct Hres as (r & Hr & Hff & Hbest).
           { intros v Hv. apply elem_of_cons in Hv as [->|Hv]; [|auto].
             intros Hf. apply Hiff in Hf. discriminate. }
           exists r. split; [exact Hr|]. split; [|exact Hbest].
           destruct Hff as [[-> Hnone]|(pre & p & post & Hsplit & -> & Hfp & Hpre)].
           ++ left. split; [done|]. intros q Hq. apply elem_of_cons in Hq as [->|Hq]; [|auto].
              intros Hf. apply Hiff in Hf. discriminate.
           ++ right. exists ((row, col) :: pre), p, post.
              split; [cbn [app]; f_equal; exact Hsplit|]. split; [done|]. split; [done|].
              intros q Hq. apply elem_of_cons in Hq as [->|Hq]; [|auto].
              intros Hf. apply Hiff in Hf. discriminate.
Qed.

End BfsLoop.

End BfsFacts.

(** * Claim about the breadth-first slot search ([asrs-complete.py]) *)

(** C5: for a rectangular grid and an origin cell of the grid, the breadth-
    first visiting order [bfs_visit_order] (up, down, left, right; the origin
    first) lists every in-bounds cell exactly once, and
    [find_nearest_empty_slot] returns the first cell of that order at which the
    footprint fits in bounds on empty cells, or [None] exactly when no
    in-bounds cell fits; a returned slot is no farther from the origin, in
    Manhattan distance, than any fitting cell. *)
Theorem find_nearest_empty_slot_bfs (rk : Rack) (size orow ocol : Z) :
  rectangular (grid rk) (rows rk) (cols rk) ->
  in_bounds (rows rk) (cols rk) (orow, ocol) = true ->
  let order := bfs_visit_order (rows rk) (cols rk) (search_fuel (rows rk) (cols rk))
                 [(orow, ocol)] [] in
  head order = Some (orow, ocol) /\ NoDup order /\
  (forall q, q ∈ order <-> in_bounds (rows rk) (cols rk) q = true) /\
  exists r, Complete.find_nearest_empty_slot rk size orow ocol = Some r /\
    ((r = None /\ forall q, q ∈ order -> ~ slot_fits rk size q.1 q.2) \/
     (exists pre p post, order = pre ++ p :: post /\ r = Some p /\ slot_fits rk size p.1 p.2 /\
        forall q, q ∈ pre -> ~ slot_fits rk size q.1 q.2)) /\
    (r = None <-> forall q, in_bounds (rows rk) (cols rk) q = true -> ~ slot_fits rk size q.1 q.2) /\
    (forall p, r = Some p -> forall q, in_bounds (rows rk) (cols rk) q = true ->
       slot_fits rk size q.1 q.2 -> manhattan (orow, ocol) p <= manhattan (orow, ocol) q).
Proof.
  intros Hrect Horig order.
  destruct (BfsFacts.bfs_loop_spec rk size (orow, ocol) Hrect Horig (search_fuel (rows rk) (cols rk))
              [(orow, ocol, 0)] []) as (Hnd & Hin & Hcov & Hres).
  { split; [|split; [|split; [|split]]].
    - apply SearchFacts.frontier_init; [reflexivity|cbv beta; unfold qdist; simpl; lia|left; cbv beta; lia].
    - intros e He. apply list_elem_of_singleton in He. subst e. split; [exact Horig|].
      unfold manhattan, qpos, qdist. simpl. lia.
    - exists 0, [(orow, ocol, 0)], []. split; [done|]. split; [by repeat constructor|constructor].
    - constructor.
    - intros v Hv. inversion Hv. }
  { unfold search_fuel. simpl length. rewrite GridSearch.length_all_cells. lia. }
  change (map qpos [(orow, ocol, 0)]) with [(orow, ocol)] in Hnd, Hin, Hcov, Hres.
  fold order in Hnd, Hin, Hcov, Hres.
  destruct Hres as (r & Hr & Hff & Hbest); [intros v Hv; inversion Hv|].
  split.
  { subst order. unfold search_fuel. rewrite Nat.add_comm. reflexivity. }
  split; [done|]. split.
  { intros q. split; [apply Hin|]. intros Hq. destruct (Hcov q Hq) as [Hv|Hv]; [inversion Hv|done]. }
  exists r. split; [exact Hr|]. split; [exact Hff|]. split.
  - split.
    + intros -> q Hq. destruct Hff as [[_ Hnone]|(pre & p & post & _ & Hp & _)]; [|discriminate].
      apply Hnone. destruct (Hcov q Hq) as [Hv|Hv]; [inversion Hv|done].
    + intros Hnone. destruct Hff as [[-> _]|(pre & p & post & Hsplit & -> & Hfp & _)]; [done|].
      exfalso. apply (Hnone p); [|done]. apply Hin. rewrite Hsplit.
      apply elem_of_app. right. left.
  - intros p Hp. exact (proj2 (Hbest p Hp)).
Qed.

Lemma find_nearest_empty_slot_bfs_witness :
  let rk := mkRack 3 3 [[None; None; None]; [None; None; None]; [Some 1; None; None]] ∅ in
  let order := bfs_visit_order (rows rk) (cols rk) (search_fuel (rows rk) (cols rk)) [(2, 0)] [] in
  head order = Some (2, 0) /\ NoDup order /\
  (forall q, q ∈ order <-> in_bounds (rows rk) (cols rk) q = true) /\
  exists r, Complete.find_nearest_empty_slot rk 1 2 0 = Some r /\
    ((r = None /\ forall q, q ∈ order -> ~ slot_fits rk 1 q.1 q.2) \/
     (exists pre p post, order = pre ++ p :: post /\ r = Some p /\ slot_fits rk 1 p.1 p.2 /\
        forall q, q ∈ pre -> ~ slot_fits rk 1 q.1 q.2)) /\
    (r = None <-> forall q, in_bounds (rows rk) (cols rk) q = true -> ~ slot_fits rk 1 q.1 q.2) /\
    (forall p, r = Some p -> forall q, in_bounds (rows rk) (cols rk) q = true ->
       slot_fits rk 1 q.1 q.2 -> manhattan (2, 0) p <= manhattan (2, 0) q).
Proof.
  apply (find_nearest_empty_slot_bfs
           (mkRack 3 3 [[None; None; None]; [None; None; None]; [Some 1; None; None]] ∅) 1 2 0).
  - split; [reflexivity|]. repeat constructor.
  - reflexivity.
Defined.

(** ** [game.py]: the rack's bookkeeping *)
Module GameRackFacts.

(** The nested footprint loop of [place_box] / [remove_box]. *)
Lemma fill_box {A} (g : list (list A)) rows cols sr sc (box : Game.Box) (x : A) :
  rectangular g rows cols -> 0 <= sr -> 0 <= sc ->
  sr + Game.box_width box <= rows -> sc + Game.box_length box <= cols ->
  py_for (fun g r => py_for (fun g c => set_cell g r c x)
                            (range sc (sc + Game.box_length box)) g)
         (range sr (sr + Game.box_width box)) g =
  Some (upd_grid (Game.covers box (sr, sc)) x g).
Proof.
  intros Hg Hr Hc Hw Hl. rewrite (fill_rows g rows cols).
  - f_equal. apply upd_grid_ext. intros i j. rewrite !existsb_range.
    unfold Game.covers. simpl. by rewrite !andb_assoc.
  - exact Hg.
  - intros r Hin%elem_of_range. lia.
  - intros c Hin%elem_of_range. lia.
Qed.

Lemma place_box_eq (rk : Game.Rack) (box : Game.Box) sr sc :
  rectangular (Game.grid rk) (Game.rows rk) (Game.cols rk) -> 0 <= sr -> 0 <= sc ->
  (~ Game.fits rk box sr sc -> Game.place_box rk box sr sc = Some (false, rk)) /\
  (Game.fits rk box sr sc ->
   Game.place_box rk box sr sc =
   Some (true, Game.mkRack (Game.rows rk) (Game.cols rk)
     (upd_grid (Game.covers box (sr, sc)) (Some (Game.next_box_id rk)) (Game.grid rk))
     (<[Game.next_box_id rk := Game.mkBox (Game.box_length box) (Game.box_width box)
                                          (Some (Game.next_box_id rk))]> (Game.boxes rk))
     (<[Game.next_box_id rk := (sr, sc)]> (Game.box_positions rk))
     (Game.next_box_id rk + 1) (Game.box_order rk ++ [Game.next_box_id rk]))).
Proof.
  intros Hg Hr Hc. destruct (GameFacts.can_place_box_spec rk box sr sc Hg Hr Hc) as (b & Hb & Hiff).
  unfold Game.place_box. rewrite Hb. split.
  - intros Hnf. destruct b; [exfalso; apply Hnf, Hiff; done|]. reflexivity.
  - intros Hf. destruct b; [|apply Hiff in Hf; discriminate]. cbn [negb].
    destruct Hf as (_ & _ & Hw & Hl & _).
    rewrite (fill_box _ (Game.rows rk) (Game.cols rk)) by done. reflexivity.
Qed.

Lemma py_remove_nodup (x : Z) (l : list Z) :
  NoDup l -> x ∈ l -> py_remove x l = Some (filter (fun y => y <> x) l).
Proof.
  induction l as [|y l IH]; intros Hnd Hx; [inversion Hx|].
  apply NoDup_cons in Hnd as [Hy Hnd]. cbn [py_remove].
  rewrite filter_cons. destruct (decide (y = x)) as [->|Hne].
  - rewrite decide_False by tauto. f_equal. clear IH Hx.
    induction l as [|z l IHl]; [done|]. apply NoDup_cons in Hnd as [Hz Hnd].
    rewrite filter_cons, decide_True by (intros ->; apply Hy; left).
    f_equal. apply IHl; [|done]. intros Hin. apply Hy. by right.
  - rewrite decide_True by done. apply elem_of_cons in Hx as [->|Hx]; [done|].
    rewrite IH by done. reflexivity.
Qed.

Lemma py_remove_snoc (x : Z) (l : list Z) : x ∉ l -> py_remove x (l ++ [x]) = Some l.
Proof.
  induction l as [|y l IH]; intros Hx; cbn [py_remove app].
  - by rewrite decide_True.
  - rewrite decide_False by (intros ->; apply Hx; left).
    rewrite IH by (intros Hin; apply Hx; by right). reflexivity.
Qed.

Lemma rack_cell (rk : Game.Rack) r c :
  rectangular (Game.grid rk) (Game.rows rk) (Game.cols rk) ->
  0 <= r < Game.rows rk -> 0 <= c < Game.cols rk ->
  exists v, cell_at (Game.grid rk) r c = Some v.
Proof. apply cell_at_rect. Qed.

(** A consistent rack stays consistent when [place_box] succeeds or refuses. *)
Lemma place_box_ok (rk : Game.Rack) (box : Game.Box) sr sc :
  Game.rack_ok rk -> 0 <= sr -> 0 <= sc ->
  exists b rk', Game.place_box rk box sr sc = Some (b, rk') /\ Game.rack_ok rk' /\
    (b = true <-> Game.fits rk box sr sc).
Proof.
  intros Hok Hr Hc. pose proof Hok as (Hrect & Hdom & Hnd & Hord & Hid & Hbnd & Hcell).
  destruct (place_box_eq rk box sr sc Hrect Hr Hc) as [Hno Hyes].
  destruct (GameFacts.can_place_box_spec rk box sr sc Hrect Hr Hc) as ([|] & _ & Hiff).
  2:{ assert (Hnf : ~ Game.fits rk box sr sc) by (intros Hf; apply Hiff in Hf; discriminate).
      exists false, rk. rewrite (Hno Hnf). split; [done|]. split; [done|]. split; [discriminate|tauto]. }
  assert (Hf : Game.fits rk box sr sc) by (apply Hiff; reflexivity).
  exists true. eexists. rewrite (Hyes Hf). split; [reflexivity|]. split; [|tauto].
  set (n := Game.next_box_id rk).
  assert (Hfresh : Game.boxes rk !! n = None).
  { destruct (Game.boxes rk !! n) as [b0|] eqn:E; [|done]. apply Hid in E. lia. }
  assert (Hnotin : n ∉ Game.box_order rk).
  { intros Hin. apply Hord in Hin. rewrite Hfresh in Hin. by destruct Hin. }
  pose proof Hf as (_ & _ & Hw & Hl & Hfree).
  split; [by apply rectangular_upd_grid|]. cbn [Game.rows Game.cols Game.grid Game.boxes
    Game.box_positions Game.next_box_id Game.box_order].
  split; [|split; [|split; [|split; [|split; [|]]]]].
  - intros bid. rewrite !lookup_insert_is_Some'. by rewrite Hdom.
  - apply NoDup_app. split; [done|]. split; [|apply NoDup_singleton].
    intros x Hx Hx'. apply list_elem_of_singleton in Hx'. subst x. contradiction.
  - intros bid. rewrite elem_of_app, list_elem_of_singleton, lookup_insert_is_Some', Hord.
    split; intros [H|H]; auto.
  - intros bid b0. rewrite lookup_insert_Some. intros [[<- <-]|[Hne Hb0]]; [simpl; split; [lia|done]|].
    destruct (Hid _ _ Hb0). split; [lia|done].
  - intros bid b0 p. rewrite !lookup_insert_Some.
    intros [[<- <-]|[Hne Hb0]] [[He <-]|[Hne' Hp]]; simpl; try congruence; [lia|eauto].
  - intros r c bid Hrr Hcc. rewrite (cell_at_upd_grid_in _ (Game.rows rk) (Game.cols rk)) by done.
    destruct (Game.covers box (sr, sc) r c) eqn:Hcov.
    + assert (Hfr : cell_at (Game.grid rk) r c = Some None).
      { unfold Game.covers in Hcov. simpl in Hcov.
        rewrite !andb_true_iff, !Z.leb_le, !Z.ltb_lt in Hcov. apply Hfree; lia. }
      split.
      * intros [= <-]. eexists _, _. rewrite !lookup_insert_eq. split; [done|]. split; [done|].
        exact Hcov.
      * intros (b0 & p & Hb0 & Hp & Hcov0). apply lookup_insert_Some in Hb0. apply lookup_insert_Some in Hp.
        destruct Hb0 as [[<- _]|[Hne Hb0]]; [done|].
        destruct Hp as [[? _]|[_ Hp]]; [contradiction|].
        assert (cell_at (Game.grid rk) r c = Some (Some bid)) as Hc'
          by (apply Hcell; [done|done|eauto]). congruence.
    + rewrite Hcell by done. split.
      * intros (b0 & p & Hb0 & Hp & Hcov0). assert (bid <> n) as Hne.
        { intros ->. congruence. }
        exists b0, p. rewrite !lookup_insert_ne by congruence. auto.
      * intros (b0 & p & Hb0 & Hp & Hcov0). apply lookup_insert_Some in Hb0. apply lookup_insert_Some in Hp.
        destruct Hb0 as [[<- <-]|[Hne Hb0]].
        { destruct Hp as [[_ <-]|[? _]]; [|contradiction]. unfold Game.covers in Hcov0.
          unfold Game.covers in Hcov. simpl in Hcov, Hcov0. congruence. }
        destruct Hp as [[? _]|[_ Hp]]; [contradiction|]. eauto.
Qed.

Lemma remove_box_eq (rk : Game.Rack) bid box :
  Game.rack_ok rk -> Game.boxes rk !! bid = Some box ->
  exists p, Game.box_positions rk !! bid = Some p /\
    Game.remove_box rk bid =
    Some (true, Game.mkRack (Game.rows rk) (Game.cols rk)
                  (upd_grid (Game.covers box p) None (Game.grid rk))
                  (delete bid (Game.boxes rk)) (delete bid (Game.box_positions rk))
                  (Game.next_box_id rk) (filter (fun y => y <> bid) (Game.box_order rk))).
Proof.
  intros (Hrect & Hdom & Hnd & Hord & Hid & Hbnd & Hcell) Hb.
  destruct (proj1 (Hdom bid) (mk_is_Some _ _ Hb)) as [p Hp].
  destruct (Hbnd _ _ _ Hb Hp) as (Hp1 & Hp2 & Hw & Hl).
  exists p. split; [done|]. unfold Game.remove_box. rewrite Hb, Hp.
  destruct p as [sr sc]. simpl in Hp1, Hp2, Hw, Hl.
  rewrite (fill_box _ (Game.rows rk) (Game.cols rk)) by done.
  rewrite py_remove_nodup by (done || (apply Hord; eauto)). reflexivity.
Qed.

(** A consistent rack stays consistent through [remove_box]. *)
Lemma remove_box_ok (rk : Game.Rack) bid box p :
  Game.rack_ok rk -> Game.boxes rk !! bid = Some box -> Game.box_positions rk !! bid = Some p ->
  Game.rack_ok (Game.mkRack (Game.rows rk) (Game.cols rk)
                  (upd_grid (Game.covers box p) None (Game.grid rk))
                  (delete bid (Game.boxes rk)) (delete bid (Game.box_positions rk))
                  (Game.next_box_id rk) (filter (fun y => y <> bid) (Game.box_order rk))).
Proof.
  intros Hok Hb Hp. pose proof Hok as (Hrect & Hdom & Hnd & Hord & Hid & Hbnd & Hcell).
  split; [by apply rectangular_upd_grid|]. cbn [Game.rows Game.cols Game.grid Game.boxes
    Game.box_positions Game.next_box_id Game.box_order].
  split; [|split; [|split; [|split; [|split; [|]]]]].
  - intros b. rewrite !lookup_delete_is_Some. by rewrite Hdom.
  - by apply NoDup_filter.
  - intros b. rewrite list_elem_of_filter, lookup_delete_is_Some, Hord. split; intros [H1 H2]; split; auto; congruence.
  - intros b b0. rewrite lookup_delete_Some. intros [_ Hb0]. eauto.
  - intros b b0 q. rewrite !lookup_delete_Some. intros [_ Hb0] [_ Hq]. eauto.
  - intros r c b Hr Hc. rewrite (cell_at_upd_grid_in _ (Game.rows rk) (Game.cols rk)) by done.
    assert (Hbc : Game.covers box p r c = true <-> cell_at (Game.grid rk) r c = Some (Some bid)).
    { rewrite Hcell by done. split; [eauto|].
      intros (b1 & q & Hb1 & Hq & Hcov). congruence. }
    destruct (Game.covers box p r c) eqn:Hcov.
    + split; [discriminate|]. intros (b0 & q & Hb0 & Hq & Hcov0).
      apply lookup_delete_Some in Hb0 as [Hne Hb0]. apply lookup_delete_Some in Hq as [_ Hq].
      assert (cell_at (Game.grid rk) r c = Some (Some b)) by (apply Hcell; eauto).
      assert (cell_at (Game.grid rk) r c = Some (Some bid)) by (apply Hbc; done). congruence.
    + rewrite Hcell by done. split.
      * intros (b0 & q & Hb0 & Hq & Hcov0). destruct (decide (b = bid)) as [->|Hne].
        { exfalso. rewrite Hb in Hb0. rewrite Hp in Hq. injection Hb0 as <-. injection Hq as <-.
          congruence. }
        exists b0, q. rewrite !lookup_delete_ne by congruence. auto.
      * intros (b0 & q & Hb0 & Hq & Hcov0).
        apply lookup_delete_Some in Hb0 as [_ Hb0]. apply lookup_delete_Some in Hq as [_ Hq]. eauto.
Qed.

(** [l[-1]] on a non-empty list. *)
Lemma py_get_last {A} (l : list A) (y : A) : py_get (l ++ [y]) (-1) = Some y.
Proof.
  unfold py_get, py_index. rewrite length_app. cbn [length].
  assert (E : (-1 <? - Z.of_nat (length l + 1)) || (Z.of_nat (length l + 1) <=? -1) = false)
    by (apply orb_false_iff; split; [apply Z.ltb_ge|apply Z.leb_gt]; lia).
  rewrite E.
  cbn -[Z.to_nat Z.add Z.of_nat].
  replace (Z.to_nat (-1 + Z.of_nat (length l + 1))) with (length l) by lia.
  cbn [mbind option_bind]. rewrite lookup_app_r by lia. by rewrite Nat.sub_diag.
Qed.

(** The consistent rack built by [Rack(rows, cols)]. *)
Lemma new_rack_ok r c : 0 <= r -> 0 <= c -> Game.rack_ok (Game.new_rack r c).
Proof.
  intros Hr Hc. unfold Game.new_rack, Game.rack_ok; cbn [Game.rows Game.cols Game.grid Game.boxes
    Game.box_positions Game.next_box_id Game.box_order].
  assert (Hrect : rectangular (replicate (Z.to_nat r) (replicate (Z.to_nat c) (@None Z))) r c).
  { split; [rewrite length_replicate; lia|]. apply Forall_replicate. rewrite length_replicate. lia. }
  split; [exact Hrect|]. split; [|split; [|split; [|split; [|split; [|]]]]].
  - intros bid. rewrite !lookup_empty. done.
  - constructor.
  - intros bid. rewrite lookup_empty. split; [intros Hin; inversion Hin|intros [? H]; discriminate].
  - intros bid box. rewrite lookup_empty. discriminate.
  - intros bid box p. rewrite lookup_empty. discriminate.
  - intros i j bid Hi Hj. rewrite lookup_empty. split; [|intros (? & ? & H & _); discriminate].
    rewrite cell_at_nonneg by lia. rewrite lookup_replicate_2 by lia. simpl.
    rewrite lookup_replicate_2 by lia. discriminate.
Qed.

End GameRackFacts.

(** * Further properties of the code *)

(** ** [game.py]: [Rack.place_box], [Rack.remove_box], [get_lifo_box], [get_fifo_box] *)

(** X1: on a rectangular grid and a non-negative anchor, [place_box] never
    raises; it succeeds exactly when the [box_width] x [box_length] footprint
    fits ([Game.fits]), and then writes the new id [next_box_id] into exactly
    the footprint cells, records the box (with that id) and its anchor,
    increments [next_box_id] and appends the id to [box_order]; when it refuses,
    the rack is unchanged. *)
Theorem game_place_box_effect (rk : Game.Rack) (box : Game.Box) (sr sc : Z) :
  rectangular (Game.grid rk) (Game.rows rk) (Game.cols rk) -> 0 <= sr -> 0 <= sc ->
  exists b rk', Game.place_box rk box sr sc = Some (b, rk') /\
    (b = true <-> Game.fits rk box sr sc) /\
    (b = false -> rk' = rk) /\
    (b = true ->
       Game.rows rk' = Game.rows rk /\ Game.cols rk' = Game.cols rk /\
       rectangular (Game.grid rk') (Game.rows rk) (Game.cols rk) /\
       (forall r c, 0 <= r < Game.rows rk -> 0 <= c < Game.cols rk ->
          cell_at (Game.grid rk') r c =
          if Game.covers box (sr, sc) r c then Some (Some (Game.next_box_id rk))
          else cell_at (Game.grid rk) r c) /\
       Game.boxes rk' = <[Game.next_box_id rk := Game.mkBox (Game.box_length box) (Game.box_width box)
                                                  (Some (Game.next_box_id rk))]> (Game.boxes rk) /\
       Game.box_positions rk' = <[Game.next_box_id rk := (sr, sc)]> (Game.box_positions rk) /\
       Game.next_box_id rk' = Game.next_box_id rk + 1 /\
       Game.box_order rk' = Game.box_order rk ++ [Game.next_box_id rk]).
Proof.
  intros Hg Hr Hc. destruct (GameRackFacts.place_box_eq rk box sr sc Hg Hr Hc) as [Hno Hyes].
  destruct (GameFacts.can_place_box_spec rk box sr sc Hg Hr Hc) as ([|] & _ & Hiff).
  - assert (Hf : Game.fits rk box sr sc) by (apply Hiff; reflexivity).
    do 2 eexists. split; [exact (Hyes Hf)|]. split; [done|]. split; [discriminate|].
    intros _. cbn [Game.rows Game.cols Game.grid Game.boxes Game.box_positions
                   Game.next_box_id Game.box_order].
    do 2 (split; [done|]). split; [by apply rectangular_upd_grid|]. split; [|done].
    intros r c Hrr Hcc. apply (cell_at_upd_grid_in _ (Game.rows rk) (Game.cols rk)); done.
  - assert (Hnf : ~ Game.fits rk box sr sc) by (intros Hf; apply Hiff in Hf; discriminate).
    exists false, rk. split; [exact (Hno Hnf)|]. split; [split; [discriminate|tauto]|].
    split; [done|discriminate].
Qed.

Lemma game_place_box_effect_witness :
  exists b rk', Game.place_box (Game.new_rack 3 4) (Game.mkBox 2 1 None) 1 1 = Some (b, rk') /\
    (b = true <-> Game.fits (Game.new_rack 3 4) (Game.mkBox 2 1 None) 1 1) /\
    (b = false -> rk' = Game.new_rack 3 4) /\
    (b = true ->
       Game.rows rk' = Game.rows (Game.new_rack 3 4) /\ Game.cols rk' = Game.cols (Game.new_rack 3 4) /\
       rectangular (Game.grid rk') (Game.rows (Game.new_rack 3 4)) (Game.cols (Game.new_rack 3 4)) /\
       (forall r c, 0 <= r < Game.rows (Game.new_rack 3 4) -> 0 <= c < Game.cols (Game.new_rack 3 4) ->
          cell_at (Game.grid rk') r c =
          if Game.covers (Game.mkBox 2 1 None) (1, 1) r c
          then Some (Some (Game.next_box_id (Game.new_rack 3 4)))
          else cell_at (Game.grid (Game.new_rack 3 4)) r c) /\
       Game.boxes rk' = <[Game.next_box_id (Game.new_rack 3 4) :=
                           Game.mkBox (Game.box_length (Game.mkBox 2 1 None))
                                      (Game.box_width (Game.mkBox 2 1 None))
                                      (Some (Game.next_box_id (Game.new_rack 3 4)))]>
                         (Game.boxes (Game.new_rack 3 4)) /\
       Game.box_positions rk' = <[Game.next_box_id (Game.new_rack 3 4) := (1, 1)]>
                                  (Game.box_positions (Game.new_rack 3 4)) /\
       Game.next_box_id rk' = Game.next_box_id (Game.new_rack 3 4) + 1 /\
       Game.box_order rk' = Game.box_order (Game.new_rack 3 4) ++ [Game.next_box_id (Game.new_rack 3 4)]).
Proof.
  apply (game_place_box_effect (Game.new_rack 3 4) (Game.mkBox 2 1 None) 1 1); [|lia|lia].
  split; [reflexivity|]. repeat constructor.
Defined.

(** X2: the bookkeeping invariant [Game.rack_ok] (ids agree between [boxes],
    [box_positions] and [box_order], each id once in [box_order], ids below
    [next_box_id], boxes inside the grid, and an in-bounds cell holds an id
    exactly when that box covers it) holds for [Rack(rows, cols)], and
    [place_box] at a non-negative anchor and [remove_box] keep it and never
    raise on a rack that satisfies it. *)
Theorem game_rack_ok_invariant :
  (forall r c, 0 <= r -> 0 <= c -> Game.rack_ok (Game.new_rack r c)) /\
  (forall rk box sr sc, Game.rack_ok rk -> 0 <= sr -> 0 <= sc ->
     exists b rk', Game.place_box rk box sr sc = Some (b, rk') /\ Game.rack_ok rk') /\
  (forall rk bid, Game.rack_ok rk ->
     exists b rk', Game.remove_box rk bid = Some (b, rk') /\ Game.rack_ok rk').
Proof.
  split; [exact GameRackFacts.new_rack_ok|]. split.
  - intros rk box sr sc Hok Hr Hc.
    destruct (GameRackFacts.place_box_ok rk box sr sc Hok Hr Hc) as (b & rk' & H & Hok' & _). eauto.
  - intros rk bid Hok. destruct (Game.boxes rk !! bid) as [box|] eqn:Hb.
    + destruct (GameRackFacts.remove_box_eq rk bid box Hok Hb) as (p & Hp & Hrm).
      do 2 eexists. split; [exact Hrm|]. by apply GameRackFacts.remove_box_ok.
    + exists false, rk. unfold Game.remove_box. rewrite Hb. done.
Qed.

Lemma game_rack_ok_invariant_witness :
  Game.rack_ok (Game.new_rack 3 4) /\
  exists b rk', Game.place_box (Game.new_rack 3 4) (Game.mkBox 2 1 None) 0 2 = Some (b, rk') /\
                Game.rack_ok rk'.
Proof.
  pose proof game_rack_ok_invariant as (Hnew & Hplace & _).
  split; [apply Hnew; lia|]. apply Hplace; [apply Hnew; lia|lia|lia].
Defined.

(** X3: on a consistent rack, [remove_box] never raises; it returns [False]
    and changes nothing when the id is not stored, and otherwise empties exactly
    the cells holding that id, drops the id from [boxes], [box_positions] and
    [box_order] (keeping the order of the other ids), and keeps the dimensions
    and [next_box_id]. *)
Theorem game_remove_box_effect (rk : Game.Rack) (bid : Z) :
  Game.rack_ok rk ->
  exists b rk', Game.remove_box rk bid = Some (b, rk') /\
    (b = false <-> Game.boxes rk !! bid = None) /\
    (b = false -> rk' = rk) /\
    (b = true ->
       Game.rows rk' = Game.rows rk /\ Game.cols rk' = Game.cols rk /\
       rectangular (Game.grid rk') (Game.rows rk) (Game.cols rk) /\
       (forall r c, 0 <= r < Game.rows rk -> 0 <= c < Game.cols rk ->
          cell_at (Game.grid rk') r c =
          if decide (cell_at (Game.grid rk) r c = Some (Some bid)) then Some None
          else cell_at (Game.grid rk) r c) /\
       Game.boxes rk' = delete bid (Game.boxes rk) /\
       Game.box_positions rk' = delete bid (Game.box_positions rk) /\
       Game.next_box_id rk' = Game.next_box_id rk /\
       Game.box_order rk' = filter (fun y => y <> bid) (Game.box_order rk)).
Proof.
  intros Hok. destruct (Game.boxes rk !! bid) as [box|] eqn:Hb.
  - destruct (GameRackFacts.remove_box_eq rk bid box Hok Hb) as (p & Hp & Hrm).
    pose proof Hok as (Hrect & Hdom & Hnd & Hord & Hid & Hbnd & Hcell).
    do 2 eexists. split; [exact Hrm|]. split; [split; discriminate|]. split; [discriminate|].
    intros _. cbn [Game.rows Game.cols Game.grid Game.boxes Game.box_positions
                   Game.next_box_id Game.box_order].
    do 2 (split; [done|]). split; [by apply rectangular_upd_grid|]. split; [|done].
    intros r c Hr Hc. rewrite (cell_at_upd_grid_in _ (Game.rows rk) (Game.cols rk)) by done.
    assert (Hbc : Game.covers box p r c = true <-> cell_at (Game.grid rk) r c = Some (Some bid)).
    { rewrite Hcell by done. split; [eauto|].
      intros (b1 & q & Hb1 & Hq & Hcov). congruence. }
    destruct (Game.covers box p r c) eqn:Hcov.
    + rewrite decide_True by (apply Hbc; done). done.
    + rewrite decide_False by (rewrite <- Hbc; discriminate). done.
  - exists false, rk. unfold Game.remove_box. rewrite Hb. split; [done|].
    split; [done|]. split; [done|discriminate].
Qed.

Lemma game_remove_box_effect_witness :
  exists b rk', Game.remove_box (Game.new_rack 3 4) 7 = Some (b, rk') /\
    (b = false <-> Game.boxes (Game.new_rack 3 4) !! 7 = None) /\
    (b = false -> rk' = Game.new_rack 3 4) /\
    (b = true ->
       Game.rows rk' = Game.rows (Game.new_rack 3 4) /\ Game.cols rk' = Game.cols (Game.new_rack 3 4) /\
       rectangular (Game.grid rk') (Game.rows (Game.new_rack 3 4)) (Game.cols (Game.new_rack 3 4)) /\
       (forall r c, 0 <= r < Game.rows (Game.new_rack 3 4) -> 0 <= c < Game.cols (Game.new_rack 3 4) ->
          cell_at (Game.grid rk') r c =
          if decide (cell_at (Game.grid (Game.new_rack 3 4)) r c = Some (Some 7)) then Some None
          else cell_at (Game.grid (Game.new_rack 3 4)) r c) /\
       Game.boxes rk' = delete 7 (Game.boxes (Game.new_rack 3 4)) /\
       Game.box_positions rk' = delete 7 (Game.box_positions (Game.new_rack 3 4)) /\
       Game.next_box_id rk' = Game.next_box_id (Game.new_rack 3 4) /\
       Game.box_order rk' = filter (fun y => y <> 7) (Game.box_order (Game.new_rack 3 4))).
Proof. apply (game_remove_box_effect (Game.new_rack 3 4) 7). apply GameRackFacts.new_rack_ok; lia. Defined.

(** X4: on a consistent rack, removing the box that [place_box] has just placed
    (by the id it was given, the old [next_box_id]) succeeds and restores the
    grid, [boxes], [box_positions] and [box_order]; only [next_box_id] stays
    incremented. *)
Theorem game_place_remove_roundtrip (rk rk1 : Game.Rack) (box : Game.Box) (sr sc : Z) :
  Game.rack_ok rk -> 0 <= sr -> 0 <= sc ->
  Game.place_box rk box sr sc = Some (true, rk1) ->
  exists rk2, Game.remove_box rk1 (Game.next_box_id rk) = Some (true, rk2) /\
    Game.rows rk2 = Game.rows rk /\ Game.cols rk2 = Game.cols rk /\
    Game.grid rk2 = Game.grid rk /\ Game.boxes rk2 = Game.boxes rk /\
    Game.box_positions rk2 = Game.box_positions rk /\ Game.box_order rk2 = Game.box_order rk /\
    Game.next_box_id rk2 = Game.next_box_id rk + 1.
Proof.
  intros Hok Hr Hc Hpl. pose proof Hok as (Hrect & Hdom & Hnd & Hord & Hid & Hbnd & Hcell).
  destruct (GameRackFacts.place_box_eq rk box sr sc Hrect Hr Hc) as [Hno Hyes].
  destruct (GameFacts.can_place_box_spec rk box sr sc Hrect Hr Hc) as ([|] & _ & Hiff).
  2:{ assert (Hnf : ~ Game.fits rk box sr sc) by (intros Hf; apply Hiff in Hf; discriminate).
      rewrite Hno in Hpl by done. discriminate. }
  assert (Hf : Game.fits rk box sr sc) by (apply Hiff; reflexivity).
  rewrite (Hyes Hf) in Hpl. injection Hpl as <-.
  set (n := Game.next_box_id rk).
  assert (Hfresh : Game.boxes rk !! n = None).
  { destruct (Game.boxes rk !! n) as [b0|] eqn:E; [|done]. apply Hid in E. lia. }
  assert (Hfresh' : Game.box_positions rk !! n = None).
  { destruct (Game.box_positions rk !! n) eqn:E; [|done].
    destruct (proj2 (Hdom n) (mk_is_Some _ _ E)). congruence. }
  assert (Hnotin : n ∉ Game.box_order rk).
  { intros Hin. apply Hord in Hin. rewrite Hfresh in Hin. by destruct Hin. }
  pose proof Hf as (_ & _ & Hw & Hl & Hfree).
  unfold Game.remove_box. cbn [Game.boxes Game.box_positions Game.grid Game.box_order
    Game.rows Game.cols Game.next_box_id]. rewrite !lookup_insert_eq. cbn [Game.box_width Game.box_length fst snd].
  rewrite (GameRackFacts.fill_box _ (Game.rows rk) (Game.cols rk) sr sc box)
    by (auto; by apply rectangular_upd_grid).
  rewrite GameRackFacts.py_remove_snoc by done.
  eexists. split; [reflexivity|]. cbn [Game.rows Game.cols Game.grid Game.boxes Game.box_positions
    Game.next_box_id Game.box_order].
  split; [done|]. split; [done|]. split; [|split; [|split; [|split; [done|done]]]].
  - rewrite upd_grid_twice. apply upd_grid_noop. intros i j v Hcov Hv.
    unfold Game.covers in Hcov. simpl in Hcov.
    rewrite !andb_true_iff, !Z.leb_le, !Z.ltb_lt in Hcov.
    specialize (Hfree (Z.of_nat i) (Z.of_nat j) ltac:(lia) ltac:(lia)).
    rewrite cell_at_nonneg, !Nat2Z.id in Hfree by lia. congruence.
  - by apply delete_insert_id.
  - by apply delete_insert_id.
Qed.

Lemma game_place_remove_roundtrip_witness :
  Game.place_box (Game.new_rack 3 4) (Game.mkBox 2 1 None) 1 1 =
    Some (true, Game.mkRack 3 4 [[None; None; None; None]; [None; Some 1; Some 1; None];
                                 [None; None; None; None]]
                  {[1 := Game.mkBox 2 1 (Some 1)]} {[1 := (1, 1)]} 2 [1]) /\
  exists rk2, Game.remove_box (Game.mkRack 3 4 [[None; None; None; None]; [None; Some 1; Some 1; None];
                                                [None; None; None; None]]
                  {[1 := Game.mkBox 2 1 (Some 1)]} {[1 := (1, 1)]} 2 [1])
                (Game.next_box_id (Game.new_rack 3 4)) = Some (true, rk2) /\
    Game.rows rk2 = Game.rows (Game.new_rack 3 4) /\ Game.cols rk2 = Game.cols (Game.new_rack 3 4) /\
    Game.grid rk2 = Game.grid (Game.new_rack 3 4) /\ Game.boxes rk2 = Game.boxes (Game.new_rack 3 4) /\
    Game.box_positions rk2 = Game.box_positions (Game.new_rack 3 4) /\
    Game.box_order rk2 = Game.box_order (Game.new_rack 3 4) /\
    Game.next_box_id rk2 = Game.next_box_id (Game.new_rack 3 4) + 1.
Proof.
  assert (Hpl : Game.place_box (Game.new_rack 3 4) (Game.mkBox 2 1 None) 1 1 =
    Some (true, Game.mkRack 3 4 [[None; None; None; None]; [None; Some 1; Some 1; None];
                                 [None; None; None; None]]
                  {[1 := Game.mkBox 2 1 (Some 1)]} {[1 := (1, 1)]} 2 [1])) by reflexivity.
  split; [exact Hpl|].
  apply (game_place_remove_roundtrip (Game.new_rack 3 4) _ (Game.mkBox 2 1 None) 1 1);
    [apply GameRackFacts.new_rack_ok; lia|lia|lia|exact Hpl].
Defined.

(** X5: after a successful [place_box], [get_lifo_box] returns the new id (the
    old [next_box_id]) and [get_fifo_box] returns the same id as before, or the
    new id if no box was stored. *)
Theorem game_place_lifo_fifo (rk rk' : Game.Rack) (box : Game.Box) (sr sc : Z) :
  Game.place_box rk box sr sc = Some (true, rk') ->
  Game.get_lifo_box rk' = Some (Game.next_box_id rk) /\
  Game.get_fifo_box rk' = match Game.get_fifo_box rk with
                          | Some f => Some f
                          | None => Some (Game.next_box_id rk)
                          end.
Proof.
  unfold Game.place_box.
  destruct (Game.can_place_box rk box sr sc) as [[|]|]; cbn [negb]; try discriminate.
  destruct (py_for _ _ (Game.grid rk)) as [g|]; [|discriminate].
  intros [= <-]. unfold Game.get_lifo_box, Game.get_fifo_box. cbn [Game.box_order].
  destruct (Game.box_order rk) as [|x l]; cbn [app].
  - split; reflexivity.
  - rewrite app_comm_cons, GameRackFacts.py_get_last. split; reflexivity.
Qed.

Lemma game_place_lifo_fifo_witness :
  Game.place_box (Game.new_rack 3 4) (Game.mkBox 2 1 None) 1 1 =
    Some (true, Game.mkRack 3 4 [[None; None; None; None]; [None; Some 1; Some 1; None];
                                 [None; None; None; None]]
                  {[1 := Game.mkBox 2 1 (Some 1)]} {[1 := (1, 1)]} 2 [1]) /\
  Game.get_lifo_box (Game.mkRack 3 4 [[None; None; None; None]; [None; Some 1; Some 1; None];
                                      [None; None; None; None]]
                       {[1 := Game.mkBox 2 1 (Some 1)]} {[1 := (1, 1)]} 2 [1]) =
    Some (Game.next_box_id (Game.new_rack 3 4)) /\
  Game.get_fifo_box (Game.mkRack 3 4 [[None; None; None; None]; [None; Some 1; Some 1; None];
                                      [None; None; None; None]]
                       {[1 := Game.mkBox 2 1 (Some 1)]} {[1 := (1, 1)]} 2 [1]) =
    match Game.get_fifo_box (Game.new_rack 3 4) with
    | Some f => Some f
    | None => Some (Game.next_box_id (Game.new_rack 3 4))
    end.
Proof.
  assert (Hpl : Game.place_box (Game.new_rack 3 4) (Game.mkBox 2 1 None) 1 1 =
    Some (true, Game.mkRack 3 4 [[None; None; None; None]; [None; Some 1; Some 1; None];
                                 [None; None; None; None]]
                  {[1 := Game.mkBox 2 1 (Some 1)]} {[1 := (1, 1)]} 2 [1])) by reflexivity.
  split; [exact Hpl|]. exact (game_place_lifo_fifo _ _ _ _ _ Hpl).
Defined.

(** ** [game.py]: the planner [a_star_pathfinding] *)
Module GamePlannerFacts.
Import GamePlanner.

Lemma remove_fc_perm x l : x ∈ l -> l ≡ₚ x :: remove_fc x l.
Proof.
  induction l as [|y l IH]; intros Hx; [inversion Hx|]. simpl.
  destruct (decide (x = y)) as [->|Hne]; [done|].
  apply elem_of_cons in Hx as [->|Hx]; [done|].
  rewrite (IH Hx) at 1. apply Permutation_swap.
Qed.

Lemma fc_compare_lt x y : fc_compare x y = Lt -> x.1 <= y.1.
Proof. unfold fc_compare, lex. destruct (Z.compare_spec x.1 y.1); lia || done. Qed.

Lemma fc_compare_not_lt x y : fc_compare x y <> Lt -> y.1 <= x.1.
Proof. unfold fc_compare, lex. destruct (Z.compare_spec x.1 y.1); lia || done. Qed.

Lemma fc_min_fold (t : list (Z * cell)) (m : Z * cell) :
  let m' := fold_left (fun m y => match fc_compare y m with Lt => y | _ => m end) t m in
  (m' = m \/ m' ∈ t) /\ m'.1 <= m.1 /\ forall y, y ∈ t -> m'.1 <= y.1.
Proof.
  revert m. induction t as [|y t IH]; intros m; simpl.
  - split; [by left|]. split; [lia|]. intros y Hy. inversion Hy.
  - destruct (fc_compare y m) eqn:Hc.
    + destruct (IH m) as (Hin & Hle & Hmin). assert (m.1 <= y.1) by (apply fc_compare_not_lt; by rewrite Hc).
      split; [destruct Hin as [->|Hin]; [by left|right; by right]|]. split; [done|].
      intros z Hz. apply elem_of_cons in Hz as [->|Hz]; [lia|auto].
    + destruct (IH y) as (Hin & Hle & Hmin). apply fc_compare_lt in Hc.
      split; [destruct Hin as [->|Hin]; right; [left|by right]|]. split; [lia|].
      intros z Hz. apply elem_of_cons in Hz as [->|Hz]; [lia|auto].
    + destruct (IH m) as (Hin & Hle & Hmin). assert (m.1 <= y.1) by (apply fc_compare_not_lt; by rewrite Hc).
      split; [destruct Hin as [->|Hin]; [by left|right; by right]|]. split; [done|].
      intros z Hz. apply elem_of_cons in Hz as [->|Hz]; [lia|auto].
Qed.

(** [heapq.heappop] returns an entry of least [f]. *)
Lemma fc_pop_spec h e h' :
  fc_pop h = Some (e, h') -> h ≡ₚ e :: h' /\ forall y, y ∈ h -> e.1 <= y.1.
Proof.
  destruct h as [|x t]; simpl; [discriminate|]. intros [= <- <-].
  destruct (fc_min_fold t x) as (Hin & Hle & Hmin). split.
  - apply remove_fc_perm. destruct Hin as [->|Hin]; [left|by right].
  - intros y Hy. apply elem_of_cons in Hy as [->|Hy]; auto.
Qed.

Lemma fc_pop_none h : fc_pop h = None -> h = [].
Proof. by destruct h. Qed.

Lemma neighbors_manhattan c n : n ∈ neighbors c <-> manhattan c n = 1.
Proof.
  destruct c as [c1 c2], n as [n1 n2]. unfold neighbors, manhattan; simpl.
  rewrite !elem_of_cons, elem_of_nil. split.
  - intros [H|[H|[H|[H|[]]]]]; injection H as -> ->; lia.
  - intros H.
    assert ((n1 = c1 - 1 /\ n2 = c2) \/ (n1 = c1 + 1 /\ n2 = c2) \/
            (n1 = c1 /\ n2 = c2 - 1) \/ (n1 = c1 /\ n2 = c2 + 1))
      as [[-> ->]|[[-> ->]|[[-> ->]|[-> ->]]]] by lia; auto.
Qed.

Lemma heuristic_manhattan a b : heuristic a b = manhattan a b.
Proof. reflexivity. Qed.

Section Search.
Variables (rows cols : Z) (start goal : cell).

Local Abbreviation adj := (grid_adj rows cols).
Local Abbreviation Inv := (planner_inv rows cols start goal).
Local Abbreviation Settled := (planner_settled rows cols goal).

(** Scores only go down and heap entries are only added. *)
Lemma settled_mono st st' c :
  (forall e, e ∈ open_list st -> e ∈ open_list st') ->
  (forall m gm, g_score st !! m = Some gm -> exists gm', g_score st' !! m = Some gm' /\ gm' <= gm) ->
  g_score st' !! c = g_score st !! c ->
  Settled st c -> Settled st' c.
Proof.
  intros Hopen Hg Hc Hs gc Hgc. rewrite Hc in Hgc. destruct (Hs gc Hgc) as [(f & Hf & Hle)|Hn].
  - left. exists f. auto.
  - right. intros n Hadj. destruct (Hn n Hadj) as (gn & Hgn & Hle).
    destruct (Hg n gn Hgn) as (gn' & Hgn' & Hle'). exists gn'. split; [done|lia].
Qed.

Lemma relax_step cur gc st n st' :
  Inv st -> (forall c, c <> cur -> Settled st c) -> g_score st !! cur = Some gc ->
  n ∈ neighbors cur -> relax rows cols goal cur st n = Some st' ->
  Inv st' /\ (forall c, c <> cur -> Settled st' c) /\ g_score st' !! cur = Some gc /\
  (forall m gm, g_score st !! m = Some gm -> exists gm', g_score st' !! m = Some gm' /\ gm' <= gm) /\
  (forall e, e ∈ open_list st -> e ∈ open_list st') /\
  (in_bounds rows cols n = true -> exists gn, g_score st' !! n = Some gn /\ gn <= gc + 1).
Proof.
  intros Hinv Hset Hcur Hn. pose proof Hinv as (J1 & J2 & J3 & J4 & J5 & J6 & J7).
  assert (Hman : manhattan cur n = 1) by (by apply neighbors_manhattan).
  assert (Hncur : n <> cur) by (intros ->; unfold manhattan in Hman; lia).
  unfold relax. destruct (in_bounds rows cols n) eqn:Hb; cbn [negb].
  2:{ intros [= <-]. do 3 (split; [done|]). split; [eauto with lia|]. split; [done|discriminate]. }
  rewrite Hcur. cbn [mbind option_bind].
  destruct (g_score st !! n) as [gn|] eqn:Hgn.
  - destruct (Z.ltb_spec (gc + 1) gn) as [Hlt|Hge].
    2:{ intros [= <-]. do 3 (split; [done|]). split; [eauto with lia|]. split; [done|].
        intros _. exists gn. split; [done|lia]. }
    intros [= <-].
    assert (Hnstart : n <> start) by (intros ->; rewrite J1 in Hgn; injection Hgn as <-; specialize (J2 cur gc Hcur); lia).
    cbn [open_list came_from g_score f_score].
    assert (Hmono : forall m gm, g_score st !! m = Some gm ->
              exists gm', <[n := gc + 1]> (g_score st) !! m = Some gm' /\ gm' <= gm).
    { intros m gm Hm. destruct (decide (m = n)) as [->|Hne].
      - rewrite lookup_insert_eq. eexists. split; [done|]. congruence || lia.
      - rewrite lookup_insert_ne by congruence. eauto with lia. }
    split; [|split; [|split; [|split; [|split]]]].
    + split; [|split; [|split; [|split; [|split; [|split]]]]]; cbn [open_list came_from g_score].
      * by rewrite lookup_insert_ne by congruence.
      * intros c v. rewrite lookup_insert_Some. intros [[_ <-]|[_ Hc]]; [pose proof (J2 _ _ Hcur); lia|eauto].
      * by rewrite lookup_insert_ne by congruence.
      * intros n' p. rewrite lookup_insert_Some. intros [[<- <-]|[Hne Hp]].
        { split; [split; [done|exact Hman]|].
          exists gc, (gc + 1). rewrite lookup_insert_ne, lookup_insert_eq by congruence. auto with lia. }
        destruct (J4 _ _ Hp) as (Hadj & gp & gn' & Hgp & Hgn' & Hle). split; [done|].
        rewrite (lookup_insert_ne _ n n') by congruence.
        destruct (decide (p = n)) as [->|Hpn].
        { exists (gc + 1), gn'. rewrite lookup_insert_eq. rewrite Hgn in Hgp. injection Hgp as <-.
          auto with lia. }
        exists gp, gn'. rewrite lookup_insert_ne by congruence. auto.
      * intros c. rewrite lookup_insert_is_Some'. intros [<-|Hc]; [right; rewrite lookup_insert_eq; eauto|].
        destruct (J5 c Hc) as [?|Hcame]; [by left|right]. rewrite lookup_insert_is_Some'. by right.
      * intros f c. rewrite elem_of_app, list_elem_of_singleton. intros [Hfc|Hfc].
        { destruct (J6 f c Hfc) as (gc0 & Hgc0 & Hle). destruct (decide (c = n)) as [->|Hne].
          - rewrite lookup_insert_eq. eexists. split; [done|]. left. rewrite Hgn in Hgc0.
            injection Hgc0 as <-. destruct Hle as [Hle|[? _]]; [lia|congruence].
          - rewrite lookup_insert_ne by congruence. eauto. }
        injection Hfc as -> ->. rewrite lookup_insert_eq. eexists. split; [done|]. left. lia.
      * rewrite lookup_insert_is_Some'. intros [Heq|Hg].
        { rewrite <- Heq. eexists. apply elem_of_app. right. by left. }
        destruct (J7 Hg) as (f & Hf). exists f. apply elem_of_app. by left.
    + intros c Hc. destruct (decide (c = n)) as [->|Hne].
      * intros gc' Hgc'. cbn [g_score] in Hgc'. rewrite lookup_insert_eq in Hgc'. injection Hgc' as <-.
        left. exists (gc + 1 + heuristic n goal). split; [|lia]. apply elem_of_app. right. by left.
      * apply (settled_mono st); [|exact Hmono| |by apply Hset].
        { intros e He. apply elem_of_app. by left. }
        cbn [g_score]. by rewrite lookup_insert_ne by congruence.
    + cbn [g_score]. by rewrite lookup_insert_ne by congruence.
    + exact Hmono.
    + intros e He. apply elem_of_app. by left.
    + intros _. cbn [g_score]. rewrite lookup_insert_eq. eauto with lia.
  - intros [= <-]. cbn [open_list came_from g_score f_score].
    assert (Hnstart : n <> start) by congruence.
    assert (Hmono : forall m gm, g_score st !! m = Some gm ->
              exists gm', <[n := gc + 1]> (g_score st) !! m = Some gm' /\ gm' <= gm).
    { intros m gm Hm. destruct (decide (m = n)) as [->|Hne]; [congruence|].
      rewrite lookup_insert_ne by congruence. eauto with lia. }
    split; [|split; [|split; [|split; [|split]]]].
    + split; [|split; [|split; [|split; [|split; [|split]]]]]; cbn [open_list came_from g_score].
      * by rewrite lookup_insert_ne by congruence.
      * intros c v. rewrite lookup_insert_Some. intros [[_ <-]|[_ Hc]]; [pose proof (J2 _ _ Hcur); lia|eauto].
      * by rewrite lookup_insert_ne by congruence.
      * intros n' p. rewrite lookup_insert_Some. intros [[<- <-]|[Hne Hp]].
        { split; [split; [done|exact Hman]|].
          exists gc, (gc + 1). rewrite lookup_insert_ne, lookup_insert_eq by congruence. auto with lia. }
        destruct (J4 _ _ Hp) as (Hadj & gp & gn' & Hgp & Hgn' & Hle). split; [done|].
        assert (p <> n) by congruence.
        exists gp, gn'. rewrite !lookup_insert_ne by congruence. auto.
      * intros c. rewrite lookup_insert_is_Some'. intros [<-|Hc]; [right; rewrite lookup_insert_eq; eauto|].
        destruct (J5 c Hc) as [?|Hcame]; [by left|right]. rewrite lookup_insert_is_Some'. by right.
      * intros f c. rewrite elem_of_app, list_elem_of_singleton. intros [Hfc|Hfc].
        { destruct (J6 f c Hfc) as (gc0 & Hgc0 & Hle). assert (c <> n) by congruence.
          rewrite lookup_insert_ne by congruence. eauto. }
        injection Hfc as -> ->. rewrite lookup_insert_eq. eexists. split; [done|]. left. lia.
      * rewrite lookup_insert_is_Some'. intros [Heq|Hg].
        { rewrite <- Heq. eexists. apply elem_of_app. right. by left. }
        destruct (J7 Hg) as (f & Hf). exists f. apply elem_of_app. by left.
    + intros c Hc. destruct (decide (c = n)) as [->|Hne].
      * intros gc' Hgc'. cbn [g_score] in Hgc'. rewrite lookup_insert_eq in Hgc'. injection Hgc' as <-.
        left. exists (gc + 1 + heuristic n goal). split; [|lia]. apply elem_of_app. right. by left.
      * apply (settled_mono st); [|exact Hmono| |by apply Hset].
        { intros e He. apply elem_of_app. by left. }
        cbn [g_score]. by rewrite lookup_insert_ne by congruence.
    + cbn [g_score]. by rewrite lookup_insert_ne by congruence.
    + exact Hmono.
    + intros e He. apply elem_of_app. by left.
    + intros _. cbn [g_score]. rewrite lookup_insert_eq. eauto with lia.
Qed.

Lemma relax_loop cur gc ns st st' :
  Inv st -> (forall c, c <> cur -> Settled st c) -> g_score st !! cur = Some gc ->
  (forall n, n ∈ ns -> n ∈ neighbors cur) ->
  py_for (relax rows cols goal cur) ns st = Some st' ->
  Inv st' /\ (forall c, c <> cur -> Settled st' c) /\ g_score st' !! cur = Some gc /\
  (forall m gm, g_score st !! m = Some gm -> exists gm', g_score st' !! m = Some gm' /\ gm' <= gm) /\
  (forall n, n ∈ ns -> in_bounds rows cols n = true ->
     exists gn, g_score st' !! n = Some gn /\ gn <= gc + 1).
Proof.
  revert st. induction ns as [|n ns IH]; intros st Hinv Hset Hcur Hns; cbn [py_for].
  - intros [= <-]. do 3 (split; [done|]). split; [eauto with lia|]. intros n Hn. inversion Hn.
  - destruct (relax rows cols goal cur st n) as [st1|] eqn:Hr; [|discriminate]. intros Hrun.
    destruct (relax_step cur gc st n st1 Hinv Hset Hcur (Hns n ltac:(left)) Hr)
      as (Hinv1 & Hset1 & Hcur1 & Hmono1 & _ & Hn1).
    destruct (IH st1 Hinv1 Hset1 Hcur1 (fun m Hm => Hns m ltac:(by right)) Hrun)
      as (Hinv' & Hset' & Hcur' & Hmono' & Hns').
    do 3 (split; [done|]). split.
    + intros m gm Hm. destruct (Hmono1 m gm Hm) as (g1 & Hg1 & Hle1).
      destruct (Hmono' m g1 Hg1) as (g2 & Hg2 & Hle2). exists g2. split; [done|lia].
    + intros m Hm Hb. apply elem_of_cons in Hm as [->|Hm]; [|auto].
      destruct (Hn1 Hb) as (g1 & Hg1 & Hle). destruct (Hmono' _ _ Hg1) as (g2 & Hg2 & Hle2).
      exists g2. split; [done|lia].
Qed.

(** [path = [current]; while current in came_from: ...]: the reversed path is a
    chain of [came_from] links from a cell without a link. *)
Lemma reconstruct_spec (came : gmap cell cell) fuel cur path tail res :
  reverse path = cur :: tail -> reconstruct came fuel cur path = Some res ->
  exists x l, came !! x = None /\ walk (fun p n => came !! n = Some p) x l /\
    walk_end x l = cur /\ reverse res = x :: l ++ tail.
Proof.
  revert cur path tail. induction fuel as [|fuel IH]; intros cur path tail Hrev; cbn [reconstruct];
    [discriminate|].
  destruct (came !! cur) as [prev|] eqn:Hc.
  - intros Hres. destruct (IH prev (path ++ [prev]) (cur :: tail)) as (x & l & Hx & Hl & Hend & Hr).
    { rewrite reverse_app, Hrev. reflexivity. }
    { exact Hres. }
    exists x, (l ++ [cur]). split; [done|]. split.
    + apply SearchFacts.walk_snoc. split; [done|]. by rewrite Hend.
    + split; [apply SearchFacts.walk_end_snoc|]. rewrite Hr, <- app_assoc. reflexivity.
  - intros [= <-]. exists cur, []. split; [done|]. split; [done|]. split; [done|]. exact Hrev.
Qed.

(** Scores grow by at least one along each [came_from] link. *)
Lemma came_walk_score st x gx l :
  Inv st -> walk (fun p n => came_from st !! n = Some p) x l -> g_score st !! x = Some gx ->
  exists ge, g_score st !! walk_end x l = Some ge /\ gx + Z.of_nat (length l) <= ge.
Proof.
  intros Hinv. pose proof Hinv as (_ & _ & _ & J4 & _). revert x gx.
  induction l as [|y l IH]; intros x gx; cbn [walk walk_end length].
  - intros _ Hx. exists gx. split; [done|lia].
  - intros [Hxy Hl] Hx. destruct (J4 _ _ Hxy) as (_ & gp & gn & Hgp & Hgn & Hle).
    rewrite Hx in Hgp. injection Hgp as <-. destruct (IH y gn Hl Hgn) as (ge & Hge & Hle').
    exists ge. split; [done|lia].
Qed.

(** Along any walk to [goal] the heap holds an entry no worse than the walk, or
    [goal] is already scored no worse. *)
Lemma frontier_bound st l v j gv :
  Inv st -> (forall c, Settled st c) ->
  walk adj v l -> walk_end v l = goal -> g_score st !! v = Some gv -> gv <= j ->
  (exists e, e ∈ open_list st /\ e.1 <= j + Z.of_nat (length l)) \/
  (exists gg, g_score st !! goal = Some gg /\ gg <= j + Z.of_nat (length l)).
Proof.
  intros Hinv Hset. revert v j gv. induction l as [|w l IH]; intros v j gv Hl Hend Hv Hle.
  - cbn in Hend. subst v. right. exists gv. cbn [length]. split; [done|lia].
  - pose proof (SearchFacts.manhattan_walk rows cols v (w :: l) Hl) as Hman.
    rewrite Hend in Hman. destruct Hl as [Hvw Hl]. cbn [walk_end] in Hend.
    destruct (Hset v gv Hv) as [(f & Hf & Hfle)|Hn].
    + left. exists (f, v). split; [done|]. cbn [fst]. rewrite heuristic_manhattan in Hfle. lia.
    + destruct (Hn w Hvw) as (gw & Hgw & Hgwle).
      destruct (IH w (j + 1) gw Hl Hend Hgw ltac:(lia)) as [(e & He & Hele)|(gg & Hgg & Hggle)];
        cbn [length]; [left; exists e|right; exists gg]; split; auto; lia.
Qed.

(** The result of [search]: a shortest walk of in-bounds 4-neighbour moves from
    [start] to [goal], or [[]] when no such walk exists. *)
Lemma search_spec fuel st p :
  Inv st -> (forall c, Settled st c) -> search rows cols goal fuel st = Some p ->
  (walk adj start p /\ walk_end start p = goal /\
   forall l, walk adj start l -> walk_end start l = goal -> (length p <= length l)%nat) \/
  (p = [] /\ forall l, walk adj start l -> walk_end start l <> goal).
Proof.
  revert st. induction fuel as [|fuel IH]; intros st Hinv Hset; cbn [search]; [discriminate|].
  pose proof Hinv as (J1 & J2 & J3 & J4 & J5 & J6 & J7).
  destruct (fc_pop (open_list st)) as [[[fm cur] open']|] eqn:Hpop.
  2:{ apply fc_pop_none in Hpop. intros [= <-]. right. split; [done|]. intros l Hl Hend.
      destruct (frontier_bound st l start 0 0 Hinv Hset Hl Hend J1 ltac:(lia))
        as [(e & He & _)|(gg & Hgg & _)].
      - rewrite Hpop in He. inversion He.
      - destruct (J7 (mk_is_Some _ _ Hgg)) as (f & Hf). rewrite Hpop in Hf. inversion Hf. }
  destruct (fc_pop_spec _ _ _ Hpop) as (Hperm & Hmin).
  assert (Hin : (fm, cur) ∈ open_list st) by (rewrite Hperm; left).
  destruct (J6 _ _ Hin) as (gcur & Hgcur & Hfcur).
  destruct (bool_decide (cur = goal)) eqn:Hgoal.
  - apply bool_decide_eq_true in Hgoal. subst cur.
    destruct (reconstruct (came_from st) (S fuel) goal [goal]) as [path|] eqn:Hrec; [|discriminate].
    intros [= <-]. left.
    destruct (reconstruct_spec (came_from st) (S fuel) goal [goal] [] path eq_refl Hrec)
      as (x & l & Hx & Hl & Hend & Hrev).
    rewrite app_nil_r in Hrev. rewrite Hrev. cbn [drop]. rewrite ?drop_0.
    assert (Hxs : x = start).
    { assert (Hgx : is_Some (g_score st !! x)).
      { destruct l as [|y l]; cbn in Hend.
        - subst x. by exists gcur.
        - destruct Hl as [Hxy _]. destruct (J4 _ _ Hxy) as (_ & gp & _ & Hgp & _). by exists gp. }
      destruct (J5 x Hgx) as [?|[? Hc]]; [done|congruence]. }
    subst x.
    split; [|split; [done|]].
    { apply (SearchFacts.walk_mono (fun p n => came_from st !! n = Some p)); [|done].
      intros u w Huw. apply (J4 _ _ Huw). }
    intros l0 Hl0 Hend0.
    destruct (came_walk_score st start 0 l Hinv Hl J1) as (ge & Hge & Hlen).
    rewrite Hend, Hgcur in Hge. injection Hge as <-.
    enough (gcur <= Z.of_nat (length l0)) by lia.
    destruct (frontier_bound st l0 start 0 0 Hinv Hset Hl0 Hend0 J1 ltac:(lia))
      as [(e & He & Hele)|(gg & Hgg & Hggle)].
    + specialize (Hmin e He). cbn [fst] in Hmin.
      assert (Hh : heuristic goal goal = 0) by (unfold heuristic; lia).
      destruct Hfcur as [Hf|[-> ->]]; [lia|]. rewrite J1 in Hgcur. injection Hgcur as <-. lia.
    + rewrite Hgcur in Hgg. injection Hgg as <-. lia.
  - apply bool_decide_eq_false in Hgoal.
    destruct (py_for _ (neighbors cur) _) as [st'|] eqn:Hloop; [|discriminate].
    set (st0 := mkAState open' (came_from st) (g_score st) (f_score st)) in Hloop.
    assert (Hsub : forall e, e ∈ open' -> e ∈ open_list st) by (intros e He; rewrite Hperm; by right).
    assert (Hinv0 : Inv st0).
    { split; [|split; [|split; [|split; [|split; [|split]]]]]; cbn [st0 open_list came_from g_score];
        auto.
      intros Hg. destruct (J7 Hg) as (f & Hf).
      destruct (SearchFacts.perm_elem _ _ _ _ Hperm Hf) as [[= _ Hc]|Hf']; [congruence|eauto]. }
    assert (Hset0 : forall c, c <> cur -> Settled st0 c).
    { intros c Hc gc Hgc. destruct (Hset c gc Hgc) as [(f & Hf & Hle)|Hn]; [left|right; exact Hn].
      exists f. split; [|done].
      destruct (SearchFacts.perm_elem _ _ _ _ Hperm Hf) as [[= _ Hc']|Hf']; [congruence|done]. }
    destruct (relax_loop cur gcur (neighbors cur) st0 st' Hinv0 Hset0 Hgcur (fun n Hn => Hn) Hloop)
      as (Hinv' & Hset' & Hcur' & _ & Hns').
    apply IH; [done|]. intros c. destruct (decide (c = cur)) as [->|Hne]; [|by apply Hset'].
    intros gc Hgc. rewrite Hcur' in Hgc. injection Hgc as <-. right.
    intros n [Hb Hm]. apply Hns'; [|done]. by apply neighbors_manhattan.
Qed.

Lemma search_init :
  Inv (mkAState [(0, start)] ∅ {[start := 0]} {[start := heuristic start goal]}) /\
  forall c, Settled (mkAState [(0, start)] ∅ {[start := 0]} {[start := heuristic start goal]}) c.
Proof.
  split.
  - split; [|split; [|split; [|split; [|split; [|split]]]]]; cbn [open_list came_from g_score].
    + apply lookup_singleton_eq.
    + intros c v. rewrite lookup_singleton_Some. intros [_ <-]. lia.
    + apply lookup_empty.
    + intros n p. rewrite lookup_empty. discriminate.
    + intros c. rewrite lookup_singleton_is_Some. by left.
    + intros f c Hfc. apply list_elem_of_singleton in Hfc. injection Hfc as -> ->.
      exists 0. split; [apply lookup_singleton_eq|]. by right.
    + rewrite lookup_singleton_is_Some. intros <-. exists 0. by left.
  - intros c gc. cbn [g_score]. rewrite lookup_singleton_Some. intros [<- <-]. left.
    exists 0. split; [by left|]. unfold heuristic. lia.
Qed.

End Search.

End GamePlannerFacts.

(** ** [game.py]: the trolley planner [a_star_pathfinding] *)

(** X6: on a rectangular [rows x cols] grid with at least one row, whatever the
    cells hold, any path [a_star_pathfinding(grid, start, goal)] returns (after
    any number of loop iterations) is a shortest walk of in-bounds 4-neighbour
    moves from [start] to [goal], the start cell excluded ([[]] when
    [start == goal]); it returns [[]] also when no such walk exists (for
    instance when [goal] lies outside the grid), and only then otherwise. *)
Theorem game_a_star_shortest {A} (fuel : nat) (grid : list (list A)) (rows cols : Z)
    (start goal : cell) (p : list cell) :
  rectangular grid rows cols -> 0 < rows ->
  GamePlanner.a_star_pathfinding fuel grid start goal = Some p ->
  (walk (grid_adj rows cols) start p /\ walk_end start p = goal /\
   forall l, walk (grid_adj rows cols) start l -> walk_end start l = goal ->
             (length p <= length l)%nat) \/
  (p = [] /\ forall l, walk (grid_adj rows cols) start l -> walk_end start l <> goal).
Proof.
  intros [Hlen Hrows] Hpos. unfold GamePlanner.a_star_pathfinding.
  destruct grid as [|row0 rest]; [cbn in Hlen; lia|].
  apply Forall_cons in Hrows as [Hrow0 _].
  assert (Hg0 : py_get (row0 :: rest) 0 = Some row0) by reflexivity.
  cbv zeta. rewrite Hg0, Hlen, Hrow0.
  destruct (GamePlannerFacts.search_init rows cols start goal) as [Hinv Hset].
  apply GamePlannerFacts.search_spec; assumption.
Qed.

Lemma game_a_star_shortest_witness :
  GamePlanner.a_star_pathfinding 50 (replicate 3 (replicate 4 0%nat)) (2, 0) (0, 3) =
    Some [(1, 0); (0, 0); (0, 1); (0, 2); (0, 3)] /\
  ((walk (grid_adj 3 4) (2, 0) [(1, 0); (0, 0); (0, 1); (0, 2); (0, 3)] /\
    walk_end (2, 0) [(1, 0); (0, 0); (0, 1); (0, 2); (0, 3)] = (0, 3) /\
    forall l, walk (grid_adj 3 4) (2, 0) l -> walk_end (2, 0) l = (0, 3) ->
              (length [(1, 0); (0, 0); (0, 1); (0, 2); (0, 3)] <= length l)%nat) \/
   ([(1, 0); (0, 0); (0, 1); (0, 2); (0, 3)] = [] /\
    forall l, walk (grid_adj 3 4) (2, 0) l -> walk_end (2, 0) l <> (0, 3))).
Proof.
  assert (H : GamePlanner.a_star_pathfinding 50 (replicate 3 (replicate 4 0%nat)) (2, 0) (0, 3) =
    Some [(1, 0); (0, 0); (0, 1); (0, 2); (0, 3)]) by reflexivity.
  split; [exact H|]. apply (game_a_star_shortest 50 (replicate 3 (replicate 4 0%nat)) 3 4); [|lia|exact H].
  split; [reflexivity|]. repeat constructor.
Defined.

(** ** Counting occupied cells: [get_occupied_cells] *)
Module OccupancyFacts.

Local Abbreviation row_step := (fun count (c : option Z) => match c with None => count | Some _ => count + 1 end).
Local Abbreviation grid_step := (fun count (rowl : list (option Z)) => fold_left row_step rowl count).

Lemma row_count (rowl : list (option Z)) n0 :
  exists k, fold_left row_step rowl n0 = n0 + k /\ 0 <= k <= Z.of_nat (length rowl) /\
    (k = Z.of_nat (length rowl) <-> forall j, rowl !! j <> Some None).
Proof.
  revert n0. induction rowl as [|v rowl IH]; intros n0; cbn [fold_left length].
  - exists 0. split; [lia|]. split; [lia|]. split; [|lia]. intros _ j. by rewrite lookup_nil.
  - destruct v as [x|].
    + destruct (IH (n0 + 1)) as (k & Hk & Hb & Hiff). exists (k + 1). split; [lia|]. split; [lia|].
      split.
      * intros Hfull [|j]; cbn; [discriminate|]. apply Hiff. lia.
      * intros Hall. enough (k = Z.of_nat (length rowl)) by lia. apply Hiff.
        intros j. exact (Hall (S j)).
    + destruct (IH n0) as (k & Hk & Hb & Hiff). exists k. split; [done|]. split; [lia|].
      split; [lia|]. intros Hall. exfalso. exact (Hall 0%nat eq_refl).
Qed.

Lemma grid_count (g : list (list (option Z))) cols n0 :
  Forall (fun rowl => Z.of_nat (length rowl) = cols) g ->
  exists k, fold_left grid_step g n0 = n0 + k /\ 0 <= k <= Z.of_nat (length g) * cols /\
    (k = Z.of_nat (length g) * cols <->
     forall i j, (g !! i) ≫= (fun rowl => rowl !! j) <> Some None).
Proof.
  revert n0. induction g as [|rowl g IH]; intros n0 Hrows; cbn [fold_left length].
  - exists 0. split; [lia|]. split; [lia|]. split; [|lia]. intros _ i j. by rewrite lookup_nil.
  - apply Forall_cons in Hrows as [Hrow Hrows].
    destruct (row_count rowl n0) as (k1 & Hk1 & Hb1 & Hiff1).
    destruct (IH (fold_left row_step rowl n0) Hrows) as (k2 & Hk2 & Hb2 & Hiff2).
    exists (k1 + k2). split; [cbn beta; lia|]. split; [lia|]. split.
    + intros Hfull. assert (k1 = cols /\ k2 = Z.of_nat (length g) * cols) as [E1 E2] by lia.
      intros [|i] j; cbn.
      * apply Hiff1. lia.
      * revert j. apply Hiff2. exact E2.
    + intros Hall.
      assert (k1 = Z.of_nat (length rowl)) by (apply Hiff1; intros j; exact (Hall 0%nat j)).
      assert (k2 = Z.of_nat (length g) * cols) by (apply Hiff2; intros i j; exact (Hall (S i) j)).
      lia.
Qed.

(** On a rectangular grid, [get_occupied_cells] lies between 0 and
    [rows * cols], with [rows * cols] exactly when no cell is empty. *)
Lemma occupied_bound (rk : Rack) rows cols :
  rectangular (grid rk) rows cols -> 0 <= cols ->
  0 <= Core.get_occupied_cells rk <= rows * cols /\
  (Core.get_occupied_cells rk = rows * cols <->
   forall r c, 0 <= r < rows -> 0 <= c < cols -> cell_at (grid rk) r c <> Some None).
Proof.
  intros [Hlen Hrows] Hcols. unfold Core.get_occupied_cells.
  destruct (grid_count (grid rk) cols 0 Hrows) as (k & Hk & Hb & Hiff).
  rewrite Hk. rewrite Hlen in Hb, Hiff. split; [lia|]. rewrite Z.add_0_l, Hiff. split.
  - intros Hall r c Hr Hc. rewrite cell_at_nonneg by lia. apply Hall.
  - intros Hall i j.
    destruct (decide (Z.of_nat i < rows)) as [Hi|Hi].
    2:{ rewrite lookup_ge_None_2 by lia. discriminate. }
    destruct (grid rk !! i) as [rowl|] eqn:Hrow; cbn [mbind option_bind]; [|discriminate].
    pose proof (Forall_lookup_1 _ _ _ _ Hrows Hrow) as Hrl. cbn beta in Hrl.
    destruct (decide (Z.of_nat j < cols)) as [Hj|Hj].
    2:{ rewrite lookup_ge_None_2 by lia. discriminate. }
    specialize (Hall (Z.of_nat i) (Z.of_nat j) ltac:(lia) ltac:(lia)).
    rewrite cell_at_nonneg, !Nat2Z.id, Hrow in Hall by lia. exact Hall.
Qed.

End OccupancyFacts.

(** ** [asrs-complete.py]: [Realistic3DViewer.get_capacity] *)

(** X7: for the rack of [asrs-complete.py], a [GRID_ROWS x GRID_COLS] grid, the
    capacity figure is a whole percentage from 0 to 100; it is 100 exactly when
    no cell is empty, and the truncation makes it 0 whenever fewer than 8 of the
    750 cells are occupied, and only then. *)
Theorem capacity_percent (rk : Rack) :
  rectangular (grid rk) Complete.GRID_ROWS Complete.GRID_COLS ->
  0 <= Complete.get_capacity rk <= 100 /\
  (Complete.get_capacity rk = 100 <->
   forall r c, 0 <= r < Complete.GRID_ROWS -> 0 <= c < Complete.GRID_COLS ->
     cell_at (grid rk) r c <> Some None) /\
  (Complete.get_capacity rk = 0 <-> Core.get_occupied_cells rk < 8).
Proof.
  intros Hg. destruct (OccupancyFacts.occupied_bound rk _ _ Hg) as [Hb Hfull];
    [unfold Complete.GRID_COLS; lia|].
  rewrite <- Hfull. unfold Complete.get_capacity, Complete.GRID_ROWS, Complete.GRID_COLS in *.
  cbv zeta. change (30 * 25) with 750 in *.
  assert (E : (0 <? 750) = true) by reflexivity. rewrite E.
  set (n := Core.get_occupied_cells rk) in *.
  rewrite Z.quot_div_nonneg by lia.
  pose proof (Z.div_mod (n * 100) 750 ltac:(lia)) as Hdm.
  pose proof (Z.mod_pos_bound (n * 100) 750 ltac:(lia)) as Hmb.
  set (q := n * 100 / 750) in *. set (m := (n * 100) mod 750) in *.
  split; [lia|]. split; split; intros H; lia.
Qed.

Lemma capacity_percent_witness :
  0 <= Complete.get_capacity (new_rack 30 25) <= 100 /\
  (Complete.get_capacity (new_rack 30 25) = 100 <->
   forall r c, 0 <= r < Complete.GRID_ROWS -> 0 <= c < Complete.GRID_COLS ->
     cell_at (grid (new_rack 30 25)) r c <> Some None) /\
  (Complete.get_capacity (new_rack 30 25) = 0 <-> Core.get_occupied_cells (new_rack 30 25) < 8).
Proof.
  apply capacity_percent. split; [reflexivity|]. apply Forall_replicate. reflexivity.
Defined.

(** ** The zone allocator of [core.py]: first fit in row-major order *)
Module ZoneScanFacts.

Lemma py_search_range {C} (f : Z -> option (option C)) a b :
  (forall x, a <= x < b -> f x <> None) ->
  exists res, py_search f (range a b) = Some res /\
    (res = None -> forall x, a <= x < b -> f x = Some None) /\
    (forall y, res = Some y -> exists x, a <= x < b /\ f x = Some (Some y) /\
       forall x', a <= x' < x -> f x' = Some None).
Proof.
  intros H. remember (Z.to_nat (b - a)) as n eqn:Hn. revert a H Hn.
  induction n as [|n IH]; intros a H Hn.
  - assert (E : range a b = []) by (unfold range; rewrite <- Hn; reflexivity).
    rewrite E. exists None. split; [done|]. split; [intros _ x Hx; lia|]. intros y [=].
  - rewrite GameFacts.range_cons by lia. simpl.
    destruct (f a) as [[y|]|] eqn:Hfa.
    + exists (Some y). split; [done|]. split; [discriminate|].
      intros y' [= <-]. exists a. split; [lia|]. split; [done|]. intros; lia.
    + destruct (IH (a + 1)) as (res & Hres & Hnone & Hsome); [intros x Hx; apply H; lia|lia|].
      exists res. split; [done|]. split.
      * intros Hr x Hx. destruct (Z.eq_dec x a) as [->|Hne]; [done|]. apply Hnone; [done|lia].
      * intros y Hy. destruct (Hsome y Hy) as (x & Hx & Hfx & Hbef).
        exists x. split; [lia|]. split; [done|].
        intros x' Hx'. destruct (Z.eq_dec x' a) as [->|Hne]; [done|]. apply Hbef; lia.
    + exfalso. eapply H; [|exact Hfa]. lia.
Qed.

Lemma zone_lookup_existsb size zs own r :
  Core.zone_lookup size zs = Some own -> Core.in_range own r = true ->
  existsb (fun z => Core.in_range z.2 r) zs = true.
Proof.
  induction zs as [|[k rg] zs IH]; cbn [Core.zone_lookup existsb]; [discriminate|].
  destruct (Z.eqb k size).
  - intros [= <-] H. simpl. by rewrite H.
  - intros Hz H. rewrite (IH Hz H). apply orb_true_r.
Qed.

Lemma found_zone_eq size r zs own :
  Core.zone_lookup size Core.MODEL_ZONES = Some own ->
  Core.found_zone size r zs = Some (Core.in_range own r && existsb (fun z => Core.in_range z.2 r) zs).
Proof.
  intros Hown. induction zs as [|[k rg] zs IH]; cbn [Core.found_zone existsb snd].
  - by rewrite andb_false_r.
  - destruct (Core.in_range rg r); cbn [orb].
    + rewrite Hown. destruct (Core.in_range own r); [done|]. exact IH.
    + exact IH.
Qed.

(** For a size with a zone, the zone test of [_can_fit] on row [r] is
    membership of [r] in that zone. *)
Lemma found_zone_own size r own :
  Core.zone_lookup size Core.MODEL_ZONES = Some own ->
  Core.found_zone size r Core.MODEL_ZONES = Some (Core.in_range own r).
Proof.
  intros Hown. rewrite (found_zone_eq size r _ own Hown).
  destruct (Core.in_range own r) eqn:Hin; [|done].
  by rewrite (zone_lookup_existsb size Core.MODEL_ZONES own r Hown Hin).
Qed.

Lemma zone_lookup_nonneg size zs ze :
  Core.zone_lookup size Core.MODEL_ZONES = Some (zs, ze) -> 0 <= zs.
Proof.
  cbn [Core.zone_lookup Core.MODEL_ZONES].
  repeat (destruct (Z.eqb _ size); [intros [= <- <-]; lia|]). discriminate.
Qed.

Lemma py_all_forallb {B} (p : B -> option bool) (q : B -> bool) (l : list B) :
  (forall x, x ∈ l -> p x = Some (q x)) -> py_all p l = Some (forallb q l).
Proof.
  induction l as [|x l IH]; intros H; simpl; [done|].
  rewrite (H x ltac:(left)). destruct (q x); simpl; [|done].
  apply IH. intros y Hy. apply H. by right.
Qed.

(** [core.py]'s [_can_fit] for a size with a zone and a non-negative anchor
    never raises on a rectangular grid, and accepts exactly the free in-rack
    footprints whose rows all lie in the zone. *)
Lemma core_can_fit_spec (rk : Rack) row col size zs ze :
  rectangular (grid rk) (rows rk) (cols rk) ->
  Core.zone_lookup size Core.MODEL_ZONES = Some (zs, ze) ->
  0 <= row -> 0 <= col ->
  exists b, Core._can_fit rk row col size = Some b /\
    (b = true <-> slot_fits rk size row col /\ forall i, row <= i < row + size -> zs <= i <= ze).
Proof.
  intros Hg Hz Hrow Hcol.
  destruct (BfsFacts.can_fit_spec rk row col size Hg Hrow Hcol) as (b & Hb & Hiff).
  unfold Core._can_fit. unfold Complete._can_fit in Hb.
  destruct ((rows rk <? row + size) || (cols rk <? col + size)).
  - injection Hb as <-. exists false. split; [done|]. split; [discriminate|].
    intros [Hs _]. by apply Hiff in Hs.
  - rewrite (py_all_forallb _ (Core.in_range (zs, ze))).
    2:{ intros x _. by apply found_zone_own. }
    destruct (forallb (Core.in_range (zs, ze)) (range row (row + size))) eqn:Hfa; simpl.
    + exists b. split; [exact Hb|]. rewrite Hiff. split; [intros Hs; split; [exact Hs|]|tauto].
      intros i Hi. rewrite forallb_forall in Hfa.
      specialize (Hfa i (proj1 (list_elem_of_In _ _) (proj2 (elem_of_range i row (row + size)) Hi))).
      unfold Core.in_range in Hfa. simpl in Hfa. rewrite andb_true_iff, !Z.leb_le in Hfa. lia.
    + exists false. split; [done|]. split; [discriminate|].
      intros [_ Hin]. assert (Hall : forallb (Core.in_range (zs, ze)) (range row (row + size)) = true).
      { apply forallb_forall. intros i Hi%list_elem_of_In. apply elem_of_range in Hi.
        specialize (Hin i Hi). unfold Core.in_range. simpl. apply andb_true_iff. rewrite !Z.leb_le. lia. }
      congruence.
Qed.

(** One row of the scan: the inner loop over the columns never raises and
    stops at the first column that is a [zone_slot]. *)
Lemma zone_row_search (rk : Rack) size zs ze r :
  rectangular (grid rk) (rows rk) (cols rk) ->
  Core.zone_lookup size Core.MODEL_ZONES = Some (zs, ze) -> zs <= r <= ze ->
  exists res,
    py_search (fun c => let? b := Core._can_fit rk r c size in
                        Some (if b then Some (r, c) else None)) (range 0 (cols rk)) = Some res /\
    (res = None -> forall c, ~ zone_slot rk size zs ze r c) /\
    (forall y, res = Some y -> exists c, y = (r, c) /\ zone_slot rk size zs ze r c /\
       forall c', c' < c -> ~ zone_slot rk size zs ze r c').
Proof.
  intros Hg Hz Hr. pose proof (zone_lookup_nonneg size zs ze Hz) as Hzs.
  destruct (py_search_range (fun c => let? b := Core._can_fit rk r c size in
                                      Some (if b then Some (r, c) else None)) 0 (cols rk))
    as (res & Hres & Hn & Hs).
  { intros c Hc. cbv beta.
    destruct (core_can_fit_spec rk r c size zs ze Hg Hz ltac:(lia) ltac:(lia)) as (b & Hb & _).
    rewrite Hb. discriminate. }
  exists res. split; [exact Hres|]. split.
  - intros -> c Hzc. destruct Hzc as (Hr' & Hc & Hfit & Hrows).
    specialize (Hn eq_refl c Hc). cbv beta in Hn.
    destruct (core_can_fit_spec rk r c size zs ze Hg Hz ltac:(lia) ltac:(lia)) as (b & Hb & Hiff).
    rewrite Hb in Hn. destruct b; [discriminate|].
    assert (F : false = true) by (apply Hiff; split; assumption). discriminate.
  - intros y Hy. destruct (Hs y Hy) as (c & Hc & Hfc & Hbef). cbv beta in Hfc.
    destruct (core_can_fit_spec rk r c size zs ze Hg Hz ltac:(lia) ltac:(lia)) as (b & Hb & Hiff).
    rewrite Hb in Hfc. destruct b; [|discriminate]. injection Hfc as <-.
    exists c. split; [done|]. split.
    + destruct (proj1 Hiff eq_refl) as [Hfit Hrows]. split; [lia|]. split; [lia|]. split; [exact Hfit|exact Hrows].
    + intros c' Hc' Hzc. destruct Hzc as (Hr' & Hc'' & Hfit & Hrows).
      specialize (Hbef c' ltac:(lia)). cbv beta in Hbef.
      destruct (core_can_fit_spec rk r c' size zs ze Hg Hz ltac:(lia) ltac:(lia)) as (b' & Hb' & Hiff').
      rewrite Hb' in Hbef. destruct b'; [discriminate|].
      assert (F : false = true) by (apply Hiff'; split; assumption). discriminate.
Qed.

End ZoneScanFacts.

(** [core.py]'s [find_nearest_empty_slot], for a size with a configured zone
    [zs..ze] on a rectangular grid, never raises; it returns [None] exactly
    when no anchor of the zone fits, and otherwise the anchor it returns is the
    first fitting one in row-major order (rows of the zone top to bottom, then
    columns left to right), whatever the origin passed in. *)
Theorem zone_slot_first (rk : Rack) (size origin_row origin_col zs ze : Z) :
  rectangular (grid rk) (rows rk) (cols rk) ->
  Core.zone_lookup size Core.MODEL_ZONES = Some (zs, ze) ->
  exists res, Core.find_nearest_empty_slot rk size origin_row origin_col = Some res /\
    (res = None <-> forall r c, ~ zone_slot rk size zs ze r c) /\
    (forall r c, res = Some (r, c) <->
       zone_slot rk size zs ze r c /\
       forall r' c', zone_slot rk size zs ze r' c' -> r < r' \/ (r = r' /\ c <= c')).
Proof.
  intros Hg Hz. unfold Core.find_nearest_empty_slot. rewrite Hz.
  match goal with |- context [py_search ?F (range zs (ze + 1))] =>
    destruct (ZoneScanFacts.py_search_range F zs (ze + 1)) as (res & Hres & Hnone & Hsome)
  end.
  { intros x Hx.
    destruct (ZoneScanFacts.zone_row_search rk size zs ze x Hg Hz ltac:(lia)) as (rx & Hrx & _).
    rewrite Hrx. discriminate. }
  assert (Hfirst : forall y, res = Some y -> exists r c, y = (r, c) /\
            zone_slot rk size zs ze r c /\
            forall r' c', zone_slot rk size zs ze r' c' -> r < r' \/ (r = r' /\ c <= c')).
  { intros y Hy. destruct (Hsome y Hy) as (x & Hx & Hfx & Hbef).
    destruct (ZoneScanFacts.zone_row_search rk size zs ze x Hg Hz ltac:(lia))
      as (rx & Hrx & _ & Hrs).
    rewrite Hrx in Hfx. injection Hfx as ->.
    destruct (Hrs y eq_refl) as (c & -> & Hzc & Hmin).
    exists x, c. split; [done|]. split; [done|].
    intros r' c' Hz'. destruct (Z.lt_trichotomy r' x) as [Hlt|[->|Hgt]].
    - exfalso. pose proof (proj1 Hz') as Hr'.
      specialize (Hbef r' ltac:(lia)). cbv beta in Hbef.
      destruct (ZoneScanFacts.zone_row_search rk size zs ze r' Hg Hz Hr') as (rr & Hrr & Hrn & _).
      rewrite Hrr in Hbef. injection Hbef as ->. exact (Hrn eq_refl c' Hz').
    - right. split; [done|]. destruct (Z.le_gt_cases c c') as [|Hlt]; [done|].
      exfalso. exact (Hmin c' Hlt Hz').
    - left. exact Hgt. }
  exists res. split; [exact Hres|]. split.
  - split.
    + intros -> r c Hzc. pose proof (proj1 Hzc) as Hr.
      specialize (Hnone eq_refl r ltac:(lia)). cbv beta in Hnone.
      destruct (ZoneScanFacts.zone_row_search rk size zs ze r Hg Hz Hr) as (rr & Hrr & Hrn & _).
      rewrite Hrr in Hnone. injection Hnone as ->. exact (Hrn eq_refl c Hzc).
    + intros Hno. destruct res as [y|]; [|done].
      destruct (Hfirst y eq_refl) as (r & c & _ & Hzc & _). exfalso. exact (Hno r c Hzc).
  - intros r c. split.
    + intros Hy. destruct (Hfirst _ Hy) as (r0 & c0 & [= <- <-] & Hzc & Hmin). auto.
    + intros [Hzc Hmin]. destruct res as [y|].
      * destruct (Hfirst y eq_refl) as (r0 & c0 & -> & Hzc0 & Hmin0).
        pose proof (Hmin r0 c0 Hzc0) as H1. pose proof (Hmin0 r c Hzc) as H2.
        assert (r = r0 /\ c = c0) as [-> ->] by lia. reflexivity.
      * exfalso.
        pose proof (Hnone eq_refl r ltac:(destruct Hzc; lia)) as Hn. cbv beta in Hn.
        destruct (ZoneScanFacts.zone_row_search rk size zs ze r Hg Hz (proj1 Hzc))
          as (rr & Hrr & Hrn & _).
        rewrite Hrr in Hn. injection Hn as ->. exact (Hrn eq_refl c Hzc).
Qed.

Lemma zone_slot_first_witness :
  rectangular (grid (new_rack 30 25)) (rows (new_rack 30 25)) (cols (new_rack 30 25)) /\
  Core.zone_lookup 2 Core.MODEL_ZONES = Some (4, 9) /\
  exists res, Core.find_nearest_empty_slot (new_rack 30 25) 2 29 0 = Some res /\
    (res = None <-> forall r c, ~ zone_slot (new_rack 30 25) 2 4 9 r c) /\
    (forall r c, res = Some (r, c) <->
       zone_slot (new_rack 30 25) 2 4 9 r c /\
       forall r' c', zone_slot (new_rack 30 25) 2 4 9 r' c' -> r < r' \/ (r = r' /\ c <= c')).
Proof.
  assert (Hg : rectangular (grid (new_rack 30 25)) (rows (new_rack 30 25)) (cols (new_rack 30 25))).
  { split; [reflexivity|]. apply Forall_replicate. reflexivity. }
  split; [exact Hg|]. split; [reflexivity|].
  apply (zone_slot_first (new_rack 30 25) 2 29 0 4 9); [exact Hg|reflexivity].
Defined.

(** ** Occupancy counts across a rectangular fill *)
Module OccupancyDelta.

Lemma fold_row (l : list (option Z)) n0 :
  fold_left (fun count (c : option Z) => match c with None => count | Some _ => count + 1 end) l n0 =
  n0 + occ_row l.
Proof.
  revert n0. induction l as [|v l IH]; intros n0; cbn [fold_left occ_row]; [lia|].
  rewrite IH. destruct v; simpl; lia.
Qed.

Lemma fold_grid (g : list (list (option Z))) n0 :
  fold_left (fun count rowl =>
    fold_left (fun count (c : option Z) => match c with None => count | Some _ => count + 1 end) rowl count)
    g n0 = n0 + occ_grid g.
Proof.
  revert n0. induction g as [|rowl g IH]; intros n0; cbn [fold_left occ_grid]; [lia|].
  rewrite IH, fold_row. lia.
Qed.

Lemma core_occ (rk : Rack) : Core.get_occupied_cells rk = occ_grid (grid rk).
Proof. unfold Core.get_occupied_cells. rewrite fold_grid. lia. Qed.

Lemma game_occ (rk : Game.Rack) : Game.get_occupied_cells rk = occ_grid (Game.grid rk).
Proof. unfold Game.get_occupied_cells. rewrite fold_grid. lia. Qed.

Lemma occ_row_upd (l : list (option Z)) (k : nat) (rowin : bool) c0 w x s :
  (forall j v, l !! j = Some v ->
     rowin && (c0 <=? Z.of_nat (k + j)) && (Z.of_nat (k + j) <? c0 + w) = true -> occupied v = s) ->
  occ_row (imap (fun j v => if rowin && (c0 <=? Z.of_nat (k + j)) && (Z.of_nat (k + j) <? c0 + w)
                            then x else v) l) =
  occ_row l + (if rowin then (occupied x - s) *
                 Z.max 0 (Z.min (c0 + w) (Z.of_nat k + Z.of_nat (length l)) - Z.max c0 (Z.of_nat k))
               else 0).
Proof.
  revert k. induction l as [|v l IH]; intros k H.
  - simpl. destruct rowin; lia.
  - cbn [imap occ_row length].
    rewrite (imap_ext _ (fun j v => if rowin && (c0 <=? Z.of_nat (S k + j)) &&
                                         (Z.of_nat (S k + j) <? c0 + w) then x else v) l).
    2:{ intros j u _. cbn [compose]. rewrite Nat.add_succ_r. reflexivity. }
    rewrite IH.
    2:{ intros j u Hj Hc. apply (H (S j)); [exact Hj|]. rewrite Nat.add_succ_r. exact Hc. }
    pose proof (H 0%nat v eq_refl) as Hv. rewrite Nat.add_0_r in Hv |- *.
    rewrite !Nat2Z.inj_succ.
    destruct rowin; cbn [andb] in *; [|lia].
    set (n := Z.of_nat (length l)). unfold Z.succ.
    destruct (Z.leb_spec c0 (Z.of_nat k)), (Z.ltb_spec (Z.of_nat k) (c0 + w)); cbn [andb] in *.
    + rewrite <- (Hv eq_refl).
      assert (E : Z.max 0 (Z.min (c0 + w) (Z.of_nat k + (n + 1)) - Z.max c0 (Z.of_nat k)) =
                  1 + Z.max 0 (Z.min (c0 + w) (Z.of_nat k + 1 + n) - Z.max c0 (Z.of_nat k + 1))) by lia.
      rewrite E. lia.
    + assert (E : Z.max 0 (Z.min (c0 + w) (Z.of_nat k + (n + 1)) - Z.max c0 (Z.of_nat k)) =
                  Z.max 0 (Z.min (c0 + w) (Z.of_nat k + 1 + n) - Z.max c0 (Z.of_nat k + 1))) by lia.
      rewrite E. destruct v; simpl; lia.
    + assert (E : Z.max 0 (Z.min (c0 + w) (Z.of_nat k + (n + 1)) - Z.max c0 (Z.of_nat k)) =
                  Z.max 0 (Z.min (c0 + w) (Z.of_nat k + 1 + n) - Z.max c0 (Z.of_nat k + 1))) by lia.
      rewrite E. lia.
    + assert (E : Z.max 0 (Z.min (c0 + w) (Z.of_nat k + (n + 1)) - Z.max c0 (Z.of_nat k)) =
                  Z.max 0 (Z.min (c0 + w) (Z.of_nat k + 1 + n) - Z.max c0 (Z.of_nat k + 1))) by lia.
      rewrite E. lia.
Qed.

Lemma occ_grid_upd (g : list (list (option Z))) (k : nat) cols r0 c0 h w x s :
  Forall (fun rowl => Z.of_nat (length rowl) = cols) g -> 0 <= c0 -> 0 <= w -> c0 + w <= cols ->
  (forall i j rowl v, g !! i = Some rowl -> rowl !! j = Some v ->
     rect r0 c0 h w (Z.of_nat (k + i)) (Z.of_nat j) = true -> occupied v = s) ->
  occ_grid (imap (fun i rowl =>
              imap (fun j v => if rect r0 c0 h w (Z.of_nat (k + i)) (Z.of_nat j) then x else v) rowl) g) =
  occ_grid g + (occupied x - s) * w *
    Z.max 0 (Z.min (r0 + h) (Z.of_nat k + Z.of_nat (length g)) - Z.max r0 (Z.of_nat k)).
Proof.
  intros Hrows Hc0 Hw Hcw. revert k. induction g as [|rowl g IH]; intros k H.
  - simpl. lia.
  - apply Forall_cons in Hrows as [Hrow Hrows].
    cbn [imap occ_grid length].
    rewrite (imap_ext _ (fun i rowl => imap (fun j v =>
               if rect r0 c0 h w (Z.of_nat (S k + i)) (Z.of_nat j) then x else v) rowl) g).
    2:{ intros i u _. cbn [compose]. rewrite Nat.add_succ_r. reflexivity. }
    rewrite (IH Hrows (S k)).
    2:{ intros i j u v Hi Hj Hc. apply (H (S i) j u v Hi Hj). rewrite Nat.add_succ_r. exact Hc. }
    rewrite Nat.add_0_r. unfold rect.
    pose proof (occ_row_upd rowl 0 ((r0 <=? Z.of_nat k) && (Z.of_nat k <? r0 + h)) c0 w x s) as E.
    cbn [Nat.add] in E. rewrite E; clear E.
    2:{ intros j v Hj Hc. apply (H 0%nat j rowl v eq_refl Hj). rewrite Nat.add_0_r. exact Hc. }
    rewrite !Nat2Z.inj_succ, Hrow. unfold Z.succ. set (n := Z.of_nat (length g)).
    assert (Ew : Z.max 0 (Z.min (c0 + w) (Z.of_nat 0 + cols) - Z.max c0 (Z.of_nat 0)) = w) by lia.
    rewrite Ew.
    destruct (Z.leb_spec r0 (Z.of_nat k)), (Z.ltb_spec (Z.of_nat k) (r0 + h)); cbn [andb].
    + assert (E : Z.max 0 (Z.min (r0 + h) (Z.of_nat k + (n + 1)) - Z.max r0 (Z.of_nat k)) =
                  1 + Z.max 0 (Z.min (r0 + h) (Z.of_nat k + 1 + n) - Z.max r0 (Z.of_nat k + 1))) by lia.
      rewrite E. lia.
    + assert (E : Z.max 0 (Z.min (r0 + h) (Z.of_nat k + (n + 1)) - Z.max r0 (Z.of_nat k)) =
                  Z.max 0 (Z.min (r0 + h) (Z.of_nat k + 1 + n) - Z.max r0 (Z.of_nat k + 1))) by lia.
      rewrite E. lia.
    + assert (E : Z.max 0 (Z.min (r0 + h) (Z.of_nat k + (n + 1)) - Z.max r0 (Z.of_nat k)) =
                  Z.max 0 (Z.min (r0 + h) (Z.of_nat k + 1 + n) - Z.max r0 (Z.of_nat k + 1))) by lia.
      rewrite E. lia.
    + assert (E : Z.max 0 (Z.min (r0 + h) (Z.of_nat k + (n + 1)) - Z.max r0 (Z.of_nat k)) =
                  Z.max 0 (Z.min (r0 + h) (Z.of_nat k + 1 + n) - Z.max r0 (Z.of_nat k + 1))) by lia.
      rewrite E. lia.
Qed.

(** Setting every cell of an in-grid [h x w] rectangle whose cells all count
    [s] (0 or 1) to [x] changes the occupied count by [(occupied x - s) * h * w]. *)
Lemma occ_upd_rect (g : list (list (option Z))) rows cols P r0 c0 h w x s :
  rectangular g rows cols -> (forall i j, P i j = rect r0 c0 h w i j) ->
  0 <= r0 -> 0 <= c0 -> 0 <= h -> 0 <= w -> r0 + h <= rows -> c0 + w <= cols ->
  (forall i j, rect r0 c0 h w i j = true -> exists v, cell_at g i j = Some v /\ occupied v = s) ->
  occ_grid (upd_grid P x g) = occ_grid g + (occupied x - s) * (h * w).
Proof.
  intros [Hlen Hrows] HP Hr0 Hc0 Hh Hw Hrh Hcw Hcell. unfold upd_grid.
  rewrite (imap_ext _ (fun i rowl => imap (fun j v =>
             if rect r0 c0 h w (Z.of_nat (0 + i)) (Z.of_nat j) then x else v) rowl) g).
  2:{ intros i u _. apply imap_ext. intros j v _. by rewrite HP. }
  rewrite (occ_grid_upd g 0 cols r0 c0 h w x s Hrows Hc0 Hw Hcw).
  - rewrite Hlen.
    assert (E : Z.max 0 (Z.min (r0 + h) (Z.of_nat 0 + rows) - Z.max r0 (Z.of_nat 0)) = h) by lia.
    rewrite E. ring.
  - intros i j rowl v Hi Hj Hc. cbn [Nat.add] in Hc.
    destruct (Hcell _ _ Hc) as (v' & Hv' & Hs).
    rewrite cell_at_nonneg, !Nat2Z.id, Hi in Hv' by lia. cbn in Hv'.
    rewrite Hj in Hv'. injection Hv' as ->. exact Hs.
Qed.

End OccupancyDelta.

(** X9: [core.py]'s [place_box] on a free in-grid footprint with [size >= 0]
    succeeds and raises [get_occupied_cells] by exactly [size * size]. *)
Theorem place_box_occupancy (rk : Rack) (t row col size : Z) :
  rectangular (grid rk) (rows rk) (cols rk) ->
  0 <= row -> 0 <= col -> 0 <= size -> row + size <= rows rk -> col + size <= cols rk ->
  (forall r c, in_rect row col size r c = true -> cell_at (grid rk) r c = Some None) ->
  exists rk', Core.place_box rk t row col size = Some rk' /\
    Core.get_occupied_cells rk' = Core.get_occupied_cells rk + size * size.
Proof.
  intros Hg Hr Hc Hs Hrs Hcs Hfree.
  rewrite CoreFacts.place_box_in by done. eexists. split; [reflexivity|].
  rewrite !OccupancyDelta.core_occ. cbn [grid].
  rewrite (OccupancyDelta.occ_upd_rect _ (rows rk) (cols rk) _ row col size size (Some t) 0);
    [simpl; lia|exact Hg|intros; reflexivity|lia|lia|lia|lia|lia|lia|].
  intros i j Hij. exists None. split; [apply Hfree; exact Hij|reflexivity].
Qed.

Lemma place_box_occupancy_witness :
  exists rk', Core.place_box (new_rack 4 4) 1 1 1 2 = Some rk' /\
    Core.get_occupied_cells rk' = Core.get_occupied_cells (new_rack 4 4) + 2 * 2.
Proof.
  apply place_box_occupancy.
  - split; [reflexivity|]. apply Forall_replicate. reflexivity.
  - lia.
  - lia.
  - lia.
  - simpl. lia.
  - simpl. lia.
  - intros r c Hrc. unfold in_rect in Hrc.
    rewrite !andb_true_iff, !Z.leb_le, !Z.ltb_lt in Hrc.
    assert (Hr : r = 1 \/ r = 2) by lia. assert (Hc : c = 1 \/ c = 2) by lia.
    destruct Hr as [-> | ->], Hc as [-> | ->]; reflexivity.
Defined.

(** X10: [game.py]'s [place_box] of a box with non-negative sides at a place
    where it fits succeeds and raises [get_occupied_cells] by exactly the
    box's area [width * length]. *)
Theorem game_place_occupancy (rk : Game.Rack) (box : Game.Box) (sr sc : Z) :
  rectangular (Game.grid rk) (Game.rows rk) (Game.cols rk) ->
  0 <= Game.box_width box -> 0 <= Game.box_length box -> Game.fits rk box sr sc ->
  exists rk', Game.place_box rk box sr sc = Some (true, rk') /\
    Game.get_occupied_cells rk' =
    Game.get_occupied_cells rk + Game.box_width box * Game.box_length box.
Proof.
  intros Hg Hw Hl Hfit. pose proof Hfit as (Hsr & Hsc & Hws & Hls & Hfree).
  rewrite (proj2 (GameRackFacts.place_box_eq rk box sr sc Hg Hsr Hsc) Hfit).
  eexists. split; [reflexivity|].
  rewrite !OccupancyDelta.game_occ. cbn [Game.grid].
  rewrite (OccupancyDelta.occ_upd_rect _ (Game.rows rk) (Game.cols rk) _ sr sc
             (Game.box_width box) (Game.box_length box) (Some (Game.next_box_id rk)) 0);
    [simpl; lia|exact Hg|intros; reflexivity|lia|lia|lia|lia|lia|lia|].
  intros i j Hij. exists None. split; [|reflexivity].
  unfold rect in Hij. rewrite !andb_true_iff, !Z.leb_le, !Z.ltb_lt in Hij.
  apply Hfree; lia.
Qed.

Lemma game_place_occupancy_witness :
  exists rk', Game.place_box (Game.new_rack 3 4) (Game.mkBox 2 1 None) 1 1 = Some (true, rk') /\
    Game.get_occupied_cells rk' =
    Game.get_occupied_cells (Game.new_rack 3 4) +
    Game.box_width (Game.mkBox 2 1 None) * Game.box_length (Game.mkBox 2 1 None).
Proof.
  apply game_place_occupancy.
  - split; [reflexivity|]. apply Forall_replicate. reflexivity.
  - simpl. lia.
  - simpl. lia.
  - unfold Game.fits. simpl. split; [lia|]. split; [lia|]. split; [lia|]. split; [lia|].
    intros r c Hr Hc. assert (r = 1) as -> by lia.
    assert (Hc' : c = 1 \/ c = 2) by lia. destruct Hc' as [-> | ->]; reflexivity.
Defined.

(** X11: on a rack satisfying the bookkeeping invariant, [game.py]'s
    [remove_box] of a stored box with non-negative sides succeeds and lowers
    [get_occupied_cells] by exactly the box's area. *)
Theorem game_remove_occupancy (rk : Game.Rack) (bid : Z) (box : Game.Box) :
  Game.rack_ok rk -> Game.boxes rk !! bid = Some box ->
  0 <= Game.box_width box -> 0 <= Game.box_length box ->
  exists rk', Game.remove_box rk bid = Some (true, rk') /\
    Game.get_occupied_cells rk' =
    Game.get_occupied_cells rk - Game.box_width box * Game.box_length box.
Proof.
  intros Hok Hb Hw Hl.
  destruct (GameRackFacts.remove_box_eq rk bid box Hok Hb) as (p & Hp & Heq).
  pose proof Hok as (Hrect & Hdom & Hnd & Hord & Hid & Hbnd & Hcell).
  destruct (Hbnd _ _ _ Hb Hp) as (Hp1 & Hp2 & Hpw & Hpl).
  rewrite Heq. eexists. split; [reflexivity|].
  rewrite !OccupancyDelta.game_occ. cbn [Game.grid].
  rewrite (OccupancyDelta.occ_upd_rect _ (Game.rows rk) (Game.cols rk) _ p.1 p.2
             (Game.box_width box) (Game.box_length box) None 1);
    [simpl; lia|exact Hrect|intros; reflexivity|lia|lia|lia|lia|lia|lia|].
  intros i j Hij. exists (Some bid). split; [|reflexivity].
  assert (Hin : Game.covers box p i j = true) by exact Hij.
  unfold rect in Hij. rewrite !andb_true_iff, !Z.leb_le, !Z.ltb_lt in Hij.
  apply (Hcell i j bid); [lia|lia|]. exists box, p. auto.
Qed.

Lemma game_remove_occupancy_witness :
  exists rk', Game.remove_box (Game.mkRack 3 4 [[None; None; None; None]; [None; Some 1; Some 1; None];
                                                 [None; None; None; None]]
                  {[1 := Game.mkBox 2 1 (Some 1)]} {[1 := (1, 1)]} 2 [1]) 1 = Some (true, rk') /\
    Game.get_occupied_cells rk' =
    Game.get_occupied_cells (Game.mkRack 3 4 [[None; None; None; None]; [None; Some 1; Some 1; None];
                                              [None; None; None; None]]
                  {[1 := Game.mkBox 2 1 (Some 1)]} {[1 := (1, 1)]} 2 [1]) -
    Game.box_width (Game.mkBox 2 1 (Some 1)) * Game.box_length (Game.mkBox 2 1 (Some 1)).
Proof.
  apply game_remove_occupancy.
  - destruct (GameRackFacts.place_box_ok (Game.new_rack 3 4) (Game.mkBox 2 1 None) 1 1)
      as (b & rk' & Hpl & Hok & _); [apply GameRackFacts.new_rack_ok; lia|lia|lia|].
    assert (E : Game.place_box (Game.new_rack 3 4) (Game.mkBox 2 1 None) 1 1 =
                Some (true, Game.mkRack 3 4 [[None; None; None; None]; [None; Some 1; Some 1; None];
                                             [None; None; None; None]]
                  {[1 := Game.mkBox 2 1 (Some 1)]} {[1 := (1, 1)]} 2 [1])) by reflexivity.
    rewrite E in Hpl. injection Hpl as _ <-. exact Hok.
  - reflexivity.
  - simpl. lia.
  - simpl. lia.
Defined.

(** ** [game.py]: save file round trip *)
Module GameSaveFacts.
Import GameSave.

Lemma py_mapM_cons {A B} (f : A -> option B) x l :
  py_mapM f (x :: l) = let? y := f x in let? ys := py_mapM f l in Some (y :: ys).
Proof. reflexivity. Qed.

Lemma py_mapM_map {A B C} (f : B -> option C) (g : A -> B) (h : A -> C) (l : list A) :
  (forall x, f (g x) = Some (h x)) -> py_mapM f (map g l) = Some (map h l).
Proof.
  intros H. induction l as [|x l IH]; [reflexivity|].
  cbn [map]. rewrite py_mapM_cons, H, IH. reflexivity.
Qed.

Lemma py_mapM_map_inv {A B} (f : B -> option A) (g : A -> B) (l : list A) :
  (forall x, f (g x) = Some x) -> py_mapM f (map g l) = Some l.
Proof. intros H. rewrite (py_mapM_map f g id) by exact H. by rewrite list_fmap_id. Qed.

(** [int(str(z)) == z] *)
Lemma py_int_str z : py_int (PStr (py_str z)) = Some z.
Proof.
  unfold py_int, py_str. rewrite <- (DecimalZ.of_to z) at 2.
  destruct (Z.to_int z) as [u|u]; destruct u;
    try reflexivity; rewrite DecimalString.NilZero.isi; (reflexivity || discriminate).
Qed.

Lemma dict_of_pairs_fold {V} (l : list (Z * V)) (m : gmap Z V) :
  NoDup l.*1 -> fold_left (fun m kv => <[kv.1 := kv.2]> m) l m = list_to_map l ∪ m.
Proof.
  revert m. induction l as [|[k v] l IH]; intros m Hnd; cbn [fold_left list_to_map foldr].
  - by rewrite (left_id_L ∅ (∪)).
  - apply NoDup_cons in Hnd as [Hk Hnd]. rewrite IH by exact Hnd. simpl.
    rewrite <- insert_union_l, <- insert_union_r; [reflexivity|].
    by apply not_elem_of_list_to_map_1.
Qed.

Lemma dict_of_pairs_map_to_list {V} (m : gmap Z V) : dict_of_pairs (map_to_list m) = m.
Proof.
  unfold dict_of_pairs. rewrite dict_of_pairs_fold by apply NoDup_fst_map_to_list.
  by rewrite (right_id_L ∅ (∪)), list_to_map_to_list.
Qed.

Lemma json_list l :
  json_roundtrip (PList l) = let? l' := py_mapM json_roundtrip l in Some (PList l').
Proof. reflexivity. Qed.

Lemma json_tuple l :
  json_roundtrip (PTuple l) = let? l' := py_mapM json_roundtrip l in Some (PList l').
Proof. reflexivity. Qed.

Lemma json_dict kv :
  json_roundtrip (PDict kv) =
  let? kv' := py_mapM (fun '(k, x) => let? k' := json_key k in
                                      let? y := json_roundtrip x in Some (k', y)) kv in
  Some (PDict kv').
Proof. reflexivity. Qed.

Lemma box_roundtrip (b : Game.Box) : Box_from_dict (Box_to_dict b) = Some b.
Proof. destruct b as [l w [i|]]; reflexivity. Qed.

Lemma json_box (b : Game.Box) : json_roundtrip (Box_to_dict b) = Some (Box_to_dict b).
Proof. destruct b as [l w [i|]]; reflexivity. Qed.

Lemma json_grid (g : list (list (option Z))) :
  json_roundtrip (PList (map (fun rowl => PList (map py_of_opt rowl)) g)) =
  Some (PList (map (fun rowl => PList (map py_of_opt rowl)) g)).
Proof.
  rewrite json_list, (py_mapM_map _ _ (fun rowl => PList (map py_of_opt rowl))); [reflexivity|].
  intros rowl. rewrite json_list, (py_mapM_map _ _ py_of_opt); [reflexivity|].
  intros [v|]; reflexivity.
Qed.

Lemma json_ints (l : list Z) : json_roundtrip (PList (map PInt l)) = Some (PList (map PInt l)).
Proof. rewrite json_list, (py_mapM_map _ _ PInt); [reflexivity|]. intros z. reflexivity. Qed.

Lemma json_boxes (l : list (Z * Game.Box)) :
  json_roundtrip (PDict (map (fun '(bid, b) => (PInt bid, Box_to_dict b)) l)) =
  Some (PDict (map (fun '(bid, b) => (PStr (py_str bid), Box_to_dict b)) l)).
Proof.
  rewrite json_dict, (py_mapM_map _ _ (fun '(bid, b) => (PStr (py_str bid), Box_to_dict b)));
    [reflexivity|].
  intros [bid b]. cbn [json_key]. rewrite json_box. reflexivity.
Qed.

Lemma json_positions (l : list (Z * (Z * Z))) :
  json_roundtrip (PDict (map (fun '(bid, (r, c)) => (PInt bid, PTuple [PInt r; PInt c])) l)) =
  Some (PDict (map (fun '(bid, (r, c)) => (PStr (py_str bid), PList [PInt r; PInt c])) l)).
Proof.
  rewrite json_dict.
  rewrite (py_mapM_map _ _ (fun '(bid, (r, c)) => (PStr (py_str bid), PList [PInt r; PInt c])));
    [reflexivity|].
  intros [bid [r c]]. reflexivity.
Qed.

(** [Rack.from_dict] on a dict shaped as [to_dict] leaves it, whatever the
    encoding of the [boxes] and [box_positions] entries, as long as each entry
    is read back as itself. *)
Lemma from_dict_shape (rk : Game.Rack) (encb : Z * Game.Box -> PyVal * PyVal)
    (encp : Z * (Z * Z) -> PyVal * PyVal) :
  (forall x, (fun '(k, v) => let? bid := py_int k in
                             let? b := Box_from_dict v in Some (bid, b)) (encb x) = Some x) ->
  (forall x, (fun '(k, v) => let? bid := py_int k in
                             let? p := as_cell v in Some (bid, p)) (encp x) = Some x) ->
  Rack_from_dict
    (PDict [(PStr "rows", PInt (Game.rows rk));
            (PStr "cols", PInt (Game.cols rk));
            (PStr "grid", PList (map (fun rowl => PList (map py_of_opt rowl)) (Game.grid rk)));
            (PStr "boxes", PDict (map encb (map_to_list (Game.boxes rk))));
            (PStr "box_positions", PDict (map encp (map_to_list (Game.box_positions rk))));
            (PStr "next_box_id", PInt (Game.next_box_id rk));
            (PStr "box_order", PList (map PInt (Game.box_order rk)))]) = Some rk.
Proof.
  intros Hb Hp.
  assert (Hg : py_mapM (fun rowv => let? cells := as_list rowv in py_mapM as_opt_int cells)
                 (map (fun rowl => PList (map py_of_opt rowl)) (Game.grid rk)) = Some (Game.grid rk)).
  { apply py_mapM_map_inv. intros rowl. cbn [as_list].
    rewrite py_mapM_map_inv; [reflexivity|]. intros [v|]; reflexivity. }
  assert (Hbx := py_mapM_map_inv _ encb (map_to_list (Game.boxes rk)) Hb).
  assert (Hps := py_mapM_map_inv _ encp (map_to_list (Game.box_positions rk)) Hp).
  assert (Ho : py_mapM as_int (map PInt (Game.box_order rk)) = Some (Game.box_order rk)).
  { apply py_mapM_map_inv. reflexivity. }
  unfold Rack_from_dict. cbn -[py_mapM].
  rewrite Hg, Hbx, Hps, Ho. cbn -[py_mapM dict_of_pairs].
  rewrite !dict_of_pairs_map_to_list. destruct rk; reflexivity.
Qed.

End GameSaveFacts.

(** X12: [game.py]'s [Rack.from_dict] rebuilds the rack from [rack.to_dict()],
    both directly and after the JSON round trip of [save_game_state] /
    [load_game_state], where the int keys of [boxes] and [box_positions] come
    back as strings (read back by [int(...)]) and the position tuples come back
    as lists (read back by [tuple(...)]). *)
Theorem game_save_load_roundtrip (rk : Game.Rack) :
  GameSave.Rack_from_dict (GameSave.Rack_to_dict rk) = Some rk /\
  GameSave.save_then_load rk = Some rk.
Proof.
  split.
  - unfold GameSave.Rack_to_dict. apply GameSaveFacts.from_dict_shape.
    + intros [bid [l w [i|]]]; reflexivity.
    + intros [bid [r c]]. reflexivity.
  - unfold GameSave.save_then_load, GameSave.Rack_to_dict.
    rewrite GameSaveFacts.json_dict, !GameSaveFacts.py_mapM_cons.
    cbn -[GameSave.json_roundtrip].
    rewrite GameSaveFacts.json_grid, GameSaveFacts.json_boxes, GameSaveFacts.json_positions,
      GameSaveFacts.json_ints.
    cbn -[GameSave.Rack_from_dict].
    apply GameSaveFacts.from_dict_shape.
    + intros [bid b]. cbv beta iota.
      rewrite GameSaveFacts.py_int_str, GameSaveFacts.box_roundtrip. reflexivity.
    + intros [bid [r c]]. cbv beta iota. rewrite GameSaveFacts.py_int_str. reflexivity.
Qed.
